(** * pixas-web: the pixelation worker and the palette parser

    A shallow embedding of [apps/web/src/workers/pixelate.worker.ts], of
    the palette helpers of [apps/web/src/routes/index.tsx], of the grid
    overlay of the viewer and of the size cap of the image decoder, followed
    by the properties of the specification that were checked against them
    and by further properties of the same code.

    Conventions of the embedding.
    - Integer-valued JavaScript numbers (job ids, sizes, bytes, indices) are
      [Z] or [nat]; a number that may be [NaN] is a [Js.num].
    - A typed array is a [list]; reading is stdpp's lookup [l !! i] ([None]
      is JavaScript's [undefined]), writing is stdpp's insert [<[i:=v]> l],
      which, like a typed array, ignores an index out of range.
    - The numbers of the perceptual mapper (CIELAB coordinates, distances,
      costs) are real numbers [R]: the rounding of the arithmetic on doubles
      is idealised away, as are [NaN] and the sign of zero; [Infinity] is
      kept as a separate value ([Js.ext]).  What a [Float32Array] keeps of a
      number stored in it is its rounding [Js.fround].
    - Strings are sequences of code units below 256 (the type [ascii]). *)

From Stdlib Require Import ZArith List Ascii String Reals Lra Lia.
From stdpp Require Import base list.

(** ** JavaScript values shared by the two source files *)

Module Js.

Local Open Scope Z_scope.

(** An integer-valued JavaScript number or [NaN] (the results of
    [Number.parseInt]; [-0] is identified with [0]). *)
Inductive num : Type :=
| NaN
| Int (z : Z).

(** [ToUint8Clamp], the conversion a [Uint8ClampedArray] applies to every
    value stored in it. *)
Definition toUint8Clamp (v : num) : Z :=
  match v with
  | NaN => 0
  | Int z => Z.max 0 (Z.min 255 z)
  end.

(** [new Uint8ClampedArray(numbers)]. *)
Definition Uint8ClampedArray_from (numbers : list num) : list Z :=
  map toUint8Clamp numbers.

(** A value read from a byte array and stored into a [Uint8ClampedArray]
    ([undefined] converts to [NaN] and is stored as [0]). *)
Definition storeByte (v : option Z) : Z :=
  match v with
  | None => 0
  | Some z => Z.max 0 (Z.min 255 z)
  end.

(** A value read from a typed array, as a number ([undefined] behaves as
    [NaN] in the arithmetic that follows). *)
Definition readNum (l : list Z) (i : nat) : num :=
  match l !! i with
  | Some z => Int z
  | None => NaN
  end.

Definition sub (x y : num) : num :=
  match x, y with
  | Int a, Int b => Int (a - b)
  | _, _ => NaN
  end.

Definition add (x y : num) : num :=
  match x, y with
  | Int a, Int b => Int (a + b)
  | _, _ => NaN
  end.

Definition mul (x y : num) : num :=
  match x, y with
  | Int a, Int b => Int (a * b)
  | _, _ => NaN
  end.

(** A number that starts as [Number.POSITIVE_INFINITY]. *)
Inductive ext (A : Type) : Type :=
| PosInf
| Finite (a : A).
Arguments PosInf {A}.
Arguments Finite {A} a.

(** [Int16Array] storage: the integer modulo 2^16, in [-32768, 32767]. *)
Definition toInt16 (z : Z) : Z := (z + 32768) mod 65536 - 32768.

(** The loop [for (let i = 0; i < n; i += 4)]: the values [i] takes. *)
Definition strideIndices (n : nat) : list nat :=
  map (fun k => (k * 4)%nat) (seq 0 (Nat.div (n + 3) 4)).

(** [Float32Array] storage: [fround x] is what the array keeps of the
    number [x] stored in it ([Math.fround]). *)
Class Float32 : Type := { fround : R -> R }.

(** *** Vocabulary of the properties *)

(** Half the distance between 1 and the next float32, 2^-24. *)
Definition FLOAT32_EPSILON : R := / 16777216.

(** Magnitudes from 2^-100 to 2^100, well inside the normal float32 numbers. *)
Definition float32Range (x : R) : Prop :=
  (/ 1267650600228229401496703205376 <= x <= 1267650600228229401496703205376)%R.

(** What is used of the rounding to the nearest float32: it keeps the order,
    it leaves a float32 as it is, 0 is a float32, and in the range above it
    moves a number by at most [FLOAT32_EPSILON] of its size. *)
Record Float32Rounding `{Float32} : Prop := {
  fround_monotone : forall x y : R, (x <= y)%R -> (fround x <= fround y)%R;
  fround_fixed : forall x : R, fround (fround x) = fround x;
  fround_zero : fround 0%R = 0%R;
  fround_near : forall x : R, float32Range (Rabs x) ->
                  (Rabs (fround x - x) <= FLOAT32_EPSILON * Rabs x)%R
}.

(** The storage that rounds nothing, for the examples. *)
Definition exactFloat32 : Float32 := {| fround := fun x => x |}.

End Js.

(** ** routes/index.tsx: palette colour strings *)

Module Route.

Import Js.
Local Open Scope Z_scope.

Definition RGBA_STRIDE : nat := 4.
Definition FULLY_OPAQUE_ALPHA : Z := 255.
Definition HEX_TRIPLET_LEN : nat := 3.
Definition HEX_SIX_LEN : nat := 6.
Definition TRANSPARENT_RGBA : num * num * num * num := (Int 0, Int 0, Int 0, Int 0).

(** White space and line terminators among the code units below 256. *)
Definition isStrWhiteSpaceChar (c : ascii) : bool :=
  let n := nat_of_ascii c in
  ((9 <=? n)%nat && (n <=? 13)%nat) || (n =? 32)%nat || (n =? 160)%nat.

(** [String.prototype.toLowerCase] on one code unit below 256. *)
Definition toLowerChar (c : ascii) : ascii :=
  let n := nat_of_ascii c in
  if ((65 <=? n)%nat && (n <=? 90)%nat)
     || ((192 <=? n)%nat && (n <=? 222)%nat && negb (n =? 215)%nat)
  then ascii_of_nat (n + 32) else c.

Definition toLowerCase (s : list ascii) : list ascii := map toLowerChar s.

Fixpoint trimStart (s : list ascii) : list ascii :=
  match s with
  | c :: s' => if isStrWhiteSpaceChar c then trimStart s' else s
  | [] => []
  end.

Definition trim (s : list ascii) : list ascii :=
  rev (trimStart (rev (trimStart s))).

(** [s.slice(from, to)] for [0 <= from <= to]. *)
Definition slice (from to : nat) (s : list ascii) : list ascii :=
  firstn (to - from) (skipn from s).

(** [s[i]]; an index out of range gives [undefined], which [+] turns into
    the text "undefined"; the source only indexes below the length. *)
Definition charAt (i : nat) (s : list ascii) : list ascii :=
  match s !! i with
  | Some c => [c]
  | None => list_ascii_of_string "undefined"
  end.

Definition hexDigitValue (c : ascii) : option Z :=
  let n := nat_of_ascii c in
  if ((48 <=? n)%nat && (n <=? 57)%nat) then Some (Z.of_nat n - 48)
  else if ((97 <=? n)%nat && (n <=? 102)%nat) then Some (Z.of_nat n - 87)
  else if ((65 <=? n)%nat && (n <=? 70)%nat) then Some (Z.of_nat n - 55)
  else None.

(** The value of the longest prefix of hexadecimal digits; [None] when the
    prefix is empty. *)
Fixpoint hexPrefixValue (s : list ascii) (acc : option Z) : option Z :=
  match s with
  | c :: s' =>
      match hexDigitValue c with
      | Some v => hexPrefixValue s' (Some (16 * default 0 acc + v))
      | None => acc
      end
  | [] => acc
  end.

(** [Number.parseInt(s, 16)]: leading white space, a sign, an optional
    [0x] prefix, then the longest prefix of digits. *)
Definition parseInt16 (s : list ascii) : num :=
  let s1 := trimStart s in
  let '(sign, s2) :=
    match s1 with
    | "-"%char :: t => (-1, t)
    | "+"%char :: t => (1, t)
    | _ => (1, s1)
    end in
  let s3 :=
    match s2 with
    | "0"%char :: "x"%char :: t => t
    | "0"%char :: "X"%char :: t => t
    | _ => s2
    end in
  match hexPrefixValue s3 None with
  | None => NaN
  | Some v => Int (sign * v)
  end.

Definition startsWithHash (s : list ascii) : bool :=
  match s with
  | "#"%char :: _ => true
  | _ => false
  end.

Definition hexToRgbaComponents (hex : string) : option (num * num * num * num) :=
  let hex := list_ascii_of_string hex in
  let lower := toLowerCase hex in
  if List.list_eq_dec ascii_dec lower (list_ascii_of_string "transparent")
  then Some TRANSPARENT_RGBA
  else
    let h := trim hex in
    let h := if startsWithHash h then skipn 1 h else h in
    if decide (length h = HEX_TRIPLET_LEN) then
      let r := parseInt16 (charAt 0 h ++ charAt 0 h) in
      let g := parseInt16 (charAt 1 h ++ charAt 1 h) in
      let b := parseInt16 (charAt 2 h ++ charAt 2 h) in
      Some (r, g, b, Int FULLY_OPAQUE_ALPHA)
    else if decide (length h = HEX_SIX_LEN) then
      let r := parseInt16 (slice 0 2 h) in
      let g := parseInt16 (slice 2 4 h) in
      let b := parseInt16 (slice 4 6 h) in
      Some (r, g, b, Int FULLY_OPAQUE_ALPHA)
    else None.

Record PaletteEntry : Type := mkPaletteEntry {
  key : string;
  hex : string;
  isPremium : bool
}.

(** The body of the [for (const e of paletteEntries)] loop. *)
Definition pushEntry (selectedKeys : list string) (out : list num) (e : PaletteEntry)
  : list num :=
  if existsb (String.eqb (key e)) selectedKeys then
    match hexToRgbaComponents (hex e) with
    | Some (r, g, b, a) => out ++ [r; g; b; a]
    | None => out
    end
  else out.

(** The flattened palette sent to the worker. *)
Definition selectedPaletteArray (paletteEntries : list PaletteEntry)
    (selectedKeys : list string) : list num :=
  let out := fold_left (pushEntry selectedKeys) paletteEntries [] in
  if decide ((length out mod RGBA_STRIDE)%nat <> 0%nat)
  then firstn (length out - length out mod RGBA_STRIDE) out
  else out.

(** *** The selection of palette entries *)

(** The updater of [onToggleKey]:
    [prev.includes(k) ? prev.filter((x) => x !== k) : [...prev, k]]. *)
Definition toggleKey (k : string) (prev : list string) : list string :=
  if existsb (String.eqb k) prev
  then List.filter (fun x => negb (String.eqb x k)) prev
  else prev ++ [k].

(** The selection set by [onSelectAll(premium)]; [None] is the argument
    ['all']. *)
Definition selectAll (paletteEntries : list PaletteEntry) (premium : option bool)
  : list string :=
  match premium with
  | None => map key paletteEntries
  | Some p => map key (List.filter (fun e => Bool.eqb (isPremium e) p) paletteEntries)
  end.

(** *** Vocabulary of the properties *)

(** The numbers an entry contributes to the flattened palette. *)
Definition entryQuad (e : PaletteEntry) : list num :=
  match hexToRgbaComponents (hex e) with
  | Some (r, g, b, a) => [r; g; b; a]
  | None => []
  end.

(** [selected.has(e.key)]. *)
Definition isSelected (selectedKeys : list string) (e : PaletteEntry) : bool :=
  existsb (String.eqb (key e)) selectedKeys.

End Route.

(** ** pixelate.worker.ts: the tile-grid dimensions *)

Module Tiles.

Local Open Scope Z_scope.

(** [Math.ceil(a / b)] for integers [a] and [b <> 0]; the quotient of two
    integers below 2^53 is rounded to a double on the same side of every
    integer, so the ceiling of the double is the ceiling of the fraction. *)
Definition ceilDiv (a b : Z) : Z := - ((- a) / b).

Definition computeTilesDimension (width height blockSize : Z) : Z * Z :=
  let tilesX := Z.max 1 (ceilDiv width blockSize) in
  let tilesY := Z.max 1 (ceilDiv height blockSize) in
  (tilesX, tilesY).

(** *** Vocabulary of the properties *)

(** [q] is the ceiling of the fraction [a / b], for [0 < b]. *)
Definition isCeiling (q a b : Z) : Prop := (q - 1) * b < a <= q * b.

End Tiles.

(** ** The viewer: the grid overlay *)

Module Viewer.

Import Tiles.
Local Open Scope Z_scope.

(** The positions [c * gridBlockSize], for [c = 1, ..., cols - 1] with
    [cols = Math.ceil(gridExtent / gridBlockSize)], of the lines that
    [GridSvgOverlay] draws across an extent: the vertical lines for the
    extent [gridWidth], the horizontal ones for [gridHeight]. *)
Definition gridLines (gridExtent gridBlockSize : Z) : list Z :=
  let cols := ceilDiv gridExtent gridBlockSize in
  map (fun c => Z.of_nat c * gridBlockSize) (seq 1 (Z.to_nat (cols - 1))).

End Viewer.

(** ** The image decoder: the cap on the size of decoded images *)

Module ImageSize.

Local Open Scope R_scope.

Definition MAX_DIMENSION : Z := 4096.

(** [Math.floor]. *)
Definition floor (r : R) : Z := Int_part r.

(** [constrainDimensions(width, height)] for integer arguments.  The two
    quotients and the two products are rounded to doubles: [fl] is that
    rounding. *)
Definition constrainDimensions (fl : R -> R) (width height : Z) : Z * Z :=
  if ((width <=? MAX_DIMENSION)%Z && (height <=? MAX_DIMENSION)%Z)%bool
  then (width, height)
  else
    let scale := Rmin (fl (IZR MAX_DIMENSION / IZR width))
                      (fl (IZR MAX_DIMENSION / IZR height)) in
    (Z.max 1 (floor (fl (IZR width * scale))),
     Z.max 1 (floor (fl (IZR height * scale)))).

(** *** Vocabulary of the properties *)

(** The integers up to [Number.MAX_SAFE_INTEGER] are doubles. *)
Definition MAX_SAFE_INTEGER : Z := 9007199254740991.

(** The relative error of one rounding to a double, 2^-53. *)
Definition doubleEps : R := / 9007199254740992.

(** Magnitudes from 2^-60 to 2^60, well inside the normal doubles. *)
Definition safeRange (x : R) : Prop :=
  / 1152921504606846976 <= x <= 1152921504606846976.

(** What is assumed of the rounding: in the safe range it moves a number by
    at most [doubleEps] of its size. *)
Definition roundsToNearest (fl : R -> R) : Prop :=
  forall x, safeRange x -> Rabs (fl x - x) <= doubleEps * Rabs x.

End ImageSize.


(** ** pixelate.worker.ts: image data and the classic colour mapper *)

Module Image.

Local Open Scope Z_scope.

Definition RGBA_STRIDE : nat := 4.
Definition CHANNEL_R : nat := 0.
Definition CHANNEL_G : nat := 1.
Definition CHANNEL_B : nat := 2.
Definition CHANNEL_A : nat := 3.
Definition TRANSPARENT_ALPHA : Z := 0.

(** [ImageData]: [data] is a [Uint8ClampedArray] of [4 * width * height]
    bytes. *)
Record ImageData : Type := mkImageData {
  width : nat;
  height : nat;
  data : list Z
}.

Definition wfImageData (img : ImageData) : Prop :=
  length (data img) = (4 * (width img * height img))%nat.

(** The four channels of pixel [k] of a flat RGBA buffer. *)
Definition pixelAt (d : list Z) (k : nat) : option (Z * Z * Z * Z) :=
  match d !! (4 * k)%nat, d !! (4 * k + 1)%nat, d !! (4 * k + 2)%nat, d !! (4 * k + 3)%nat with
  | Some r, Some g, Some b, Some a => Some (r, g, b, a)
  | _, _, _, _ => None
  end.

(** The four writes [d[i + CHANNEL_R] = v0; ...; d[i + CHANNEL_A] = v3]. *)
Definition setPixel (d : list Z) (i : nat) (v0 v1 v2 v3 : Z) : list Z :=
  <[(i + CHANNEL_A)%nat := v3]>
    (<[(i + CHANNEL_B)%nat := v2]>
       (<[(i + CHANNEL_G)%nat := v1]> (<[(i + CHANNEL_R)%nat := v0]> d))).

(** The values a [Uint8ClampedArray] holds. *)
Definition isByte (v : Z) : Prop := 0 <= v <= 255.

(** The squared Euclidean distance over (R, G, B) between a pixel and a
    palette entry. *)
Definition dist2 (px e : Z * Z * Z * Z) : Z :=
  let '(r, g, b, _) := px in
  let '(pr, pg, pb, _) := e in
  (pr - r) * (pr - r) + (pg - g) * (pg - g) + (pb - b) * (pb - b).

End Image.

Module Classic.

Import Js Image.
Local Open Scope Z_scope.

(** [dist < bestDist]; a comparison with [NaN] is false. *)
Definition distLt (dist : num) (bestDist : ext Z) : bool :=
  match dist, bestDist with
  | NaN, _ => false
  | Int _, PosInf => true
  | Int x, Finite y => x <? y
  end.

(** One iteration of the loop over the palette, on [(bestIndex, bestDist)]. *)
Definition scanStep (palette : list Z) (r g b : num) (best : nat * ext Z) (p : nat)
  : nat * ext Z :=
  let pr := readNum palette (p + CHANNEL_R) in
  let pg := readNum palette (p + CHANNEL_G) in
  let pb := readNum palette (p + CHANNEL_B) in
  let dr := sub pr r in
  let dg := sub pg g in
  let db := sub pb b in
  let dist := add (add (mul dr dr) (mul dg dg)) (mul db db) in
  if distLt dist (snd best) then
    match dist with
    | Int x => (p, Finite x)
    | NaN => best
    end
  else best.

Definition scanPalette (palette : list Z) (r g b : num) : nat * ext Z :=
  fold_left (scanStep palette r g b) (strideIndices (length palette)) (0%nat, PosInf).

(** One iteration of the loop over the pixels. *)
Definition pixelStep (palette : list Z) (d : list Z) (i : nat) : list Z :=
  let r := readNum d (i + CHANNEL_R) in
  let g := readNum d (i + CHANNEL_G) in
  let b := readNum d (i + CHANNEL_B) in
  let a := d !! (i + CHANNEL_A)%nat in
  if decide (a = Some TRANSPARENT_ALPHA) then d
  else
    let bestIndex := fst (scanPalette palette r g b) in
    let d := <[(i + CHANNEL_R)%nat := storeByte (palette !! (bestIndex + CHANNEL_R)%nat)]> d in
    let d := <[(i + CHANNEL_G)%nat := storeByte (palette !! (bestIndex + CHANNEL_G)%nat)]> d in
    let d := <[(i + CHANNEL_B)%nat := storeByte (palette !! (bestIndex + CHANNEL_B)%nat)]> d in
    <[(i + CHANNEL_A)%nat := storeByte (palette !! (bestIndex + CHANNEL_A)%nat)]> d.

(** The image is mutated in place; the embedding returns its final data. *)
Definition mapImageDataToPaletteClassic (img : ImageData) (palette : list Z) : ImageData :=
  let d := data img in
  let paletteLen := length palette in
  if (paletteLen <? RGBA_STRIDE)%nat then img
  else
    mkImageData (width img) (height img)
      (fold_left (pixelStep palette) (strideIndices (length d)) d).

(** *** Vocabulary of the properties *)

(** Entry [j] is the first entry, among the first [n], nearest to [px]. *)
Definition firstNearest (palette : list Z) (px : Z * Z * Z * Z) (n j : nat)
    (e : Z * Z * Z * Z) : Prop :=
  (j < n)%nat
  /\ pixelAt palette j = Some e
  /\ (forall j' e', (j' < n)%nat -> pixelAt palette j' = Some e' -> dist2 px e <= dist2 px e')
  /\ (forall j' e', (j' < j)%nat -> pixelAt palette j' = Some e' -> dist2 px e < dist2 px e').

End Classic.

(** ** pixelate.worker.ts: CIELAB conversion and the CIEDE2000 distance *)

Module Lab.

Local Open Scope R_scope.

(** [x ** y] and [Math.cbrt], [Math.hypot], [Math.sign], [Math.atan2] on
    real numbers. *)
Definition cbrt (t : R) : R :=
  if Rlt_dec 0 t then Rpower t (1 / 3)
  else if Rlt_dec t 0 then - Rpower (- t) (1 / 3)
  else 0.

Definition hypot (x y : R) : R := sqrt (x * x + y * y).

Definition sign (x : R) : R :=
  if Rlt_dec 0 x then 1 else if Rlt_dec x 0 then -1 else 0.

Definition atan2 (y x : R) : R :=
  if Rlt_dec 0 x then atan (y / x)
  else if Rlt_dec x 0 then
    if Rle_dec 0 y then atan (y / x) + PI else atan (y / x) - PI
  else if Rlt_dec 0 y then PI / 2
  else if Rlt_dec y 0 then - (PI / 2)
  else 0.

Definition srgbToLinearComponent (c : R) : R :=
  let cs := c / 255 in
  if Rle_dec cs 0.04045 then cs / 12.92
  else Rpower ((cs + 0.055) / 1.055) 2.4.

Record Xyz : Type := mkXyz { x : R; y : R; z : R }.

Record LabColor : Type := mkLab { L : R; a : R; b : R }.

Definition rgbToXyz (r g b : R) : Xyz :=
  let rl := srgbToLinearComponent r in
  let gl := srgbToLinearComponent g in
  let bl := srgbToLinearComponent b in
  let x := 0.4124564 * rl + 0.3575761 * gl + 0.1804375 * bl in
  let y := 0.2126729 * rl + 0.7151522 * gl + 0.072175 * bl in
  let z := 0.0193339 * rl + 0.119192 * gl + 0.9503041 * bl in
  mkXyz x y z.

Definition xyzToLab (x y z : R) : LabColor :=
  let Xn := 0.95047 in
  let Yn := 1.0 in
  let Zn := 1.08883 in
  let d := 6 / 29 in
  let d3 := d * d * d in
  let f := fun t : R => if Rlt_dec d3 t then cbrt t else t / (3 * d * d) + 4 / 29 in
  let fx := f (x / Xn) in
  let fy := f (y / Yn) in
  let fz := f (z / Zn) in
  let L := 116 * fy - 16 in
  let a := 500 * (fx - fy) in
  let b := 200 * (fy - fz) in
  mkLab L a b.

Definition rgbToLab (r g b : R) : LabColor :=
  let xyz := rgbToXyz r g b in
  xyzToLab (x xyz) (y xyz) (z xyz).

Definition hueAngle (a b : R) : R := atan2 b a.

Definition deltaHue (a1 b1 a2 b2 : R) : R :=
  let h1 := hueAngle a1 b1 in
  let h2 := hueAngle a2 b2 in
  let dh := h1 - h2 in
  let dh := if Rlt_dec PI dh then dh - 2 * PI else dh in
  let dh := if Rlt_dec dh (- PI) then dh + 2 * PI else dh in
  Rabs dh.

(** CIEDE2000 with [kL = kC = kH = 1]. *)
Definition deltaE00 (L1 a1 b1 L2 a2 b2 : R) : R :=
  let avgLp := (L1 + L2) / 2 in
  let C1 := hypot a1 b1 in
  let C2 := hypot a2 b2 in
  let avgC := (C1 + C2) / 2 in
  let G := 0.5 * (1 - sqrt (avgC ^ 7 / (avgC ^ 7 + 25 ^ 7))) in
  let a1p := (1 + G) * a1 in
  let a2p := (1 + G) * a2 in
  let C1p := hypot a1p b1 in
  let C2p := hypot a2p b2 in
  let avgCp := (C1p + C2p) / 2 in
  let h1p := if Rlt_dec (atan2 b1 a1p) 0 then atan2 b1 a1p + 2 * PI else atan2 b1 a1p in
  let h2p := if Rlt_dec (atan2 b2 a2p) 0 then atan2 b2 a2p + 2 * PI else atan2 b2 a2p in
  let dhp := h2p - h1p in
  let dhp := if Rlt_dec PI (Rabs dhp) then dhp - sign dhp * 2 * PI else dhp in
  let dHp := 2 * sqrt (C1p * C2p) * sin (dhp / 2) in
  let dLp := L2 - L1 in
  let dCp := C2p - C1p in
  let avgHp := h1p + h2p in
  let avgHp := if Rlt_dec PI (Rabs (h1p - h2p)) then avgHp + 2 * PI else avgHp in
  let avgHp := avgHp / 2 in
  let T :=
    1
    - 0.17 * cos (avgHp - PI / 6)
    + 0.24 * cos (2 * avgHp)
    + 0.32 * cos (3 * avgHp + PI / 30)
    - 0.2 * cos (4 * avgHp - (63 * PI) / 180) in
  let Sl := 1 + (0.015 * (avgLp - 50) ^ 2) / sqrt (20 + (avgLp - 50) ^ 2) in
  let Sc := 1 + 0.045 * avgCp in
  let Sh := 1 + 0.015 * avgCp * T in
  let dTheta := (30 * PI) / 180 * exp (- (((180 / PI * avgHp - 275) / 25) ^ 2)) in
  let Rc := 2 * sqrt (avgCp ^ 7 / (avgCp ^ 7 + 25 ^ 7)) in
  let Rt := - Rc * sin (2 * dTheta) in
  let kl := 1 in
  let kc := 1 in
  let kh := 1 in
  let termL := dLp / (kl * Sl) in
  let termC := dCp / (kc * Sc) in
  let termH := dHp / (kh * Sh) in
  let dE := sqrt (termL * termL + termC * termC + termH * termH + Rt * termC * termH) in
  dE.

(** The part of [deltaE00] after the primed chroma and hue of the two
    colours are known (from [dhp] to the end). *)
Definition deltaE00Tail (L1 C1p h1p L2 C2p h2p : R) : R :=
  let avgLp := (L1 + L2) / 2 in
  let avgCp := (C1p + C2p) / 2 in
  let dhp := h2p - h1p in
  let dhp := if Rlt_dec PI (Rabs dhp) then dhp - sign dhp * 2 * PI else dhp in
  let dHp := 2 * sqrt (C1p * C2p) * sin (dhp / 2) in
  let dLp := L2 - L1 in
  let dCp := C2p - C1p in
  let avgHp := h1p + h2p in
  let avgHp := if Rlt_dec PI (Rabs (h1p - h2p)) then avgHp + 2 * PI else avgHp in
  let avgHp := avgHp / 2 in
  let T :=
    1
    - 0.17 * cos (avgHp - PI / 6)
    + 0.24 * cos (2 * avgHp)
    + 0.32 * cos (3 * avgHp + PI / 30)
    - 0.2 * cos (4 * avgHp - (63 * PI) / 180) in
  let Sl := 1 + (0.015 * (avgLp - 50) ^ 2) / sqrt (20 + (avgLp - 50) ^ 2) in
  let Sc := 1 + 0.045 * avgCp in
  let Sh := 1 + 0.015 * avgCp * T in
  let dTheta := (30 * PI) / 180 * exp (- (((180 / PI * avgHp - 275) / 25) ^ 2)) in
  let Rc := 2 * sqrt (avgCp ^ 7 / (avgCp ^ 7 + 25 ^ 7)) in
  let Rt := - Rc * sin (2 * dTheta) in
  let termL := dLp / (1 * Sl) in
  let termC := dCp / (1 * Sc) in
  let termH := dHp / (1 * Sh) in
  sqrt (termL * termL + termC * termC + termH * termH + Rt * termC * termH).

(** The hue angle in [0, 2 PI) that [deltaE00] computes for each colour. *)
Definition huePrime (b ap : R) : R :=
  if Rlt_dec (atan2 b ap) 0 then atan2 b ap + 2 * PI else atan2 b ap.

(** The factor [G] of [deltaE00]. *)
Definition chromaG (a1 b1 a2 b2 : R) : R :=
  let avgC := (hypot a1 b1 + hypot a2 b2) / 2 in
  0.5 * (1 - sqrt (avgC ^ 7 / (avgC ^ 7 + 25 ^ 7))).

End Lab.

(** ** pixelate.worker.ts: the perceptual colour mapper *)

Module PaletteLab.

Record t : Type := mk {
  L : R;
  a : R;
  b : R;
  C : R;
  hue : R;
  r : Z;
  g : Z;
  b8 : Z;
  a8 : Z
}.

End PaletteLab.

Module Perceptual.

Import Js Image Lab.
Local Open Scope R_scope.

Definition TAU_L_LAB : R := 3.0.
Definition TAU_C_LAB : R := 3.0.
Definition LAMBDA_L : R := 0.7.
Definition LAMBDA_C : R := 0.7.
Definition LAMBDA_H : R := 0.3.
Definition HUE_SIGMA_SCALE_LAB : R := 5.0.
Definition C_NEUTRAL_GATE : R := 3.0.
Definition C_NEUTRAL_BIAS : R := 6.0.
Definition KAPPA_NEUTRAL : R := 0.15.
Definition K_SHORTLIST : nat := 8.

(** Reads that the source performs inside the bounds of its arrays (the
    [ImageData] invariant, a palette whose length is a multiple of four,
    arrays allocated with the size the loops run over). *)
Definition byteAt (d : list Z) (i : nat) : Z := default 0%Z (d !! i).
Definition realAt (arr : list R) (i : nat) : R := default 0 (arr !! i).

(** Comparisons and sums in which one side may be [Infinity]. *)
Definition xgt (s w : ext R) : bool :=
  match s, w with
  | PosInf, PosInf => false
  | PosInf, Finite _ => true
  | Finite _, PosInf => false
  | Finite u, Finite v => if Rlt_dec v u then true else false
  end.

Definition xlt (s w : ext R) : bool := xgt w s.

Definition xadd (s : ext R) (v : R) : ext R :=
  match s with
  | PosInf => PosInf
  | Finite u => Finite (u + v)
  end.

(** *** The CIELAB copy of the image *)

(** The three [Float32Array]s; each holds float32 numbers. *)
Record LabArrays : Type := mkLabArrays {
  Larr : list R;
  Aarr : list R;
  Barr : list R
}.

Section Stored.

Context `{Float32}.

(** The body of the loop over [x] of the precomputation; the 0 of a fully
    transparent pixel is a float32. *)
Definition labStep (d : list Z) (width : nat) (y : nat) (arrs : LabArrays) (x : nat)
  : LabArrays :=
  let idx := (y * width + x)%nat in
  let i := (idx * RGBA_STRIDE)%nat in
  let a8 := byteAt d (i + CHANNEL_A) in
  if (a8 =? TRANSPARENT_ALPHA)%Z then
    mkLabArrays (<[idx := 0]> (Larr arrs)) (<[idx := 0]> (Aarr arrs)) (<[idx := 0]> (Barr arrs))
  else
    let r := byteAt d (i + CHANNEL_R) in
    let g := byteAt d (i + CHANNEL_G) in
    let b := byteAt d (i + CHANNEL_B) in
    let lab := rgbToLab (IZR r) (IZR g) (IZR b) in
    mkLabArrays (<[idx := fround (Lab.L lab)]> (Larr arrs))
      (<[idx := fround (Lab.a lab)]> (Aarr arrs))
      (<[idx := fround (Lab.b lab)]> (Barr arrs)).

Definition labArrays (d : list Z) (width height : nat) : LabArrays :=
  let numPixels := (width * height)%nat in
  fold_left
    (fun arrs y => fold_left (labStep d width y) (seq 0 width) arrs)
    (seq 0 height)
    (mkLabArrays (replicate numPixels 0) (replicate numPixels 0) (replicate numPixels 0)).

(** *** The palette in CIELAB *)

Definition paletteEntry (palette : list Z) (p : nat) : PaletteLab.t :=
  let pr := byteAt palette (p + CHANNEL_R) in
  let pg := byteAt palette (p + CHANNEL_G) in
  let pb := byteAt palette (p + CHANNEL_B) in
  let pa := byteAt palette (p + CHANNEL_A) in
  let lab := rgbToLab (IZR pr) (IZR pg) (IZR pb) in
  let C := hypot (Lab.a lab) (Lab.b lab) in
  PaletteLab.mk (Lab.L lab) (Lab.a lab) (Lab.b lab) C (hueAngle (Lab.a lab) (Lab.b lab))
    pr pg pb pa.

(** [pal], for a palette whose length is a multiple of four: entry [pi] is
    made from the bytes at [4 * pi]. *)
Definition paletteLab (palette : list Z) : list PaletteLab.t :=
  map (paletteEntry palette) (strideIndices (length palette)).

(** *** The hue-stability weight *)

Record Sums : Type := mkSums {
  sumA : R;
  sumB : R;
  sumAA : R;
  sumBB : R;
  count : nat
}.

Definition hueSumsCol (arrs : LabArrays) (width : nat) (x : Z) (yy : Z) (s : Sums) (dx : Z)
  : Sums :=
  let xx := (x + dx)%Z in
  if ((xx <? 0)%Z || (xx >=? Z.of_nat width)%Z)%bool then s
  else
    let idn := Z.to_nat (yy * Z.of_nat width + xx) in
    let a := realAt (Aarr arrs) idn in
    let b := realAt (Barr arrs) idn in
    mkSums (sumA s + a) (sumB s + b) (sumAA s + a * a) (sumBB s + b * b) (S (count s)).

Definition hueSumsRow (arrs : LabArrays) (width height : nat) (x y : Z) (s : Sums) (dy : Z)
  : Sums :=
  let yy := (y + dy)%Z in
  if ((yy <? 0)%Z || (yy >=? Z.of_nat height)%Z)%bool then s
  else fold_left (hueSumsCol arrs width x yy) [-1; 0; 1]%Z s.

Definition hueSums (arrs : LabArrays) (width height : nat) (x y : Z) : Sums :=
  fold_left (hueSumsRow arrs width height x y) [-1; 0; 1]%Z (mkSums 0 0 0 0 0).

Definition hueWeightAt (arrs : LabArrays) (width height : nat) (x y : Z) : R :=
  let s := hueSums arrs width height x y in
  if (count s =? 0)%nat then 0
  else
    let meanA := sumA s / INR (count s) in
    let meanB := sumB s / INR (count s) in
    let varA := Rmax 0 (sumAA s / INR (count s) - meanA * meanA) in
    let varB := Rmax 0 (sumBB s / INR (count s) - meanB * meanB) in
    let sigma := sqrt (varA + varB) in
    let w := 1 - Rmin 1 (sigma / HUE_SIGMA_SCALE_LAB) in
    w.

(** *** First pass: the shortlist of the [K_SHORTLIST] nearest entries *)

(** [topIdx] is an [Int16Array] and [topScore] a [Float32Array]. *)
Record Shortlist : Type := mkShortlist {
  topIdx : list Z;
  topScore : list (ext R)
}.

Definition scoreAt (topScore : list (ext R)) (k : nat) : ext R :=
  default PosInf (topScore !! k).
Definition idxAt (topIdx : list Z) (k : nat) : Z := default (-1)%Z (topIdx !! k).

Definition emptyShortlist : Shortlist :=
  mkShortlist (replicate K_SHORTLIST (-1)%Z) (replicate K_SHORTLIST PosInf).

(** The search of the worst slot, on [(worstK, worstVal)]. *)
Definition worstStep (topScore : list (ext R)) (w : nat * ext R) (k : nat) : nat * ext R :=
  if xgt (scoreAt topScore k) (snd w) then (k, scoreAt topScore k) else w.

Definition worstSlot (topScore : list (ext R)) : nat * ext R :=
  fold_left (worstStep topScore) (seq 0 K_SHORTLIST) (0%nat, Finite (-1)).

Definition palAt (pal : list PaletteLab.t) (pi : nat) : PaletteLab.t :=
  default (PaletteLab.mk 0 0 0 0 0 0 0 0 0) (pal !! pi).

(** The body of the loop over the palette: the distance is compared as it
    is computed and stored as a float32. *)
Definition shortlistStep (pal : list PaletteLab.t) (Lr ar br : R) (sl : Shortlist) (pi : nat)
  : Shortlist :=
  let pcol := palAt pal pi in
  let base := deltaE00 Lr ar br (PaletteLab.L pcol) (PaletteLab.a pcol) (PaletteLab.b pcol) in
  let '(worstK, worstVal) := worstSlot (topScore sl) in
  if xlt (Finite base) worstVal then
    mkShortlist (<[worstK := toInt16 (Z.of_nat pi)]> (topIdx sl))
                (<[worstK := Finite (fround base)]> (topScore sl))
  else sl.

Definition shortlist (pal : list PaletteLab.t) (Lr ar br : R) : Shortlist :=
  fold_left (shortlistStep pal Lr ar br) (seq 0 (length pal)) emptyShortlist.

(** *** Second pass: penalties on the shortlisted entries *)

Definition adjustedCost (Lr ar br Cr hWeight : R) (pcol : PaletteLab.t) (base : ext R)
  : ext R :=
  let dL := Rabs (Lr - PaletteLab.L pcol) in
  let Lpen := LAMBDA_L * Rmax 0 (dL - TAU_L_LAB) in
  let dC := Rabs (Cr - PaletteLab.C pcol) in
  let Cpen := LAMBDA_C * Rmax 0 (dC - TAU_C_LAB) in
  let Hpen :=
    if Rle_dec C_NEUTRAL_GATE Cr then
      let dh := deltaHue ar br (PaletteLab.a pcol) (PaletteLab.b pcol) in
      LAMBDA_H * hWeight * (1 - cos dh)
    else 0 in
  let neutralBias :=
    if Rlt_dec Cr C_NEUTRAL_BIAS then KAPPA_NEUTRAL * PaletteLab.C pcol else 0 in
  xadd (xadd (xadd (xadd base Lpen) Cpen) Hpen) neutralBias.

(** The body of the loop over the slots, on [(bestPi, bestCost)]. *)
Definition refineStep (pal : list PaletteLab.t) (Lr ar br Cr hWeight : R) (sl : Shortlist)
    (best : Z * ext R) (k : nat) : Z * ext R :=
  let pi := idxAt (topIdx sl) k in
  if (pi <? 0)%Z then best
  else
    let pcol := palAt pal (Z.to_nat pi) in
    let base := scoreAt (topScore sl) k in
    let cost := adjustedCost Lr ar br Cr hWeight pcol base in
    if xlt cost (snd best) then (pi, cost) else best.

Definition refine (pal : list PaletteLab.t) (Lr ar br Cr hWeight : R) (sl : Shortlist)
  : Z * ext R :=
  let bestPi := if (idxAt (topIdx sl) 0 >=? 0)%Z then idxAt (topIdx sl) 0 else 0%Z in
  fold_left (refineStep pal Lr ar br Cr hWeight sl) (seq 0 K_SHORTLIST) (bestPi, PosInf).

(** *** The main loop *)

(** The palette entry chosen for the pixel at [(x, y)]. *)
Definition bestEntry (arrs : LabArrays) (pal : list PaletteLab.t) (width height : nat)
    (x y : nat) : PaletteLab.t :=
  let idx := (y * width + x)%nat in
  let Lr := realAt (Larr arrs) idx in
  let ar := realAt (Aarr arrs) idx in
  let br := realAt (Barr arrs) idx in
  let Cr := hypot ar br in
  let hWeight := hueWeightAt arrs width height (Z.of_nat x) (Z.of_nat y) in
  let sl := shortlist pal Lr ar br in
  let bestPi := fst (refine pal Lr ar br Cr hWeight sl) in
  palAt pal (Z.to_nat bestPi).

(** The body of the loop over [x] of the main mapping. *)
Definition mapStep (arrs : LabArrays) (pal : list PaletteLab.t) (width height : nat)
    (y : nat) (d : list Z) (x : nat) : list Z :=
  let idx := (y * width + x)%nat in
  let i := (idx * RGBA_STRIDE)%nat in
  let a8 := byteAt d (i + CHANNEL_A) in
  if (a8 =? TRANSPARENT_ALPHA)%Z then d
  else
    let best := bestEntry arrs pal width height x y in
    let d := <[(i + CHANNEL_R)%nat := storeByte (Some (PaletteLab.r best))]> d in
    let d := <[(i + CHANNEL_G)%nat := storeByte (Some (PaletteLab.g best))]> d in
    let d := <[(i + CHANNEL_B)%nat := storeByte (Some (PaletteLab.b8 best))]> d in
    <[(i + CHANNEL_A)%nat := storeByte (Some (PaletteLab.a8 best))]> d.

(** The image is mutated in place; the embedding returns its final data, or
    [None] when the source throws: [pal.length = paletteLen / RGBA_STRIDE]
    is a [RangeError] for a length that is not a multiple of four, raised
    before any pixel is written. *)
Definition mapImageDataToPalette (img : ImageData) (palette : list Z) : option ImageData :=
  let d := data img in
  let paletteLen := length palette in
  if (paletteLen <? RGBA_STRIDE)%nat then Some img
  else
    let width := width img in
    let height := height img in
    let arrs := labArrays d width height in
    if negb (paletteLen mod RGBA_STRIDE =? 0)%nat then None
    else
      let pal := paletteLab palette in
      Some (mkImageData width height
        (fold_left
           (fun d y => fold_left (mapStep arrs pal width height y) (seq 0 width) d)
           (seq 0 height) d)).

(** *** Vocabulary of the properties *)

(** The CIELAB triple the precomputation stores for pixel [idx]. *)
Definition pixelLab (d : list Z) (idx : nat) : LabColor :=
  if (byteAt d (idx * 4 + 3) =? 0)%Z then mkLab 0 0 0
  else
    let lab := rgbToLab (IZR (byteAt d (idx * 4 + 0))) (IZR (byteAt d (idx * 4 + 1)))
                 (IZR (byteAt d (idx * 4 + 2))) in
    mkLab (fround (Lab.L lab)) (fround (Lab.a lab)) (fround (Lab.b lab)).

(** The pixels of the 3 x 3 window around [(x, y)] that lie inside the
    image, whatever their alpha. *)
Definition neighbours (width height : nat) (x y : Z) : list nat :=
  flat_map
    (fun dy =>
       let yy := (y + dy)%Z in
       if ((0 <=? yy)%Z && (yy <? Z.of_nat height)%Z)%bool then
         flat_map
           (fun dx =>
              let xx := (x + dx)%Z in
              if ((0 <=? xx)%Z && (xx <? Z.of_nat width)%Z)%bool
              then [Z.to_nat (yy * Z.of_nat width + xx)] else [])
           [-1; 0; 1]%Z
       else [])
    [-1; 0; 1]%Z.

(** One more sample in the sums of the hue weight. *)
Definition addSample (arrs : LabArrays) (s : Sums) (n : nat) : Sums :=
  mkSums (sumA s + realAt (Aarr arrs) n) (sumB s + realAt (Barr arrs) n)
    (sumAA s + realAt (Aarr arrs) n * realAt (Aarr arrs) n)
    (sumBB s + realAt (Barr arrs) n * realAt (Barr arrs) n) (S (count s)).

(** The adjusted cost in the words of the specification. *)
Definition specCost (Lr ar br hueWeight : R) (pcol : PaletteLab.t) : R :=
  let Cr := hypot ar br in
  deltaE00 Lr ar br (PaletteLab.L pcol) (PaletteLab.a pcol) (PaletteLab.b pcol)
  + 0.7 * Rmax 0 (Rabs (Lr - PaletteLab.L pcol) - 3.0)
  + 0.7 * Rmax 0 (Rabs (Cr - PaletteLab.C pcol) - 3.0)
  + (if Rle_dec 3.0 Cr
     then 0.3 * hueWeight * (1 - cos (deltaHue ar br (PaletteLab.a pcol) (PaletteLab.b pcol)))
     else 0)
  + (if Rlt_dec Cr 6.0 then 0.15 * PaletteLab.C pcol else 0).

(** The adjusted cost as the refinement pass computes it: from the raw
    distance as the shortlist stores it. *)
Definition storedCost (Lr ar br hueWeight : R) (pcol : PaletteLab.t) : R :=
  let Cr := hypot ar br in
  fround (deltaE00 Lr ar br (PaletteLab.L pcol) (PaletteLab.a pcol) (PaletteLab.b pcol))
  + 0.7 * Rmax 0 (Rabs (Lr - PaletteLab.L pcol) - 3.0)
  + 0.7 * Rmax 0 (Rabs (Cr - PaletteLab.C pcol) - 3.0)
  + (if Rle_dec 3.0 Cr
     then 0.3 * hueWeight * (1 - cos (deltaHue ar br (PaletteLab.a pcol) (PaletteLab.b pcol)))
     else 0)
  + (if Rlt_dec Cr 6.0 then 0.15 * PaletteLab.C pcol else 0).

End Stored.

End Perceptual.

(** ** Invariants of the loops of the perceptual mapper *)

Module Invariants.

Import Js Image Lab Perceptual.
Local Open Scope nat_scope.

(** *** The two nested loops over [y] and [x] *)

Section NestedLoops.

Context {St : Type} (f : nat -> St -> nat -> St) (w h : nat).

Definition rows (s : St) : St :=
  fold_left (fun s y => fold_left (f y) (seq 0 w) s) (seq 0 h) s.

End NestedLoops.

(** *** The CIELAB copy of the image *)

Definition labLengths (n : nat) (arrs : LabArrays) : Prop :=
  length (Larr arrs) = n /\ length (Aarr arrs) = n /\ length (Barr arrs) = n.

Definition labValueAt (idx : nat) (lab : LabColor) (arrs : LabArrays) : Prop :=
  Larr arrs !! idx = Some (Lab.L lab) /\ Aarr arrs !! idx = Some (Lab.a lab)
  /\ Barr arrs !! idx = Some (Lab.b lab).

(** *** The shortlist *)

Section Shortlist.

Context `{Float32}.
Variables (pal : list PaletteLab.t) (Lr ar br : R).

(** The raw distance between the pixel and palette entry [pi]. *)
Definition baseOf (pi : nat) : R :=
  deltaE00 Lr ar br (PaletteLab.L (palAt pal pi)) (PaletteLab.a (palAt pal pi))
    (PaletteLab.b (palAt pal pi)).

Definition slotEmpty (sl : Shortlist) (k : nat) : Prop :=
  idxAt (topIdx sl) k = (-1)%Z /\ scoreAt (topScore sl) k = PosInf.

(** Slot [k] holds one of the first [n] entries, with its raw distance as
    a float32. *)
Definition slotFilled (n : nat) (sl : Shortlist) (k : nat) : Prop :=
  exists pi, pi < n
    /\ idxAt (topIdx sl) k = toInt16 (Z.of_nat pi)
    /\ scoreAt (topScore sl) k = Finite (fround (baseOf pi)).

Definition shortlistInv (n : nat) (sl : Shortlist) : Prop :=
  length (topIdx sl) = K_SHORTLIST /\ length (topScore sl) = K_SHORTLIST
  /\ (forall k, k < K_SHORTLIST -> slotEmpty sl k \/ slotFilled n sl k)
  /\ slotFilled n sl 0.

End Shortlist.

(** *** Palettes that fit in the shortlist *)

Section Small.

Context `{Float32}.
Variables (pal : list PaletteLab.t) (Lr ar br : R).

(** After [n <= K_SHORTLIST] entries, slot [k < n] holds entry [k] and the
    other slots are empty. *)
Definition smallInv (n : nat) (sl : Shortlist) : Prop :=
  length (topIdx sl) = K_SHORTLIST /\ length (topScore sl) = K_SHORTLIST
  /\ (forall k, k < n ->
        idxAt (topIdx sl) k = Z.of_nat k
        /\ scoreAt (topScore sl) k = Finite (fround (baseOf pal Lr ar br k)))
  /\ (forall k, n <= k ->
        idxAt (topIdx sl) k = (-1)%Z /\ scoreAt (topScore sl) k = PosInf).

End Small.

(** *** The shortlist holds nearest entries *)

Section Nearest.

Context `{Float32}.
Variables (pal : list PaletteLab.t) (Lr ar br : R).

(** A score is [Infinity] or a distance that is a float32. *)
Definition scoreOk (s : ext R) : Prop :=
  match s with
  | PosInf => True
  | Finite v => (0 <= v)%R /\ fround v = v
  end.

(** Entry [pi] is in slot [k] of the shortlist. *)
Definition inSlot (sl : Shortlist) (pi k : nat) : Prop :=
  k < K_SHORTLIST /\ idxAt (topIdx sl) k = toInt16 (Z.of_nat pi)
  /\ scoreAt (topScore sl) k = Finite (fround (baseOf pal Lr ar br pi)).

(** Every slot holds a score that is no larger than the float32 of the
    distance of entry [pi]. *)
Definition allNearer (sl : Shortlist) (pi : nat) : Prop :=
  forall k, k < K_SHORTLIST ->
    exists s, scoreAt (topScore sl) k = Finite s
              /\ (s <= fround (baseOf pal Lr ar br pi))%R.

(** Each of the first [n] entries is in a slot or no nearer than every slot. *)
Definition nearestInv (n : nat) (sl : Shortlist) : Prop :=
  length (topIdx sl) = K_SHORTLIST /\ length (topScore sl) = K_SHORTLIST
  /\ (forall k, scoreOk (scoreAt (topScore sl) k))
  /\ forall pi, pi < n -> (exists k, inSlot sl pi k) \/ allNearer sl pi.

End Nearest.

(** *** The refinement pass *)

Section Refine.

Variables (pal : list PaletteLab.t) (Lr ar br Cr hWeight : R) (sl : Shortlist).

Definition slotCost (k : nat) : ext R :=
  adjustedCost Lr ar br Cr hWeight (palAt pal (Z.to_nat (idxAt (topIdx sl) k)))
    (scoreAt (topScore sl) k).

(** After the first [n] slots, [best] is the first slot of least cost among
    those that hold an entry. *)
Definition refineInv (n : nat) (best : Z * ext R) : Prop :=
  exists kb, kb < n
    /\ (0 <= idxAt (topIdx sl) kb)%Z
    /\ best = (idxAt (topIdx sl) kb, slotCost kb)
    /\ forall k, k < n -> (0 <= idxAt (topIdx sl) k)%Z ->
         xlt (slotCost k) (slotCost kb) = false.

End Refine.

End Invariants.

(** ** Colours, palettes and images of the examples *)

Module Examples.

Import Js Image Lab Perceptual Invariants.
Local Open Scope R_scope.

(** The CIELAB coordinates of a colour whose channels are all on the linear
    part of the sRGB curve. *)
Definition darkLab (r g b : R) : LabColor :=
  mkLab
    (116 * ((0.2126729 * r + 0.7151522 * g + 0.072175 * b) / 3294.6 / (108 / 841))
     + 116 * (4 / 29) - 16)
    (500 * (((0.4124564 * r + 0.3575761 * g + 0.1804375 * b) / 3294.6 / 0.95047
             - (0.2126729 * r + 0.7151522 * g + 0.072175 * b) / 3294.6) / (108 / 841)))
    (200 * (((0.2126729 * r + 0.7151522 * g + 0.072175 * b) / 3294.6
             - (0.0193339 * r + 0.119192 * g + 0.9503041 * b) / 3294.6 / 1.08883)
            / (108 / 841))).

(** The lightness and chroma terms of the distance. *)
Definition lightnessTerm (L1 L2 : R) : R :=
  (L2 - L1)
  / (1 * (1 + 0.015 * ((L1 + L2) / 2 - 50) ^ 2 / sqrt (20 + ((L1 + L2) / 2 - 50) ^ 2))).

Definition chromaTerm (C1p C2p : R) : R :=
  (C2p - C1p) / (1 * (1 + 0.045 * ((C1p + C2p) / 2))).

(** The pixel (10, 3, 9), the grey (5, 5, 5) and black, in CIELAB. *)
Definition labP : LabColor := darkLab 10 3 9.
Definition labGrey : LabColor := darkLab 5 5 5.
Definition labBlack : LabColor := darkLab 0 0 0.

(** The intervals in which the CIELAB coordinates of the pixel and of the
    grey lie. *)
Definition nearP (LP aP bP : R) : Prop :=
  1.3494 <= LP <= 1.3495 /\ 2.6648 <= aP <= 2.6649 /\ -1.6258 <= bP <= -1.6257.

Definition nearGrey (Lg ag bg : R) : Prop :=
  1.3708 <= Lg <= 1.3709 /\ -0.000000591 <= ag <= -0.000000590
  /\ 0.000000236 <= bg <= 0.000000237.

(** A palette of the grey and black, and a pixel with a red neighbour,
    opaque or fully transparent. *)
Definition palette2 : list Z := [5; 5; 5; 255; 0; 0; 0; 255]%Z.
Definition opaqueNeighbour : ImageData :=
  mkImageData 2 1 [10; 3; 9; 255; 255; 0; 0; 255]%Z.
Definition transparentNeighbour : ImageData :=
  mkImageData 2 1 [10; 3; 9; 255; 255; 0; 0; 0]%Z.

Definition entryGrey : PaletteLab.t := paletteEntry palette2 0.
Definition entryBlack : PaletteLab.t := paletteEntry palette2 4.

(** The shortlist once [j] slots hold entries at distance [d]. *)
Definition filled (d : R) (j : nat) : Shortlist :=
  mkShortlist (map Z.of_nat (seq 0 j) ++ replicate (K_SHORTLIST - j) (-1)%Z)
    (replicate j (Finite d) ++ replicate (K_SHORTLIST - j) PosInf).

(** The full shortlist whose slots all hold the distance [d], the first
    under the index [i0] and the others under their own. *)
Definition headed (i0 : Z) (d : R) : Shortlist :=
  mkShortlist (i0 :: map Z.of_nat (seq 1 7)) (replicate K_SHORTLIST (Finite d)).

(** A palette of [n] times the grey, then black; with [n = 32768] the index
    of black is the first that an [Int16Array] does not hold. *)
Definition greys (n : nat) : list Z :=
  concat (replicate n [5; 5; 5; 255]%Z) ++ [0; 0; 0; 255]%Z.

Definition longPalette : list Z := greys (Z.to_nat 32768).

Definition blackPixel : ImageData := mkImageData 1 1 [0; 0; 0; 255]%Z.

(** The raw distance between black and the grey. *)
Definition greyDistance : R :=
  deltaE00 0 0 0 (PaletteLab.L entryGrey) (PaletteLab.a entryGrey) (PaletteLab.b entryGrey).

End Examples.

(** ** pixelate.worker.ts: the worker's state and message handlers *)

Module Worker.

Import Js Image Tiles.
Local Open Scope Z_scope.

(** The canvas API the worker draws with.  [drawImage source w h] is the
    pixel data of a fresh [w] x [h] [OffscreenCanvas] after [clearRect] and
    the smoothed [drawImage(source, 0, 0, w, h)]; [transferToImageBitmap]
    and [convertToBlob] take the size and the pixel data of the canvas. *)
Class Canvas : Type := {
  ImageBitmap : Type;
  Blob : Type;
  bitmapWidth : ImageBitmap -> Z;
  bitmapHeight : ImageBitmap -> Z;
  drawImage : ImageBitmap -> Z -> Z -> list Z;
  transferToImageBitmap : Z -> Z -> list Z -> ImageBitmap;
  convertToBlob : Z -> Z -> list Z -> Blob
}.

Section Handlers.

Context `{Canvas} `{Float32}.

Record PixelateProcessMessage : Type := mkProcess {
  jobId : Z;
  blockSize : Z;
  bitmap : option ImageBitmap;
  colorizeEnabled : option bool;
  advancedColorize : option bool;
  palette : option (list num)
}.

Inductive PixelateIncomingMessage : Type :=
| process (msg : PixelateProcessMessage)
| cancel (jobId : Z)
| generateBlob (jobId : Z).

Record Meta : Type := mkMeta {
  outWidth : Z;
  outHeight : Z;
  tilesX : Z;
  tilesY : Z;
  totalPixels : Z;
  metaBlockSize : Z
}.

Inductive Outgoing : Type :=
| result (jobId : Z) (bitmap : ImageBitmap) (meta : Meta)
| blob (jobId : Z) (blob : Blob).

(** The module-level variables of the worker. *)
Record State : Type := mkState {
  activeJobId : option Z;
  lastRenderedJobId : option Z;
  lastSourceBitmap : option ImageBitmap;
  lastBlockSize : option Z;
  lastPalette : option (list Z);
  lastColorizeEnabled : bool;
  lastAdvancedColorize : bool
}.

Definition initialState : State :=
  mkState None None None None None true true.

(** Lines 226-239 of [handleProcessMessage]: the request is recorded. *)
Definition storeRequest (st : State) (msg : PixelateProcessMessage) : State :=
  mkState
    (Some (jobId msg))
    (lastRenderedJobId st)
    (match bitmap msg with
     | Some b => Some b
     | None => lastSourceBitmap st
     end)
    (Some (blockSize msg))
    (match palette msg with
     | Some p =>
         if (RGBA_STRIDE <=? length p)%nat then Some (Uint8ClampedArray_from p) else None
     | None => None
     end)
    (default true (colorizeEnabled msg))
    (default true (advancedColorize msg)).

(** The optional palette colorization of both handlers; [None] when the
    perceptual mapper throws. *)
Definition colorize (st : State) (tilesX tilesY : Z) (pixels : list Z) : option (list Z) :=
  match lastPalette st with
  | Some lastPalette =>
      if (lastColorizeEnabled st && (RGBA_STRIDE <=? length lastPalette)%nat)%bool then
        let imgData := mkImageData (Z.to_nat tilesX) (Z.to_nat tilesY) pixels in
        if lastAdvancedColorize st then
          data <$> Perceptual.mapImageDataToPalette imgData lastPalette
        else Some (data (Classic.mapImageDataToPaletteClassic imgData lastPalette))
      else Some pixels
  | None => Some pixels
  end.

(** Lines 269-295 of [handleProcessMessage]: the staleness check and the
    emission of the result. *)
Definition finishProcess (st : State) (msg : PixelateProcessMessage) (tilesX tilesY : Z)
    (pixels : list Z) : State * list Outgoing :=
  if decide (activeJobId st <> Some (jobId msg)) then (st, [])
  else
    let resultBitmap := transferToImageBitmap tilesX tilesY pixels in
    let st :=
      mkState (activeJobId st) (Some (jobId msg)) (lastSourceBitmap st) (lastBlockSize st)
        (lastPalette st) (lastColorizeEnabled st) (lastAdvancedColorize st) in
    let meta := mkMeta tilesX tilesY tilesX tilesY (tilesX * tilesY) (blockSize msg) in
    (st, [result (jobId msg) resultBitmap meta]).

(** [octx] tells whether [getContext('2d')] gave a context.  With a block
    size of 0 the quotients of [computeTilesDimension] are [Infinity] or
    [NaN], on which [new OffscreenCanvas] throws a [TypeError]: the handler
    ends there. *)
Definition handleProcessMessage (octx : bool) (st : State) (msg : PixelateProcessMessage)
  : State * list Outgoing :=
  let st := storeRequest st msg in
  match lastSourceBitmap st with
  | None => (st, [])
  | Some source =>
      let width := bitmapWidth source in
      let height := bitmapHeight source in
      if blockSize msg =? 0 then (st, [])
      else
        let '(tilesX, tilesY) := computeTilesDimension width height (blockSize msg) in
        if negb octx then (st, [])
        else
          match colorize st tilesX tilesY (drawImage source tilesX tilesY) with
          | None => (st, [])
          | Some pixels => finishProcess st msg tilesX tilesY pixels
          end
  end.

Definition handleGenerateBlobMessage (octx : bool) (st : State) (jobId : Z)
  : State * list Outgoing :=
  match lastSourceBitmap st, lastBlockSize st with
  | Some src, Some lastBlockSize =>
      if decide (lastRenderedJobId st <> Some jobId) then (st, [])
      else
        let width := bitmapWidth src in
        let height := bitmapHeight src in
        if lastBlockSize =? 0 then (st, [])
        else
          let '(tilesX, tilesY) := computeTilesDimension width height lastBlockSize in
          if negb octx then (st, [])
          else
            match colorize st tilesX tilesY (drawImage src tilesX tilesY) with
            | None => (st, [])
            | Some pixels => (st, [blob jobId (convertToBlob tilesX tilesY pixels)])
            end
  | _, _ => (st, [])
  end.

Definition onmessage (octx : bool) (st : State) (data : PixelateIncomingMessage)
  : State * list Outgoing :=
  match data with
  | cancel jobId =>
      if decide (activeJobId st = Some jobId)
      then (mkState None (lastRenderedJobId st) (lastSourceBitmap st) (lastBlockSize st)
              (lastPalette st) (lastColorizeEnabled st) (lastAdvancedColorize st), [])
      else (st, [])
  | process msg => handleProcessMessage octx st msg
  | generateBlob jobId => handleGenerateBlobMessage octx st jobId
  end.

(** The worker handling a sequence of messages one at a time; the posted
    messages are collected in order. *)
Fixpoint run (st : State) (events : list (bool * PixelateIncomingMessage))
  : State * list Outgoing :=
  match events with
  | [] => (st, [])
  | (octx, data) :: events' =>
      let '(st1, out1) := onmessage octx st data in
      let '(st2, out2) := run st1 events' in
      (st2, out1 ++ out2)
  end.

(** The message [startProcess] of the route posts; [nextJob] is
    [Number(Date.now())], and [colorizeEnabled] and [paletteArray] are the
    route's state and its flattened palette. *)
Definition startProcessMessage (nextJob newBlockSize : Z) (source : ImageBitmap)
    (includeBitmap colorizeEnabled : bool) (paletteArray : list num)
  : PixelateProcessMessage :=
  let enableColorize :=
    (colorizeEnabled && (Route.RGBA_STRIDE <=? length paletteArray)%nat)%bool in
  mkProcess nextJob newBlockSize (if includeBitmap then Some source else None)
    (Some enableColorize) None (Some paletteArray).

(** *** Vocabulary of the properties *)

(** The session fields of the specification. *)
Definition sessionFields (st : State)
  : option ImageBitmap * option Z * option (list Z) * bool * option Z :=
  (lastSourceBitmap st, lastBlockSize st, lastPalette st, lastColorizeEnabled st,
   lastRenderedJobId st).

(** The number of results posted for job [j], and of requests for it. *)
Definition isResultFor (j : Z) (m : Outgoing) : bool :=
  match m with
  | result j' _ _ => bool_decide (j' = j)
  | blob _ _ => false
  end.

Definition isProcessFor (j : Z) (e : bool * PixelateIncomingMessage) : bool :=
  match snd e with
  | process msg => bool_decide (jobId msg = j)
  | _ => false
  end.

(** What a process request does, by cases on where the handler returns. *)
Inductive ProcessOutcome (octx : bool) (st : State) (msg : PixelateProcessMessage)
  : State * list Outgoing -> Prop :=
| AbortedNoSource :
    lastSourceBitmap (storeRequest st msg) = None ->
    ProcessOutcome octx st msg (storeRequest st msg, [])
| AbortedNoCanvas source :
    lastSourceBitmap (storeRequest st msg) = Some source ->
    blockSize msg = 0 ->
    ProcessOutcome octx st msg (storeRequest st msg, [])
| AbortedNoContext source :
    lastSourceBitmap (storeRequest st msg) = Some source ->
    octx = false ->
    ProcessOutcome octx st msg (storeRequest st msg, [])
| AbortedByThrow source tx ty :
    lastSourceBitmap (storeRequest st msg) = Some source ->
    computeTilesDimension (bitmapWidth source) (bitmapHeight source) (blockSize msg) = (tx, ty) ->
    colorize (storeRequest st msg) tx ty (drawImage source tx ty) = None ->
    ProcessOutcome octx st msg (storeRequest st msg, [])
| Emitted source tx ty pixels :
    lastSourceBitmap (storeRequest st msg) = Some source ->
    blockSize msg <> 0 ->
    octx = true ->
    computeTilesDimension (bitmapWidth source) (bitmapHeight source) (blockSize msg) = (tx, ty) ->
    colorize (storeRequest st msg) tx ty (drawImage source tx ty) = Some pixels ->
    ProcessOutcome octx st msg
      (mkState (Some (jobId msg)) (Some (jobId msg))
         (lastSourceBitmap (storeRequest st msg)) (Some (blockSize msg))
         (lastPalette (storeRequest st msg)) (lastColorizeEnabled (storeRequest st msg))
         (lastAdvancedColorize (storeRequest st msg)),
       [result (jobId msg) (transferToImageBitmap tx ty pixels)
          (mkMeta tx ty tx ty (tx * ty) (blockSize msg))]).

(** A list of posted messages in which every blob comes after a result for
    the same job. *)
Definition blobsFollowResults (out : list Outgoing) : Prop :=
  forall l1 j b l2, out = l1 ++ blob j b :: l2 -> exists bmp meta, In (result j bmp meta) l1.

(** The last rendered job id, when there is one, is the id of a posted result. *)
Definition renderedWasPosted (st : State) (out : list Outgoing) : Prop :=
  forall j, lastRenderedJobId st = Some j -> exists bmp meta, In (result j bmp meta) out.

(** The stored palette, when there is one, is a byte array of at least one
    entry. *)
Definition paletteOk (st : State) : Prop :=
  forall p, lastPalette st = Some p -> (4 <= length p)%nat /\ Forall isByte p.

End Handlers.

(** A canvas for single-colour bitmaps: scaling one leaves its colour. *)
Record SolidBitmap : Type := mkSolid {
  solidWidth : Z;
  solidHeight : Z;
  solidPixels : list Z
}.

Definition solidColour (pixels : list Z) : list Z := firstn 4 (pixels ++ [0; 0; 0; 0]).

Definition solidFill (w h : Z) (colour : list Z) : list Z :=
  concat (replicate (Z.to_nat (w * h)) colour).

#[export] Instance solidCanvas : Canvas := {|
  ImageBitmap := SolidBitmap;
  Blob := Z * Z * list Z;
  bitmapWidth := solidWidth;
  bitmapHeight := solidHeight;
  drawImage := fun source w h => solidFill w h (solidColour (solidPixels source));
  transferToImageBitmap := mkSolid;
  convertToBlob := fun w h pixels => (w, h, pixels)
|}.

Definition red32 : SolidBitmap := mkSolid 32 32 (solidFill 32 32 [255; 0; 0; 255]).

(** A session: the red 32 x 32 bitmap is processed at block size 16 as job 1. *)
Definition firstRequest : PixelateProcessMessage :=
  mkProcess 1 16 (Some red32) None None None.

Definition afterFirst `{Float32} : State :=
  fst (handleProcessMessage true initialState firstRequest).

(** The session continued: job 1 is exported. *)
Definition exportSession : list (bool * PixelateIncomingMessage) :=
  [(true, process firstRequest); (true, generateBlob 1)].

(** A request whose palette holds numbers that are not bytes. *)
Definition wildPaletteSession : list (bool * PixelateIncomingMessage) :=
  [(true, process (mkProcess 2 16 (Some red32) None None
                     (Some [Int 300; NaN; Int (-5); Int 7])))].

End Worker.

(** * Properties *)

(** ** The palette parser *)

Module RouteProps.

Import Js Route.
Local Open Scope Z_scope.

Lemma hex_transparent :
  hexToRgbaComponents "transparent" = Some (Int 0, Int 0, Int 0, Int 0).
Proof. reflexivity. Qed.

Lemma hex_f00 : hexToRgbaComponents "f00" = Some (Int 255, Int 0, Int 0, Int 255).
Proof. reflexivity. Qed.

Lemma hex_hash_f00 : hexToRgbaComponents "#f00" = Some (Int 255, Int 0, Int 0, Int 255).
Proof. reflexivity. Qed.

(** A string whose trimmed, [#]-stripped form has neither three nor six
    code units is rejected. *)
Lemma hex_other_length (hex : string) :
  let h := trim (list_ascii_of_string hex) in
  let h' := if startsWithHash h then skipn 1 h else h in
  toLowerCase (list_ascii_of_string hex) <> list_ascii_of_string "transparent" ->
  length h' <> 3%nat -> length h' <> 6%nat ->
  hexToRgbaComponents hex = None.
Proof.
  intros h h' Hlow H3 H6. unfold hexToRgbaComponents.
  destruct (List.list_eq_dec _ _ _) as [E|_]; [contradiction|].
  fold h. fold h'.
  destruct (decide (length h' = HEX_TRIPLET_LEN)) as [E|_]; [contradiction|].
  destruct (decide (length h' = HEX_SIX_LEN)) as [E|_]; [contradiction|].
  reflexivity.
Qed.

Ltac each_ascii c := destruct c as [[] [] [] [] [] [] [] []].

(** A hexadecimal digit is neither white space nor [#]. *)
Lemma hexDigit_plain (c : ascii) (v : Z) (l : list ascii) :
  hexDigitValue c = Some v ->
  isStrWhiteSpaceChar c = false /\ startsWithHash (c :: l) = false.
Proof.
  intros Hc. each_ascii c; vm_compute in Hc; try discriminate Hc; split; reflexivity.
Qed.

(** [Number.parseInt] on two hexadecimal digits. *)
Lemma parseInt16_pair (c1 c2 : ascii) (v1 v2 : Z) :
  hexDigitValue c1 = Some v1 -> hexDigitValue c2 = Some v2 ->
  parseInt16 [c1; c2] = Int (16 * v1 + v2).
Proof.
  intros H1 H2.
  each_ascii c1; vm_compute in H1; try discriminate H1; injection H1 as <-;
    each_ascii c2; vm_compute in H2; try discriminate H2; injection H2 as <-;
    reflexivity.
Qed.

Lemma not_transparent (l : list ascii) :
  length l <> 11%nat -> toLowerCase l <> list_ascii_of_string "transparent".
Proof.
  intros Hlen E. apply (f_equal length) in E. unfold toLowerCase in E.
  rewrite length_map in E. apply Hlen. exact E.
Qed.

(** The three-digit form, with or without the leading [#]. *)
Lemma hex_three_digits (c1 c2 c3 : ascii) (v1 v2 v3 : Z) :
  hexDigitValue c1 = Some v1 -> hexDigitValue c2 = Some v2 -> hexDigitValue c3 = Some v3 ->
  let rgba := Some (Int (16 * v1 + v1), Int (16 * v2 + v2), Int (16 * v3 + v3), Int 255) in
  hexToRgbaComponents (String c1 (String c2 (String c3 EmptyString))) = rgba
  /\ hexToRgbaComponents (String "#" (String c1 (String c2 (String c3 EmptyString)))) = rgba.
Proof.
  intros H1 H2 H3 rgba.
  destruct (hexDigit_plain c1 v1 [c2; c3] H1) as [W1 N1].
  destruct (hexDigit_plain c3 v3 [] H3) as [W3 _].
  unfold hexToRgbaComponents. cbn [list_ascii_of_string].
  split.
  - destruct (List.list_eq_dec _ _ _) as [E|_];
      [exfalso; revert E; apply not_transparent; cbn; lia|].
    unfold trim. cbn [trimStart]. rewrite W1. cbn [rev app trimStart]. rewrite W3.
    cbn [rev app]. rewrite N1. cbn [length]. 
    destruct (decide _) as [_|Hn]; [|exfalso; apply Hn; reflexivity].
    cbn [charAt lookup list_lookup app].
    rewrite (parseInt16_pair c1 c1 v1 v1 H1 H1), (parseInt16_pair c2 c2 v2 v2 H2 H2),
      (parseInt16_pair c3 c3 v3 v3 H3 H3). reflexivity.
  - destruct (List.list_eq_dec _ _ _) as [E|_];
      [exfalso; revert E; apply not_transparent; cbn; lia|].
    unfold trim. cbn [trimStart]. change (isStrWhiteSpaceChar "#") with false.
    cbn [rev app trimStart]. rewrite W3. cbn [rev app startsWithHash skipn length].
    destruct (decide _) as [_|Hn]; [|exfalso; apply Hn; reflexivity].
    cbn [charAt lookup list_lookup app].
    rewrite (parseInt16_pair c1 c1 v1 v1 H1 H1), (parseInt16_pair c2 c2 v2 v2 H2 H2),
      (parseInt16_pair c3 c3 v3 v3 H3 H3). reflexivity.
Qed.

(** The six-digit form, with or without the leading [#]. *)
Lemma hex_six_digits (c1 c2 c3 c4 c5 c6 : ascii) (v1 v2 v3 v4 v5 v6 : Z) :
  hexDigitValue c1 = Some v1 -> hexDigitValue c2 = Some v2 -> hexDigitValue c3 = Some v3 ->
  hexDigitValue c4 = Some v4 -> hexDigitValue c5 = Some v5 -> hexDigitValue c6 = Some v6 ->
  let digits :=
    String c1 (String c2 (String c3 (String c4 (String c5 (String c6 EmptyString))))) in
  let rgba := Some (Int (16 * v1 + v2), Int (16 * v3 + v4), Int (16 * v5 + v6), Int 255) in
  hexToRgbaComponents digits = rgba /\ hexToRgbaComponents (String "#" digits) = rgba.
Proof.
  intros H1 H2 H3 H4 H5 H6 digits rgba. subst digits.
  destruct (hexDigit_plain c1 v1 [c2; c3; c4; c5; c6] H1) as [W1 N1].
  destruct (hexDigit_plain c6 v6 [] H6) as [W6 _].
  unfold hexToRgbaComponents. cbn [list_ascii_of_string].
  split.
  - destruct (List.list_eq_dec _ _ _) as [E|_];
      [exfalso; revert E; apply not_transparent; cbn; lia|].
    unfold trim. cbn [trimStart]. rewrite W1. cbn [rev app trimStart]. rewrite W6.
    cbn [rev app]. rewrite N1. cbn [length].
    destruct (decide _) as [Hn|_]; [discriminate Hn|].
    destruct (decide _) as [_|Hn]; [|exfalso; apply Hn; reflexivity].
    cbn [slice skipn firstn Nat.sub].
    rewrite (parseInt16_pair c1 c2 v1 v2 H1 H2), (parseInt16_pair c3 c4 v3 v4 H3 H4),
      (parseInt16_pair c5 c6 v5 v6 H5 H6). reflexivity.
  - destruct (List.list_eq_dec _ _ _) as [E|_];
      [exfalso; revert E; apply not_transparent; cbn; lia|].
    unfold trim. cbn [trimStart]. change (isStrWhiteSpaceChar "#") with false.
    cbn [rev app trimStart]. rewrite W6. cbn [rev app startsWithHash skipn length].
    destruct (decide _) as [Hn|_]; [discriminate Hn|].
    destruct (decide _) as [_|Hn]; [|exfalso; apply Hn; reflexivity].
    cbn [slice skipn firstn Nat.sub].
    rewrite (parseInt16_pair c1 c2 v1 v2 H1 H2), (parseInt16_pair c3 c4 v3 v4 H3 H4),
      (parseInt16_pair c5 c6 v5 v6 H5 H6). reflexivity.
Qed.

(** C2, at the input the specification names: the six-character string
    [zzzzzz] is not rejected. The parser returns a quadruple with three
    [NaN] components, the flattened palette keeps it, and the worker's
    [Uint8ClampedArray] turns it into opaque black. *)
Theorem hex_zzzzzz_is_kept :
  hexToRgbaComponents "zzzzzz" = Some (NaN, NaN, NaN, Int 255)
  /\ selectedPaletteArray [mkPaletteEntry "k1" "zzzzzz" false] ["k1"%string]
     = [NaN; NaN; NaN; Int 255]
  /\ Uint8ClampedArray_from
       (selectedPaletteArray [mkPaletteEntry "k1" "zzzzzz" false] ["k1"%string])
     = [0; 0; 0; 255].
Proof. repeat split; reflexivity. Qed.

End RouteProps.

(** ** The tile grid *)

Module TilesProps.

Import Tiles.
Local Open Scope Z_scope.

Lemma ceilDiv_isCeiling (a b : Z) : 0 < b -> isCeiling (ceilDiv a b) a b.
Proof.
  intros Hb. unfold isCeiling, ceilDiv.
  pose proof (Z.div_mod (- a) b ltac:(lia)) as Hdm.
  pose proof (Z.mod_pos_bound (- a) b Hb) as Hm.
  nia.
Qed.

Lemma isCeiling_unique (q q' a b : Z) :
  0 < b -> isCeiling q a b -> isCeiling q' a b -> q = q'.
Proof. unfold isCeiling. intros Hb H1 H2. nia. Qed.

Lemma ceilDiv_pos (a b : Z) : 0 < a -> 0 < b -> 1 <= ceilDiv a b.
Proof.
  intros Ha Hb. pose proof (ceilDiv_isCeiling a b Hb) as Hc.
  unfold isCeiling in Hc. nia.
Qed.

End TilesProps.

(** ** Pixel buffers *)

Module ImageProps.

Import Js Image.
Local Open Scope nat_scope.

Lemma fold_left_inv {A B : Type} (f : A -> B -> A) (Q : A -> Prop) (l : list B) (a : A) :
  (forall a b, In b l -> Q a -> Q (f a b)) -> Q a -> Q (fold_left f l a).
Proof.
  revert a. induction l as [|b l IH]; intros a Hstep Ha; simpl; [assumption|].
  apply IH.
  - intros a' b' Hin. apply Hstep. right. assumption.
  - apply Hstep; [left; reflexivity|assumption].
Qed.

Lemma strideIndices_mul4 (n : nat) :
  strideIndices (4 * n) = map (fun k => k * 4) (seq 0 n).
Proof.
  unfold strideIndices. replace ((4 * n + 3) / 4) with n; [reflexivity|].
  apply Nat.div_unique with (r := 3); lia.
Qed.

Lemma length_setPixel (d : list Z) (i : nat) (v0 v1 v2 v3 : Z) :
  length (setPixel d i v0 v1 v2 v3) = length d.
Proof. unfold setPixel. rewrite !length_insert. reflexivity. Qed.

Lemma setPixel_lookup_out (d : list Z) (i j : nat) (v0 v1 v2 v3 : Z) :
  j < i \/ i + 4 <= j -> setPixel d i v0 v1 v2 v3 !! j = d !! j.
Proof.
  intros Hj. unfold setPixel, CHANNEL_R, CHANNEL_G, CHANNEL_B, CHANNEL_A.
  rewrite !list_lookup_insert_ne by lia. reflexivity.
Qed.

Lemma pixelAt_setPixel_other (d : list Z) (k k' : nat) (v0 v1 v2 v3 : Z) :
  k <> k' -> pixelAt (setPixel d (k * 4) v0 v1 v2 v3) k' = pixelAt d k'.
Proof.
  intros Hk. unfold pixelAt. rewrite !setPixel_lookup_out by lia. reflexivity.
Qed.

Lemma pixelAt_setPixel_same (d : list Z) (k : nat) (v0 v1 v2 v3 : Z) :
  4 * k + 3 < length d ->
  pixelAt (setPixel d (k * 4) v0 v1 v2 v3) k = Some (v0, v1, v2, v3).
Proof.
  intros Hlen. unfold pixelAt, setPixel, CHANNEL_R, CHANNEL_G, CHANNEL_B, CHANNEL_A.
  replace (k * 4 + 0) with (4 * k) by lia.
  replace (k * 4 + 1) with (4 * k + 1) by lia.
  replace (k * 4 + 2) with (4 * k + 2) by lia.
  replace (k * 4 + 3) with (4 * k + 3) by lia.
  rewrite (list_lookup_insert_ne _ (4 * k + 3)) by lia.
  rewrite (list_lookup_insert_ne _ (4 * k + 2)) by lia.
  rewrite (list_lookup_insert_ne _ (4 * k + 1)) by lia.
  rewrite list_lookup_insert_eq by lia.
  rewrite (list_lookup_insert_ne _ (4 * k + 3)) by lia.
  rewrite (list_lookup_insert_ne _ (4 * k + 2)) by lia.
  rewrite list_lookup_insert_eq by (rewrite !length_insert; lia).
  rewrite (list_lookup_insert_ne _ (4 * k + 3)) by lia.
  rewrite list_lookup_insert_eq by (rewrite !length_insert; lia).
  rewrite list_lookup_insert_eq by (rewrite !length_insert; lia).
  reflexivity.
Qed.

Lemma pixelAt_lookups (d : list Z) (k : nat) (r g b a : Z) :
  pixelAt d k = Some (r, g, b, a) ->
  d !! (4 * k) = Some r /\ d !! (4 * k + 1) = Some g
  /\ d !! (4 * k + 2) = Some b /\ d !! (4 * k + 3) = Some a.
Proof.
  unfold pixelAt.
  destruct (d !! (4 * k)), (d !! (4 * k + 1)), (d !! (4 * k + 2)), (d !! (4 * k + 3));
    intros E; inversion E; subst; auto.
Qed.

Lemma pixelAt_length (d : list Z) (k : nat) (px : Z * Z * Z * Z) :
  pixelAt d k = Some px -> 4 * k + 3 < length d.
Proof.
  destruct px as [[[r g] b] a]. intros E.
  apply pixelAt_lookups in E as (_ & _ & _ & Ha).
  apply lookup_lt_Some in Ha. exact Ha.
Qed.

Lemma pixelAt_is_Some (d : list Z) (k : nat) :
  4 * k + 3 < length d -> exists px, pixelAt d k = Some px.
Proof.
  intros Hlen. unfold pixelAt.
  destruct (lookup_lt_is_Some_2 d (4 * k) ltac:(lia)) as [r ->].
  destruct (lookup_lt_is_Some_2 d (4 * k + 1) ltac:(lia)) as [g ->].
  destruct (lookup_lt_is_Some_2 d (4 * k + 2) ltac:(lia)) as [b ->].
  destruct (lookup_lt_is_Some_2 d (4 * k + 3) ltac:(lia)) as [a ->].
  eauto.
Qed.

Lemma storeByte_isByte (v : Z) : isByte v -> storeByte (Some v) = v.
Proof. unfold isByte, storeByte. lia. Qed.

End ImageProps.

(** ** The CIEDE2000 distance *)

Module LabProps.

Import Lab.
Local Open Scope R_scope.

Lemma deltaE00_unfold (L1 a1 b1 L2 a2 b2 : R) :
  deltaE00 L1 a1 b1 L2 a2 b2 =
  let G := chromaG a1 b1 a2 b2 in
  deltaE00Tail
    L1 (hypot ((1 + G) * a1) b1) (huePrime b1 ((1 + G) * a1))
    L2 (hypot ((1 + G) * a2) b2) (huePrime b2 ((1 + G) * a2)).
Proof. reflexivity. Qed.

Lemma chromaG_sym (a1 b1 a2 b2 : R) : chromaG a1 b1 a2 b2 = chromaG a2 b2 a1 b1.
Proof. unfold chromaG. cbv zeta. rewrite (Rplus_comm (hypot a1 b1)). reflexivity. Qed.

Lemma sign_opp (x : R) : sign (- x) = - sign x.
Proof.
  unfold sign.
  destruct (Rlt_dec 0 (- x)), (Rlt_dec (- x) 0), (Rlt_dec 0 x), (Rlt_dec x 0); lra.
Qed.

Lemma deltaE00Tail_sym (L1 C1p h1p L2 C2p h2p : R) :
  deltaE00Tail L1 C1p h1p L2 C2p h2p = deltaE00Tail L2 C2p h2p L1 C1p h1p.
Proof.
  unfold deltaE00Tail. cbv zeta.
  rewrite (Rplus_comm L2 L1), (Rplus_comm C2p C1p), (Rplus_comm h2p h1p).
  rewrite (Rabs_minus_sym h2p h1p), (Rmult_comm C2p C1p).
  assert (Hsign : sign (h1p - h2p) = - sign (h2p - h1p)).
  { rewrite <- sign_opp. f_equal. ring. }
  destruct (Rlt_dec PI (Rabs (h1p - h2p))) as [Hwrap|Hnowrap].
  - replace ((h1p - h2p - sign (h1p - h2p) * 2 * PI) / 2)
      with (- ((h2p - h1p - sign (h2p - h1p) * 2 * PI) / 2))
      by (rewrite Hsign; unfold Rdiv; ring).
    rewrite sin_neg. f_equal. unfold Rdiv. ring.
  - replace ((h1p - h2p) / 2) with (- ((h2p - h1p) / 2)) by (unfold Rdiv; ring).
    rewrite sin_neg. f_equal. unfold Rdiv. ring.
Qed.

Lemma deltaE00Tail_same (L1 C1p h1p : R) : deltaE00Tail L1 C1p h1p L1 C1p h1p = 0.
Proof.
  unfold deltaE00Tail. cbv zeta.
  replace (h1p - h1p) with 0 by ring. rewrite Rabs_R0.
  destruct (Rlt_dec PI 0) as [Hlt|_]; [pose proof PI_RGT_0; lra|].
  replace (0 / 2) with 0 by (unfold Rdiv; ring). rewrite sin_0.
  replace (L1 - L1) with 0 by ring. replace (C1p - C1p) with 0 by ring.
  match goal with
  | |- sqrt ?e = 0 => replace e with 0
  end.
  apply sqrt_0. unfold Rdiv; ring.
Qed.

Lemma deltaE00_same (L a b : R) : deltaE00 L a b L a b = 0.
Proof. rewrite deltaE00_unfold. cbv zeta. apply deltaE00Tail_same. Qed.

(** C7: the distance of a colour to itself is 0, and the distance is
    unchanged when its two arguments are exchanged. *)
Theorem deltaE00_identity_and_symmetry :
  (forall L a b : R, deltaE00 L a b L a b = 0)
  /\ (forall L1 a1 b1 L2 a2 b2 : R,
        deltaE00 L1 a1 b1 L2 a2 b2 = deltaE00 L2 a2 b2 L1 a1 b1).
Proof.
  split.
  - intros L a b. rewrite deltaE00_unfold. cbv zeta. apply deltaE00Tail_same.
  - intros L1 a1 b1 L2 a2 b2. rewrite !deltaE00_unfold. cbv zeta.
    rewrite (chromaG_sym a2 b2 a1 b1). apply deltaE00Tail_sym.
Qed.

Lemma deltaE00_nonneg (L1 a1 b1 L2 a2 b2 : R) : 0 <= deltaE00 L1 a1 b1 L2 a2 b2.
Proof. unfold deltaE00. cbv zeta. apply sqrt_pos. Qed.

End LabProps.

(** ** The classic colour mapper *)

Module ClassicProps.

Import Js Image Classic ImageProps.
Local Open Scope Z_scope.

Lemma readNum_pixel (d : list Z) (k : nat) (r g b a : Z) :
  pixelAt d k = Some (r, g, b, a) ->
  readNum d (k * 4 + CHANNEL_R) = Int r /\ readNum d (k * 4 + CHANNEL_G) = Int g
  /\ readNum d (k * 4 + CHANNEL_B) = Int b /\ d !! (k * 4 + CHANNEL_A)%nat = Some a.
Proof.
  intros E. apply pixelAt_lookups in E as (Hr & Hg & Hb & Ha).
  unfold readNum, CHANNEL_R, CHANNEL_G, CHANNEL_B, CHANNEL_A.
  replace (k * 4 + 0)%nat with (4 * k)%nat by lia.
  replace (k * 4 + 1)%nat with (4 * k + 1)%nat by lia.
  replace (k * 4 + 2)%nat with (4 * k + 2)%nat by lia.
  replace (k * 4 + 3)%nat with (4 * k + 3)%nat by lia.
  rewrite Hr, Hg, Hb, Ha. auto.
Qed.

Lemma scanStep_entry (palette : list Z) (px e : Z * Z * Z * Z) (j : nat) (best : nat * ext Z) :
  pixelAt palette j = Some e ->
  scanStep palette (Int px.1.1.1) (Int px.1.1.2) (Int px.1.2) best (j * 4) =
  if distLt (Int (dist2 px e)) (snd best) then ((j * 4)%nat, Finite (dist2 px e)) else best.
Proof.
  destruct px as [[[r g] b] a], e as [[[pr pg] pb] pa]. intros E.
  apply readNum_pixel in E as (Hr & Hg & Hb & _).
  unfold scanStep. rewrite Hr, Hg, Hb. simpl. reflexivity.
Qed.

Lemma scan_prefix (palette : list Z) (px : Z * Z * Z * Z) (n : nat) :
  (forall j, (j < S n)%nat -> exists e, pixelAt palette j = Some e) ->
  exists j e,
    firstNearest palette px (S n) j e
    /\ fold_left (scanStep palette (Int px.1.1.1) (Int px.1.1.2) (Int px.1.2))
         (map (fun k => (k * 4)%nat) (seq 0 (S n))) (0%nat, PosInf)
       = ((j * 4)%nat, Finite (dist2 px e)).
Proof.
  induction n as [|n IH]; intros Hfull.
  - destruct (Hfull 0%nat ltac:(lia)) as [e He].
    exists 0%nat, e. split.
    + repeat split; [lia|assumption| |].
      * intros j' e' Hj' He'. assert (j' = 0)%nat as -> by lia.
        rewrite He in He'. inversion He'. lia.
      * intros j' e' Hj'. lia.
    + simpl. rewrite (scanStep_entry palette px e 0 _ He). reflexivity.
  - destruct IH as (j & e & (Hj & He & Hmin & Hfirst) & Hfold).
    { intros j Hj. apply Hfull. lia. }
    destruct (Hfull (S n) ltac:(lia)) as [e1 He1].
    rewrite seq_S, map_app, fold_left_app, Hfold. simpl.
    rewrite (scanStep_entry palette px e1 (S n) _ He1). simpl.
    destruct (dist2 px e1 <? dist2 px e) eqn:Hlt.
    + apply Z.ltb_lt in Hlt. exists (S n), e1. split; [|reflexivity].
      repeat split; [lia|assumption| |].
      * intros j' e' Hj' He'. destruct (decide (j' = S n)) as [->|Hne].
        -- rewrite He1 in He'. inversion He'. lia.
        -- specialize (Hmin j' e' ltac:(lia) He'). lia.
      * intros j' e' Hj' He'. specialize (Hmin j' e' ltac:(lia) He'). lia.
    + apply Z.ltb_ge in Hlt. exists j, e. split; [|reflexivity].
      repeat split; [lia|assumption| |assumption].
      intros j' e' Hj' He'. destruct (decide (j' = S n)) as [->|Hne].
      * rewrite He1 in He'. inversion He'. subst. lia.
      * apply (Hmin j' e'); [lia|assumption].
Qed.

Lemma scanPalette_nearest (palette : list Z) (px : Z * Z * Z * Z) (m : nat) :
  length palette = (4 * m)%nat -> (1 <= m)%nat ->
  exists j e,
    firstNearest palette px m j e
    /\ fst (scanPalette palette (Int px.1.1.1) (Int px.1.1.2) (Int px.1.2)) = (j * 4)%nat.
Proof.
  intros Hlen Hm. destruct m as [|n]; [lia|].
  destruct (scan_prefix palette px n) as (j & e & Hnear & Hfold).
  { intros j Hj. apply pixelAt_is_Some. lia. }
  exists j, e. split; [assumption|].
  unfold scanPalette. rewrite Hlen, strideIndices_mul4, Hfold. reflexivity.
Qed.

Lemma pixelStep_transparent (palette d : list Z) (k : nat) :
  d !! (4 * k + 3)%nat = Some 0 -> pixelStep palette d (k * 4) = d.
Proof.
  intros Ha. unfold pixelStep, CHANNEL_A, TRANSPARENT_ALPHA.
  replace (k * 4 + 3)%nat with (4 * k + 3)%nat by lia.
  destruct (decide (d !! (4 * k + 3)%nat = Some 0)); [reflexivity|contradiction].
Qed.

Lemma pixelStep_cases (palette d : list Z) (i : nat) :
  pixelStep palette d i = d
  \/ exists v0 v1 v2 v3, pixelStep palette d i = setPixel d i v0 v1 v2 v3.
Proof.
  unfold pixelStep. destruct (decide _); [left; reflexivity|].
  right. do 4 eexists. reflexivity.
Qed.

Lemma pixelStep_other (palette d : list Z) (k k' : nat) :
  k <> k' -> pixelAt (pixelStep palette d (k * 4)) k' = pixelAt d k'.
Proof.
  intros Hk. destruct (pixelStep_cases palette d (k * 4)) as [->|(v0 & v1 & v2 & v3 & ->)].
  - reflexivity.
  - apply pixelAt_setPixel_other. assumption.
Qed.

Lemma pixelStep_opaque (palette d : list Z) (m k : nat) (px : Z * Z * Z * Z) :
  length palette = (4 * m)%nat -> (1 <= m)%nat -> Forall isByte palette ->
  pixelAt d k = Some px -> px.2 <> 0 ->
  exists j e,
    firstNearest palette px m j e /\ pixelAt (pixelStep palette d (k * 4)) k = Some e.
Proof.
  intros Hlen Hm Hbytes Hpx Ha.
  destruct (scanPalette_nearest palette px m Hlen Hm) as (j & e & Hnear & Hbest).
  exists j, e. split; [assumption|].
  pose proof (pixelAt_length d k px Hpx) as Hdlen.
  destruct px as [[[r g] b] a], e as [[[pr pg] pb] pa]. cbn [fst snd] in *.
  destruct (readNum_pixel d k r g b a Hpx) as (Hr & Hg & Hb & Halpha).
  destruct Hnear as (Hj & He & _).
  destruct (readNum_pixel palette j pr pg pb pa He) as (_ & _ & _ & Hpa).
  apply pixelAt_lookups in He as (Epr & Epg & Epb & Epa).
  unfold pixelStep. rewrite Hr, Hg, Hb, Halpha, Hbest.
  destruct (decide (Some a = Some TRANSPARENT_ALPHA)) as [E|_].
  { inversion E. contradiction. }
  unfold CHANNEL_R, CHANNEL_G, CHANNEL_B, CHANNEL_A in *.
  replace (j * 4 + 0)%nat with (4 * j)%nat by lia.
  replace (j * 4 + 1)%nat with (4 * j + 1)%nat by lia.
  replace (j * 4 + 2)%nat with (4 * j + 2)%nat by lia.
  replace (j * 4 + 3)%nat with (4 * j + 3)%nat by lia.
  rewrite Epr, Epg, Epb, Epa.
  rewrite Forall_forall in Hbytes.
  rewrite !storeByte_isByte
    by (apply Hbytes; eapply list_elem_of_lookup_2; eassumption).
  apply (pixelAt_setPixel_same d k pr pg pb pa). lia.
Qed.

Lemma seq_split (n k : nat) :
  (k < n)%nat -> seq 0 n = seq 0 k ++ k :: seq (S k) (n - S k).
Proof.
  intros Hk. replace n with (k + S (n - S k))%nat at 1 by lia.
  rewrite seq_app. reflexivity.
Qed.

Lemma classic_pixel_frame (palette : list Z) (ks : list nat) (d : list Z) (k : nat) :
  ~ In k ks ->
  pixelAt (fold_left (pixelStep palette) (map (fun k => (k * 4)%nat) ks) d) k = pixelAt d k.
Proof.
  intros Hk.
  apply (fold_left_inv (pixelStep palette) (fun d' => pixelAt d' k = pixelAt d k));
    [|reflexivity].
  intros d' i Hin Hd'. apply in_map_iff in Hin as (k' & <- & Hk').
  rewrite pixelStep_other; [assumption|]. intros ->. contradiction.
Qed.

(** The pixel loop of the classic mapper, seen from pixel [k]: the final
    pixel is the one written by iteration [k] on the original pixel. *)
Lemma classic_pixel_final (palette d : list Z) (k : nat) (px : Z * Z * Z * Z) :
  pixelAt d k = Some px ->
  exists d', pixelAt d' k = Some px
    /\ pixelAt (fold_left (pixelStep palette) (strideIndices (length d)) d) k
       = pixelAt (pixelStep palette d' (k * 4)) k.
Proof.
  intros Hpx. pose proof (pixelAt_length d k px Hpx) as Hlen.
  unfold strideIndices.
  assert (Hk : (k < (length d + 3) / 4)%nat).
  { apply Nat.div_le_lower_bound; lia. }
  rewrite (seq_split _ k Hk), map_app, fold_left_app. simpl.
  exists (fold_left (pixelStep palette) (map (fun k => (k * 4)%nat) (seq 0 k)) d).
  split.
  - rewrite classic_pixel_frame; [assumption|]. rewrite in_seq. lia.
  - apply classic_pixel_frame. rewrite in_seq. lia.
Qed.

(** C3: on a palette of [m >= 1] entries, every pixel whose alpha is not 0
    becomes the full RGBA of the palette entry at the least squared distance
    over (R, G, B); among the entries at that distance it is the one of
    lowest index. *)
Theorem classic_selects_nearest_lowest_index (img : ImageData) (palette : list Z)
    (m k : nat) (px : Z * Z * Z * Z) :
  length palette = (4 * m)%nat -> (1 <= m)%nat -> Forall isByte palette ->
  pixelAt (data img) k = Some px -> px.2 <> 0 ->
  exists j e,
    (j < m)%nat
    /\ pixelAt palette j = Some e
    /\ pixelAt (data (mapImageDataToPaletteClassic img palette)) k = Some e
    /\ (forall j' e', (j' < m)%nat -> pixelAt palette j' = Some e' ->
          dist2 px e <= dist2 px e')
    /\ (forall j' e', (j' < j)%nat -> pixelAt palette j' = Some e' ->
          dist2 px e < dist2 px e').
Proof.
  intros Hlen Hm Hbytes Hpx Ha.
  unfold mapImageDataToPaletteClassic.
  destruct (length palette <? RGBA_STRIDE)%nat eqn:Hshort.
  { apply Nat.ltb_lt in Hshort. unfold RGBA_STRIDE in Hshort. lia. }
  cbn [data].
  destruct (classic_pixel_final palette (data img) k px Hpx) as (d' & Hpx' & ->).
  destruct (pixelStep_opaque palette d' m k px Hlen Hm Hbytes Hpx' Ha)
    as (j & e & (Hj & He & Hmin & Hfirst) & Hout).
  exists j, e. auto.
Qed.

Lemma classic_selects_nearest_lowest_index_witness :
  exists j e,
    (j < 3)%nat
    /\ pixelAt [0; 0; 0; 255; 20; 20; 20; 255; 255; 255; 255; 255] j = Some e
    /\ pixelAt (data (mapImageDataToPaletteClassic
                        (mkImageData 2 1 [10; 10; 10; 255; 200; 200; 200; 0])
                        [0; 0; 0; 255; 20; 20; 20; 255; 255; 255; 255; 255])) 0 = Some e
    /\ (forall j' e', (j' < 3)%nat ->
          pixelAt [0; 0; 0; 255; 20; 20; 20; 255; 255; 255; 255; 255] j' = Some e' ->
          dist2 (10, 10, 10, 255) e <= dist2 (10, 10, 10, 255) e')
    /\ (forall j' e', (j' < j)%nat ->
          pixelAt [0; 0; 0; 255; 20; 20; 20; 255; 255; 255; 255; 255] j' = Some e' ->
          dist2 (10, 10, 10, 255) e < dist2 (10, 10, 10, 255) e').
Proof.
  apply (classic_selects_nearest_lowest_index
           (mkImageData 2 1 [10; 10; 10; 255; 200; 200; 200; 0])
           [0; 0; 0; 255; 20; 20; 20; 255; 255; 255; 255; 255] 3 0 (10, 10, 10, 255)).
  - reflexivity.
  - lia.
  - repeat constructor; unfold isByte; lia.
  - reflexivity.
  - simpl. lia.
Defined.

(** The classic mapper leaves a pixel whose alpha is 0 as it is. *)
Lemma classic_transparent_unchanged (img : ImageData) (palette : list Z) (k : nat)
    (r g b : Z) :
  pixelAt (data img) k = Some (r, g, b, 0) ->
  pixelAt (data (mapImageDataToPaletteClassic img palette)) k = Some (r, g, b, 0).
Proof.
  intros Hpx. unfold mapImageDataToPaletteClassic.
  destruct (length palette <? RGBA_STRIDE)%nat; [assumption|]. cbn [data].
  apply (fold_left_inv (pixelStep palette) (fun d => pixelAt d k = Some (r, g, b, 0)));
    [|assumption].
  intros d i Hin Hd. unfold strideIndices in Hin.
  apply in_map_iff in Hin as (k' & <- & _).
  destruct (decide (k' = k)) as [->|Hne].
  - apply pixelAt_lookups in Hd as Hl. destruct Hl as (_ & _ & _ & Ha).
    rewrite pixelStep_transparent; assumption.
  - rewrite pixelStep_other; assumption.
Qed.

End ClassicProps.

(** ** The perceptual colour mapper *)

Module PerceptualProps.

Import Js Image Lab Perceptual Invariants ImageProps LabProps.
Local Open Scope nat_scope.

(** *** The storage that rounds nothing *)

Lemma exactFloat32_rounding : @Float32Rounding exactFloat32.
Proof.
  split; cbn [fround exactFloat32].
  - intros x y Hxy. exact Hxy.
  - reflexivity.
  - reflexivity.
  - intros x _. replace (x - x)%R with 0%R by ring. rewrite Rabs_R0.
    apply Rmult_le_pos; [|apply Rabs_pos]. unfold FLOAT32_EPSILON.
    left. apply Rinv_0_lt_compat. lra.
Qed.

Section Float32Store.

Context `{Float32}.

(** *** What follows from the laws of the rounding *)

Lemma fround_nonneg (x : R) : Float32Rounding -> (0 <= x)%R -> (0 <= fround x)%R.
Proof.
  intros Hf Hx. rewrite <- (fround_zero Hf). apply (fround_monotone Hf). exact Hx.
Qed.

(** *** The two nested loops over [y] and [x] *)

Section NestedLoops.

Context {St : Type} (f : nat -> St -> nat -> St) (w h : nat).

Lemma rows_inv (Q : St -> Prop) (s : St) :
  (forall y x s, y < h -> x < w -> Q s -> Q (f y s x)) -> Q s -> Q (rows f w h s).
Proof.
  intros Hstep Hs. unfold rows.
  apply (fold_left_inv _ Q); [|assumption].
  intros s1 y Hy Hs1. apply in_seq in Hy.
  apply (fold_left_inv _ Q); [|assumption].
  intros s2 x Hx Hs2. apply in_seq in Hx. apply Hstep; [lia|lia|assumption].
Qed.

Lemma row_inv (Q : St -> Prop) (y : nat) (s : St) :
  (forall x s, x < w -> Q s -> Q (f y s x)) -> Q s -> Q (fold_left (f y) (seq 0 w) s).
Proof.
  intros Hstep Hs. apply (fold_left_inv _ Q); [|assumption].
  intros s1 x Hx Hs1. apply in_seq in Hx. apply Hstep; [lia|assumption].
Qed.

(** A property [P] that holds until the iteration at [(x, y)], which
    establishes [Q]; the other iterations keep both. *)
Lemma rows_at (P Q : St -> Prop) (x y : nat) (s : St) :
  x < w -> y < h ->
  (forall y' x' s, y' < h -> x' < w -> (y', x') <> (y, x) -> P s -> P (f y' s x')) ->
  (forall s, P s -> Q (f y s x)) ->
  (forall y' x' s, y' < h -> x' < w -> (y', x') <> (y, x) -> Q s -> Q (f y' s x')) ->
  P s -> Q (rows f w h s).
Proof.
  intros Hx Hy HP Hat HQ Hs. unfold rows.
  set (row := fun s y => fold_left (f y) (seq 0 w) s).
  rewrite (ClassicProps.seq_split h y Hy), fold_left_app. cbn [fold_left].
  apply (fold_left_inv _ Q).
  { intros s1 y' Hy' Hs1. apply in_seq in Hy'. subst row. cbv beta.
    apply row_inv; [|assumption]. intros x' s2 Hx' Hs2.
    apply HQ; [lia|lia| |assumption]. intros E. inversion E. lia. }
  assert (Hbefore : P (fold_left row (seq 0 y) s)).
  { apply (fold_left_inv _ P); [|assumption].
    intros s1 y' Hy' Hs1. apply in_seq in Hy'. subst row. cbv beta.
    apply row_inv; [|assumption]. intros x' s2 Hx' Hs2.
    apply HP; [lia|lia| |assumption]. intros E. inversion E. lia. }
  revert Hbefore. generalize (fold_left row (seq 0 y) s). intros s0 Hs0.
  subst row. cbv beta.
  rewrite (ClassicProps.seq_split w x Hx), fold_left_app. cbn [fold_left].
  apply (fold_left_inv _ Q).
  { intros s1 x' Hx' Hs1. apply in_seq in Hx'.
    apply HQ; [lia|lia| |assumption]. intros E. inversion E. lia. }
  apply Hat.
  apply (fold_left_inv _ P); [|assumption].
  intros s1 x' Hx' Hs1. apply in_seq in Hx'.
  apply HP; [lia|lia| |assumption]. intros E. inversion E. lia.
Qed.

End NestedLoops.

Lemma index_injective (w x y x' y' : nat) :
  x < w -> x' < w -> y' * w + x' = y * w + x -> (y', x') = (y, x).
Proof.
  intros Hx Hx' E.
  assert (y' = y) as -> by nia.
  f_equal. lia.
Qed.

(** *** The CIELAB copy of the image *)

Lemma labStep_eq (d : list Z) (w y x : nat) (arrs : LabArrays) :
  labStep d w y arrs x =
  mkLabArrays (<[y * w + x := Lab.L (pixelLab d (y * w + x))]> (Larr arrs))
    (<[y * w + x := Lab.a (pixelLab d (y * w + x))]> (Aarr arrs))
    (<[y * w + x := Lab.b (pixelLab d (y * w + x))]> (Barr arrs)).
Proof.
  unfold labStep, pixelLab, RGBA_STRIDE, CHANNEL_R, CHANNEL_G, CHANNEL_B, CHANNEL_A,
    TRANSPARENT_ALPHA.
  destruct (byteAt d ((y * w + x) * 4 + 3) =? 0)%Z; reflexivity.
Qed.

Lemma labStep_lengths (d : list Z) (w y x n : nat) (arrs : LabArrays) :
  labLengths n arrs -> labLengths n (labStep d w y arrs x).
Proof.
  intros (HL & HA & HB). rewrite labStep_eq. unfold labLengths. cbn [Larr Aarr Barr].
  rewrite !length_insert. auto.
Qed.

Lemma labArrays_lengths (d : list Z) (w h : nat) : labLengths (w * h) (labArrays d w h).
Proof.
  unfold labArrays.
  apply (rows_inv (labStep d w) w h (labLengths (w * h))).
  - intros y x arrs _ _. apply labStep_lengths.
  - unfold labLengths. cbn [Larr Aarr Barr]. rewrite !length_replicate. auto.
Qed.

Lemma labArrays_at (d : list Z) (w h x y : nat) :
  x < w -> y < h ->
  labValueAt (y * w + x) (pixelLab d (y * w + x)) (labArrays d w h).
Proof.
  intros Hx Hy. unfold labArrays.
  assert (Hidx : y * w + x < w * h) by nia.
  apply (rows_at (labStep d w) w h (labLengths (w * h))
           (fun arrs => labLengths (w * h) arrs
                        /\ labValueAt (y * w + x) (pixelLab d (y * w + x)) arrs) x y);
    try assumption.
  - intros y' x' arrs _ _ _. apply labStep_lengths.
  - intros arrs Hlen. split; [apply labStep_lengths; assumption|].
    destruct Hlen as (HL & HA & HB). rewrite labStep_eq.
    unfold labValueAt. cbn [Larr Aarr Barr].
    rewrite !list_lookup_insert_eq by lia. auto.
  - intros y' x' arrs Hy' Hx' Hne [Hlen (VL & VA & VB)].
    split; [apply labStep_lengths; assumption|].
    rewrite labStep_eq. unfold labValueAt. cbn [Larr Aarr Barr].
    assert (y' * w + x' <> y * w + x).
    { intros E. apply Hne. apply (index_injective w); assumption. }
    rewrite !list_lookup_insert_ne by assumption. auto.
  - unfold labLengths. cbn [Larr Aarr Barr]. rewrite !length_replicate. auto.
Qed.

Lemma labArrays_lookup (d : list Z) (w h idx : nat) :
  idx < w * h ->
  realAt (Larr (labArrays d w h)) idx = Lab.L (pixelLab d idx)
  /\ realAt (Aarr (labArrays d w h)) idx = Lab.a (pixelLab d idx)
  /\ realAt (Barr (labArrays d w h)) idx = Lab.b (pixelLab d idx).
Proof.
  intros Hidx. assert (Hw : 0 < w) by nia.
  pose proof (Nat.div_mod idx w ltac:(lia)) as Hdm.
  pose proof (Nat.mod_upper_bound idx w ltac:(lia)) as Hmod.
  assert (Hdiv : idx / w < h).
  { apply Nat.Div0.div_lt_upper_bound. lia. }
  destruct (labArrays_at d w h (idx mod w) (idx / w) Hmod Hdiv) as (VL & VA & VB).
  replace (idx / w * w + idx mod w) with idx in * by lia.
  unfold realAt. rewrite VL, VA, VB. auto.
Qed.

(** *** The hue-stability weight *)

Lemma fold_left_ext {A B : Type} (f g : A -> B -> A) (l : list B) (a : A) :
  (forall a b, f a b = g a b) -> fold_left f l a = fold_left g l a.
Proof.
  intros Hfg. revert a. induction l as [|b l IH]; intros a; simpl; [reflexivity|].
  rewrite Hfg. apply IH.
Qed.

Lemma fold_left_flat_map {A B C : Type} (g : A -> C -> A) (F : B -> list C) (l : list B)
    (a : A) :
  fold_left g (flat_map F l) a = fold_left (fun a b => fold_left g (F b) a) l a.
Proof.
  revert a. induction l as [|b l IH]; intros a; simpl; [reflexivity|].
  rewrite fold_left_app. apply IH.
Qed.

Lemma hueSumsCol_sample (arrs : LabArrays) (w : nat) (x yy : Z) (s : Sums) (dx : Z) :
  hueSumsCol arrs w x yy s dx =
  fold_left (addSample arrs)
    (if ((0 <=? x + dx)%Z && (x + dx <? Z.of_nat w)%Z)%bool
     then [Z.to_nat (yy * Z.of_nat w + (x + dx))] else []) s.
Proof.
  unfold hueSumsCol. cbv zeta. rewrite Z.geb_leb.
  destruct (Z.ltb_spec (x + dx) 0), (Z.leb_spec (Z.of_nat w) (x + dx)),
    (Z.leb_spec 0 (x + dx)), (Z.ltb_spec (x + dx) (Z.of_nat w));
    try lia; reflexivity.
Qed.

Lemma hueSumsRow_sample (arrs : LabArrays) (w h : nat) (x y : Z) (s : Sums) (dy : Z) :
  hueSumsRow arrs w h x y s dy =
  fold_left (addSample arrs)
    (if ((0 <=? y + dy)%Z && (y + dy <? Z.of_nat h)%Z)%bool
     then flat_map
            (fun dx =>
               if ((0 <=? x + dx)%Z && (x + dx <? Z.of_nat w)%Z)%bool
               then [Z.to_nat ((y + dy) * Z.of_nat w + (x + dx))] else [])
            [-1; 0; 1]%Z
     else []) s.
Proof.
  unfold hueSumsRow. cbv zeta. rewrite Z.geb_leb.
  destruct (Z.ltb_spec (y + dy) 0), (Z.leb_spec (Z.of_nat h) (y + dy)),
    (Z.leb_spec 0 (y + dy)), (Z.ltb_spec (y + dy) (Z.of_nat h));
    try lia; try reflexivity.
  cbn [orb andb]. rewrite fold_left_flat_map.
  apply fold_left_ext. intros s' dx. apply hueSumsCol_sample.
Qed.

(** The sums of the hue weight run over every neighbour inside the image:
    the loops test the coordinates only, never the alpha of the neighbour. *)
Lemma hueSums_neighbours (arrs : LabArrays) (w h : nat) (x y : Z) :
  hueSums arrs w h x y =
  fold_left (addSample arrs) (neighbours w h x y) (mkSums 0 0 0 0 0).
Proof.
  unfold hueSums, neighbours. rewrite fold_left_flat_map.
  apply fold_left_ext. intros s dy. apply hueSumsRow_sample.
Qed.

Lemma addSample_count (arrs : LabArrays) (ns : list nat) (s : Sums) :
  count (fold_left (addSample arrs) ns s) = length ns + count s.
Proof.
  revert s. induction ns as [|n ns IH]; intros s; simpl; [reflexivity|].
  rewrite IH. simpl. lia.
Qed.

(** *** The shortlist *)

Section Shortlist.

Variables (pal : list PaletteLab.t) (Lr ar br : R).

Local Abbreviation base := (baseOf pal Lr ar br).
Local Abbreviation held := (slotFilled pal Lr ar br).
Local Abbreviation inv := (shortlistInv pal Lr ar br).

Lemma worstSlot_bound (ts : list (ext R)) : fst (worstSlot ts) < K_SHORTLIST.
Proof.
  unfold worstSlot.
  apply (fold_left_inv (worstStep ts) (fun w => fst w < K_SHORTLIST)).
  - intros w k Hk Hw. apply in_seq in Hk. unfold worstStep.
    destruct (xgt _ _); [cbn [fst]; lia|assumption].
  - unfold K_SHORTLIST. cbn [fst]. lia.
Qed.

Lemma idxAt_insert (l : list Z) (i k : nat) (v : Z) :
  i < length l -> idxAt (<[i := v]> l) k = if decide (k = i) then v else idxAt l k.
Proof.
  intros Hi. unfold idxAt. destruct (decide (k = i)) as [->|Hne].
  - rewrite list_lookup_insert_eq by assumption. reflexivity.
  - rewrite list_lookup_insert_ne by congruence. reflexivity.
Qed.

Lemma scoreAt_insert (l : list (ext R)) (i k : nat) (v : ext R) :
  i < length l -> scoreAt (<[i := v]> l) k = if decide (k = i) then v else scoreAt l k.
Proof.
  intros Hi. unfold scoreAt. destruct (decide (k = i)) as [->|Hne].
  - rewrite list_lookup_insert_eq by assumption. reflexivity.
  - rewrite list_lookup_insert_ne by congruence. reflexivity.
Qed.

Lemma slotFilled_mono (n n' : nat) (sl : Shortlist) (k : nat) :
  n <= n' -> held n sl k -> held n' sl k.
Proof. intros Hn (pi & Hpi & Hidx & Hsc). exists pi. split; [lia|auto]. Qed.

Lemma shortlistStep_cases (sl : Shortlist) (pi : nat) :
  shortlistStep pal Lr ar br sl pi = sl
  \/ exists wk, wk < K_SHORTLIST
       /\ shortlistStep pal Lr ar br sl pi =
          mkShortlist (<[wk := toInt16 (Z.of_nat pi)]> (topIdx sl))
            (<[wk := Finite (fround (base pi))]> (topScore sl)).
Proof.
  unfold shortlistStep. pose proof (worstSlot_bound (topScore sl)) as Hwk.
  destruct (worstSlot (topScore sl)) as [wk wv]. cbn [fst] in Hwk.
  destruct (xlt _ wv); [right; exists wk; split; [assumption|reflexivity]|left; reflexivity].
Qed.

Lemma shortlistStep_inv (n : nat) (sl : Shortlist) :
  inv n sl -> inv (S n) (shortlistStep pal Lr ar br sl n).
Proof.
  intros (HlenI & HlenS & Hslots & Hzero).
  destruct (shortlistStep_cases sl n) as [->|(wk & Hwk & ->)].
  - repeat split; try assumption.
    + intros k Hk. destruct (Hslots k Hk) as [He|Hf]; [left; assumption|].
      right. apply (slotFilled_mono n); [lia|assumption].
    + apply (slotFilled_mono n); [lia|assumption].
  - assert (Hslot : forall k,
        (k = wk -> held (S n)
           (mkShortlist (<[wk := toInt16 (Z.of_nat n)]> (topIdx sl))
              (<[wk := Finite (fround (base n))]> (topScore sl))) k)
        /\ (k <> wk -> held n sl k -> held (S n)
              (mkShortlist (<[wk := toInt16 (Z.of_nat n)]> (topIdx sl))
                 (<[wk := Finite (fround (base n))]> (topScore sl))) k)
        /\ (k <> wk -> slotEmpty sl k -> slotEmpty
              (mkShortlist (<[wk := toInt16 (Z.of_nat n)]> (topIdx sl))
                 (<[wk := Finite (fround (base n))]> (topScore sl))) k)).
    { intros k. unfold slotFilled, slotEmpty. cbn [topIdx topScore].
      rewrite idxAt_insert, scoreAt_insert by lia.
      destruct (decide (k = wk)) as [->|Hne]; repeat split; try tauto.
      - intros _. exists n. split; [lia|auto].
      - intros _ (pi & Hpi & Hi & Hs). exists pi. split; [lia|auto]. }
    unfold shortlistInv. cbn [topIdx topScore]. rewrite !length_insert.
    repeat split; try assumption.
    + intros k Hk. destruct (Hslot k) as (Hat & Hkeep & Hkeep').
      destruct (decide (k = wk)) as [E|Hne]; [right; exact (Hat E)|].
      destruct (Hslots k Hk) as [He|Hf]; [left; exact (Hkeep' Hne He)|].
      right. exact (Hkeep Hne Hf).
    + destruct (Hslot 0) as (Hat & Hkeep & _).
      destruct (decide (0 = wk)) as [E|Hne]; [exact (Hat E)|exact (Hkeep Hne Hzero)].
Qed.

Lemma shortlist_inv_from (m start : nat) (sl : Shortlist) :
  inv start sl ->
  inv (start + m) (fold_left (shortlistStep pal Lr ar br) (seq start m) sl).
Proof.
  revert start sl. induction m as [|m IH]; intros start sl Hinv; simpl.
  - replace (start + 0) with start by lia. assumption.
  - replace (start + S m) with (S start + m) by lia.
    apply IH. apply shortlistStep_inv. assumption.
Qed.

(** The first entry always enters slot 0 of the empty shortlist. *)
Lemma shortlist_first :
  shortlistStep pal Lr ar br emptyShortlist 0 =
  mkShortlist (<[0 := toInt16 0]> (replicate K_SHORTLIST (-1)%Z))
    (<[0 := Finite (fround (base 0))]> (replicate K_SHORTLIST PosInf)).
Proof. reflexivity. Qed.

Lemma shortlist_inv : 1 <= length pal -> inv (length pal) (shortlist pal Lr ar br).
Proof.
  intros Hlen. unfold shortlist.
  destruct (length pal) as [|m]; [lia|].
  cbn [seq fold_left]. rewrite shortlist_first.
  apply (shortlist_inv_from m 1).
  unfold shortlistInv. cbn [topIdx topScore]. rewrite !length_insert, !length_replicate.
  assert (Hzero : held 1
            (mkShortlist (<[0 := toInt16 0]> (replicate K_SHORTLIST (-1)%Z))
               (<[0 := Finite (fround (base 0))]> (replicate K_SHORTLIST PosInf))) 0).
  { exists 0. split; [lia|]. split; reflexivity. }
  repeat split; try assumption.
  intros k Hk. destruct k as [|k]; [right; assumption|].
  left. unfold slotEmpty, idxAt, scoreAt. cbn [topIdx topScore].
  rewrite !list_lookup_insert_ne by lia.
  rewrite !lookup_replicate_2 by (unfold K_SHORTLIST in *; lia). split; reflexivity.
Qed.

End Shortlist.

(** *** The refinement pass *)

Lemma xlt_Finite_PosInf (u : R) : xlt (Finite u) PosInf = true.
Proof. reflexivity. Qed.

Lemma xlt_irrefl (s : ext R) : xlt s s = false.
Proof.
  destruct s as [|u]; [reflexivity|]. unfold xlt, xgt.
  destruct (Rlt_dec u u); [lra|reflexivity].
Qed.

Lemma xlt_below (s t u : ext R) : xlt s t = true -> xlt u t = false -> xlt u s = false.
Proof.
  unfold xlt, xgt. destruct s as [|s], t as [|t], u as [|u];
    repeat match goal with
    | |- context [Rlt_dec ?p ?q] => destruct (Rlt_dec p q)
    end; intros; try discriminate; try reflexivity; lra.
Qed.

Lemma xlt_Finite (u v : R) : xlt (Finite u) (Finite v) = false <-> (v <= u)%R.
Proof.
  unfold xlt, xgt. destruct (Rlt_dec u v); split; intros;
    try discriminate; try reflexivity; lra.
Qed.

Lemma adjustedCost_spec (Lr ar br hWeight base : R) (pcol : PaletteLab.t) :
  base = deltaE00 Lr ar br (PaletteLab.L pcol) (PaletteLab.a pcol) (PaletteLab.b pcol) ->
  adjustedCost Lr ar br (hypot ar br) hWeight pcol (Finite base)
  = Finite (specCost Lr ar br hWeight pcol).
Proof. intros ->. reflexivity. Qed.

Lemma adjustedCost_stored (Lr ar br hWeight base : R) (pcol : PaletteLab.t) :
  base = fround (deltaE00 Lr ar br (PaletteLab.L pcol) (PaletteLab.a pcol)
                   (PaletteLab.b pcol)) ->
  adjustedCost Lr ar br (hypot ar br) hWeight pcol (Finite base)
  = Finite (storedCost Lr ar br hWeight pcol).
Proof. intros ->. reflexivity. Qed.

Section Refine.

Variables (pal : list PaletteLab.t) (Lr ar br Cr hWeight : R) (sl : Shortlist).

Local Abbreviation cost := (slotCost pal Lr ar br Cr hWeight sl).
Local Abbreviation inv := (refineInv pal Lr ar br Cr hWeight sl).

Lemma refineStep_inv (n : nat) (best : Z * ext R) :
  inv n best -> inv (S n) (refineStep pal Lr ar br Cr hWeight sl best n).
Proof.
  intros (kb & Hkb & Hidx & -> & Hmin). unfold refineStep. fold (cost n).
  destruct (Z.ltb_spec (idxAt (topIdx sl) n) 0) as [Hneg|Hpos].
  - exists kb. repeat split; [lia|assumption|].
    intros k Hk Hk0. destruct (decide (k = n)) as [->|Hne]; [lia|].
    apply Hmin; [lia|assumption].
  - cbn [snd]. destruct (xlt (cost n) (cost kb)) eqn:Hlt.
    + exists n. repeat split; [lia|assumption|].
      intros k Hk Hk0. destruct (decide (k = n)) as [->|Hne]; [apply xlt_irrefl|].
      apply (xlt_below _ (cost kb)); [assumption|]. apply Hmin; [lia|assumption].
    + exists kb. repeat split; [lia|assumption|].
      intros k Hk Hk0. destruct (decide (k = n)) as [->|Hne]; [assumption|].
      apply Hmin; [lia|assumption].
Qed.

Lemma refine_inv_from (m start : nat) (best : Z * ext R) :
  inv start best ->
  inv (start + m)
    (fold_left (refineStep pal Lr ar br Cr hWeight sl) (seq start m) best).
Proof.
  revert start best. induction m as [|m IH]; intros start best Hinv; simpl.
  - replace (start + 0) with start by lia. assumption.
  - replace (start + S m) with (S start + m) by lia.
    apply IH. apply refineStep_inv. assumption.
Qed.

Lemma refine_inv (c : R) :
  (0 <= idxAt (topIdx sl) 0)%Z -> cost 0 = Finite c ->
  inv K_SHORTLIST (refine pal Lr ar br Cr hWeight sl).
Proof.
  intros Hidx Hcost. unfold refine, K_SHORTLIST. cbn [seq fold_left].
  apply (refine_inv_from 7 1).
  unfold refineStep. fold (cost 0).
  destruct (Z.ltb_spec (idxAt (topIdx sl) 0) 0) as [Hneg|_]; [lia|].
  cbn [snd]. rewrite Hcost, xlt_Finite_PosInf.
  exists 0. repeat split; [lia|assumption|rewrite Hcost; reflexivity|].
  intros k Hk _. assert (k = 0) as -> by lia. apply xlt_irrefl.
Qed.

End Refine.

(** *** The main loop *)

Lemma mapStep_cases (arrs : LabArrays) (pal : list PaletteLab.t) (w h y x : nat) (d : list Z) :
  (byteAt d ((y * w + x) * 4 + 3) = 0%Z /\ mapStep arrs pal w h y d x = d)
  \/ (byteAt d ((y * w + x) * 4 + 3) <> 0%Z
      /\ mapStep arrs pal w h y d x =
         setPixel d ((y * w + x) * 4)
           (storeByte (Some (PaletteLab.r (bestEntry arrs pal w h x y))))
           (storeByte (Some (PaletteLab.g (bestEntry arrs pal w h x y))))
           (storeByte (Some (PaletteLab.b8 (bestEntry arrs pal w h x y))))
           (storeByte (Some (PaletteLab.a8 (bestEntry arrs pal w h x y))))).
Proof.
  unfold mapStep, RGBA_STRIDE, CHANNEL_A, TRANSPARENT_ALPHA.
  destruct (byteAt d ((y * w + x) * 4 + 3) =? 0)%Z eqn:E.
  - left. apply Z.eqb_eq in E. split; [assumption|reflexivity].
  - right. apply Z.eqb_neq in E. split; [assumption|reflexivity].
Qed.

Lemma byteAt_alpha (d : list Z) (k : nat) (r g b a : Z) :
  pixelAt d k = Some (r, g, b, a) -> byteAt d (k * 4 + 3) = a.
Proof.
  intros E. apply pixelAt_lookups in E as (_ & _ & _ & Ha).
  unfold byteAt. replace (k * 4 + 3) with (4 * k + 3) by lia. rewrite Ha. reflexivity.
Qed.

Lemma mapStep_other (arrs : LabArrays) (pal : list PaletteLab.t) (w h y x k : nat)
    (d : list Z) :
  y * w + x <> k -> pixelAt (mapStep arrs pal w h y d x) k = pixelAt d k.
Proof.
  intros Hk. destruct (mapStep_cases arrs pal w h y x d) as [[_ ->]|[_ ->]].
  - reflexivity.
  - apply pixelAt_setPixel_other. assumption.
Qed.

Lemma mapStep_transparent (arrs : LabArrays) (pal : list PaletteLab.t) (w h y x k : nat)
    (d : list Z) (r g b : Z) :
  pixelAt d k = Some (r, g, b, 0%Z) ->
  pixelAt (mapStep arrs pal w h y d x) k = Some (r, g, b, 0%Z).
Proof.
  intros Hpx. destruct (decide (y * w + x = k)) as [<-|Hne].
  - destruct (mapStep_cases arrs pal w h y x d) as [[_ ->]|[Ha _]]; [assumption|].
    rewrite (byteAt_alpha _ _ _ _ _ _ Hpx) in Ha. contradiction.
  - rewrite mapStep_other; assumption.
Qed.

(** The perceptual mapper leaves a pixel whose alpha is 0 as it is, also
    when it throws. *)
Lemma perceptual_transparent_unchanged (img : ImageData) (palette : list Z) (k : nat)
    (r g b : Z) :
  pixelAt (data img) k = Some (r, g, b, 0%Z) ->
  pixelAt (data (default img (mapImageDataToPalette img palette))) k = Some (r, g, b, 0%Z).
Proof.
  intros Hpx. unfold mapImageDataToPalette.
  destruct (length palette <? RGBA_STRIDE); [assumption|].
  destruct (negb _); [assumption|]. cbn [default data].
  apply (rows_inv _ _ _ (fun d => pixelAt d k = Some (r, g, b, 0%Z))); [|assumption].
  intros y x d _ _ Hd. apply mapStep_transparent. assumption.
Qed.

(** C4: under both mappers, a pixel whose alpha is 0 keeps its four
    channels, for every buffer and every palette. *)
Theorem transparent_pixels_unchanged (img : ImageData) (palette : list Z) (k : nat)
    (r g b : Z) :
  pixelAt (data img) k = Some (r, g, b, 0%Z) ->
  pixelAt (data (Classic.mapImageDataToPaletteClassic img palette)) k = Some (r, g, b, 0%Z)
  /\ pixelAt (data (default img (mapImageDataToPalette img palette))) k
     = Some (r, g, b, 0%Z).
Proof.
  intros Hpx. split.
  - apply ClassicProps.classic_transparent_unchanged. assumption.
  - apply perceptual_transparent_unchanged. assumption.
Qed.

(** *** The refinement pass on an image *)

Lemma toInt16_small (z : Z) : (0 <= z < 32768)%Z -> toInt16 z = z.
Proof. intros Hz. unfold toInt16. rewrite Z.mod_small; lia. Qed.

Lemma length_paletteLab (palette : list Z) (m : nat) :
  length palette = 4 * m -> length (paletteLab palette) = m.
Proof.
  intros Hlen. unfold paletteLab. rewrite Hlen, strideIndices_mul4.
  rewrite !length_map, length_seq. reflexivity.
Qed.

Lemma palAt_lookup (pal : list PaletteLab.t) (pi : nat) :
  pi < length pal -> pal !! pi = Some (palAt pal pi).
Proof.
  intros Hpi. unfold palAt.
  destruct (lookup_lt_is_Some_2 pal pi Hpi) as [e ->]. reflexivity.
Qed.

Lemma byteAt_isByte (l : list Z) (i : nat) : Forall isByte l -> isByte (byteAt l i).
Proof.
  intros Hl. unfold byteAt. destruct (l !! i) as [v|] eqn:E; cbn [default].
  - rewrite Forall_forall in Hl. apply Hl. eapply list_elem_of_lookup_2. eassumption.
  - unfold isByte. lia.
Qed.

Lemma palAt_bytes (palette : list Z) (pi : nat) :
  Forall isByte palette ->
  isByte (PaletteLab.r (palAt (paletteLab palette) pi))
  /\ isByte (PaletteLab.g (palAt (paletteLab palette) pi))
  /\ isByte (PaletteLab.b8 (palAt (paletteLab palette) pi))
  /\ isByte (PaletteLab.a8 (palAt (paletteLab palette) pi)).
Proof.
  intros Hbytes. unfold palAt, paletteLab. rewrite list_lookup_fmap.
  destruct (strideIndices (length palette) !! pi) as [p|]; cbn.
  - repeat split; apply byteAt_isByte; assumption.
  - unfold isByte. lia.
Qed.

Lemma shortlisted_slot (pal : list PaletteLab.t) (Lr ar br : R) (k : nat) :
  1 <= length pal -> (Z.of_nat (length pal) <= 32768)%Z -> k < K_SHORTLIST ->
  (0 <= idxAt (topIdx (shortlist pal Lr ar br)) k)%Z ->
  exists pi, pi < length pal
    /\ idxAt (topIdx (shortlist pal Lr ar br)) k = Z.of_nat pi
    /\ scoreAt (topScore (shortlist pal Lr ar br)) k
       = Finite (fround (baseOf pal Lr ar br pi)).
Proof.
  intros Hlen Hmax Hk Hidx.
  destruct (shortlist_inv pal Lr ar br ltac:(lia)) as (_ & _ & Hslots & _).
  destruct (Hslots k Hk) as [[He _]|(pi & Hpi & Hi & Hs)]; [lia|].
  exists pi. rewrite toInt16_small in Hi by lia. auto.
Qed.

Lemma shortlisted_first (pal : list PaletteLab.t) (Lr ar br : R) :
  1 <= length pal -> (Z.of_nat (length pal) <= 32768)%Z ->
  (0 <= idxAt (topIdx (shortlist pal Lr ar br)) 0)%Z.
Proof.
  intros Hlen Hmax.
  destruct (shortlist_inv pal Lr ar br ltac:(lia)) as (_ & _ & _ & (pi & Hpi & Hi & _)).
  rewrite toInt16_small in Hi by lia. lia.
Qed.

Lemma pixelLab_opaque (d : list Z) (idx : nat) (r g b a : Z) :
  pixelAt d idx = Some (r, g, b, a) -> a <> 0%Z ->
  pixelLab d idx
  = mkLab (fround (Lab.L (rgbToLab (IZR r) (IZR g) (IZR b))))
      (fround (Lab.a (rgbToLab (IZR r) (IZR g) (IZR b))))
      (fround (Lab.b (rgbToLab (IZR r) (IZR g) (IZR b)))).
Proof.
  intros Hpx Ha. pose proof (byteAt_alpha d idx r g b a Hpx) as Halpha.
  apply pixelAt_lookups in Hpx as (Hr & Hg & Hb & _).
  unfold pixelLab. rewrite Halpha.
  destruct (Z.eqb_spec a 0); [contradiction|].
  unfold byteAt.
  replace (idx * 4 + 0) with (4 * idx) by lia.
  replace (idx * 4 + 1) with (4 * idx + 1) by lia.
  replace (idx * 4 + 2) with (4 * idx + 2) by lia.
  rewrite Hr, Hg, Hb. reflexivity.
Qed.

Lemma pixelLab_transparent (d : list Z) (idx : nat) (r g b : Z) :
  pixelAt d idx = Some (r, g, b, 0%Z) -> pixelLab d idx = mkLab 0 0 0.
Proof.
  intros Hpx. unfold pixelLab. rewrite (byteAt_alpha d idx r g b 0 Hpx). reflexivity.
Qed.

(** The pixel written by the main loop at [(x, y)]. *)
Lemma perceptual_pixel_final (img : ImageData) (palette : list Z) (m x y : nat)
    (px : Z * Z * Z * Z) :
  length palette = 4 * m -> 1 <= m -> Forall isByte palette ->
  x < width img -> y < height img ->
  pixelAt (data img) (y * width img + x) = Some px -> px.2 <> 0%Z ->
  exists img',
    mapImageDataToPalette img palette = Some img'
    /\ pixelAt (data img') (y * width img + x) =
       let best := bestEntry (labArrays (data img) (width img) (height img))
                     (paletteLab palette) (width img) (height img) x y in
       Some (PaletteLab.r best, PaletteLab.g best, PaletteLab.b8 best, PaletteLab.a8 best).
Proof.
  intros Hlen Hm Hbytes Hx Hy Hpx Ha.
  unfold mapImageDataToPalette, RGBA_STRIDE.
  destruct (Nat.ltb_spec (length palette) 4) as [Hshort|_]; [lia|].
  replace (length palette mod 4) with 0
    by (rewrite Hlen, Nat.mul_comm, Nat.Div0.mod_mul; reflexivity).
  cbn [Nat.eqb negb]. eexists. split; [reflexivity|]. cbn [data].
  set (arrs := labArrays (data img) (width img) (height img)).
  set (pal := paletteLab palette).
  set (idx := y * width img + x).
  destruct px as [[[r g] b] a]. cbn [snd] in Ha.
  apply (rows_at (mapStep arrs pal (width img) (height img)) (width img) (height img)
           (fun d => pixelAt d idx = Some (r, g, b, a))
           (fun d => pixelAt d idx =
                     Some (PaletteLab.r (bestEntry arrs pal (width img) (height img) x y),
                           PaletteLab.g (bestEntry arrs pal (width img) (height img) x y),
                           PaletteLab.b8 (bestEntry arrs pal (width img) (height img) x y),
                           PaletteLab.a8 (bestEntry arrs pal (width img) (height img) x y)))
           x y); try assumption.
  - intros y' x' d Hy' Hx' Hne Hd. rewrite mapStep_other; [assumption|].
    intros E. apply Hne. apply (index_injective (width img)); assumption.
  - intros d Hd. pose proof (pixelAt_length d idx _ Hd) as Hdlen.
    destruct (mapStep_cases arrs pal (width img) (height img) y x d) as [[H0 _]|[_ ->]].
    { fold idx in H0. rewrite (byteAt_alpha d idx r g b a Hd) in H0. contradiction. }
    fold idx.
    destruct (palAt_bytes palette
                (Z.to_nat (fst (refine pal
                   (realAt (Larr arrs) idx) (realAt (Aarr arrs) idx) (realAt (Barr arrs) idx)
                   (hypot (realAt (Aarr arrs) idx) (realAt (Barr arrs) idx))
                   (hueWeightAt arrs (width img) (height img) (Z.of_nat x) (Z.of_nat y))
                   (shortlist pal (realAt (Larr arrs) idx) (realAt (Aarr arrs) idx)
                      (realAt (Barr arrs) idx))))) Hbytes) as (Br & Bg & Bb & Ba).
    fold pal in Br, Bg, Bb, Ba.
    unfold bestEntry. fold idx.
    rewrite !storeByte_isByte by assumption.
    apply pixelAt_setPixel_same. lia.
  - intros y' x' d Hy' Hx' Hne Hd. rewrite mapStep_other; [assumption|].
    intros E. apply Hne. apply (index_injective (width img)); assumption.
Qed.

(** X24: for a pixel that is not fully transparent and a palette of at most
    32768 entries, every slot of the shortlist is either empty or holds a
    palette entry under its own index, with the float32 of its raw
    CIEDE2000 distance from the stored CIELAB of the pixel, and the adjusted
    cost the refinement pass computes for it is that stored distance plus
    the two ramp penalties, the gated hue penalty and the gated neutral bias
    ([storedCost]); the entry written to the pixel, alpha included, is one
    of the shortlisted entries and no other has a smaller adjusted cost. *)
Theorem refinement_cost_and_choice (img : ImageData) (palette : list Z) (m x y : nat)
    (r g b a : Z) :
  length palette = 4 * m -> 1 <= m -> (Z.of_nat m <= 32768)%Z -> Forall isByte palette ->
  x < width img -> y < height img ->
  pixelAt (data img) (y * width img + x) = Some (r, g, b, a) -> a <> 0%Z ->
  let pal := paletteLab palette in
  let lab := rgbToLab (IZR r) (IZR g) (IZR b) in
  let Lr := fround (Lab.L lab) in
  let ar := fround (Lab.a lab) in
  let br := fround (Lab.b lab) in
  let hWeight :=
    hueWeightAt (labArrays (data img) (width img) (height img)) (width img) (height img)
      (Z.of_nat x) (Z.of_nat y) in
  let sl := shortlist pal Lr ar br in
  let cost := fun k =>
    adjustedCost Lr ar br (hypot ar br) hWeight
      (palAt pal (Z.to_nat (idxAt (topIdx sl) k))) (scoreAt (topScore sl) k) in
  (forall k, k < K_SHORTLIST ->
     slotEmpty sl k
     \/ exists pi pcol,
          pi < m /\ idxAt (topIdx sl) k = Z.of_nat pi /\ pal !! pi = Some pcol
          /\ scoreAt (topScore sl) k
             = Finite (fround (deltaE00 Lr ar br
                                 (PaletteLab.L pcol) (PaletteLab.a pcol) (PaletteLab.b pcol)))
          /\ cost k = Finite (storedCost Lr ar br hWeight pcol))
  /\ exists kb best img',
       kb < K_SHORTLIST /\ (0 <= idxAt (topIdx sl) kb)%Z
       /\ pal !! Z.to_nat (idxAt (topIdx sl) kb) = Some best
       /\ (forall k pcol, k < K_SHORTLIST -> (0 <= idxAt (topIdx sl) k)%Z ->
             pal !! Z.to_nat (idxAt (topIdx sl) k) = Some pcol ->
             (storedCost Lr ar br hWeight best <= storedCost Lr ar br hWeight pcol)%R)
       /\ mapImageDataToPalette img palette = Some img'
       /\ pixelAt (data img') (y * width img + x)
          = Some (PaletteLab.r best, PaletteLab.g best, PaletteLab.b8 best,
                  PaletteLab.a8 best).
Proof.
  intros Hlen Hm Hmax Hbytes Hx Hy Hpx Ha pal lab Lr ar br hWeight sl cost.
  pose proof (length_paletteLab palette m Hlen) as Hpal. fold pal in Hpal.
  assert (Hslot : forall k, k < K_SHORTLIST -> (0 <= idxAt (topIdx sl) k)%Z ->
            exists pi, pi < length pal /\ Z.to_nat (idxAt (topIdx sl) k) = pi
              /\ pal !! pi = Some (palAt pal pi)
              /\ cost k = Finite (storedCost Lr ar br hWeight (palAt pal pi))).
  { intros k Hk Hidx.
    destruct (shortlisted_slot pal Lr ar br k ltac:(lia) ltac:(lia) Hk Hidx)
      as (pi & Hpi & Hi & Hs).
    exists pi. fold sl in Hi, Hs. subst cost. cbv beta.
    rewrite Hi, Hs, Nat2Z.id.
    split; [assumption|]. split; [reflexivity|].
    split; [apply palAt_lookup; assumption|].
    apply adjustedCost_stored. reflexivity. }
  split.
  - intros k Hk.
    destruct (shortlist_inv pal Lr ar br ltac:(lia)) as (_ & _ & Hslots & _).
    destruct (Hslots k Hk) as [He|(pi & Hpi & Hi & Hs)]; [left; exact He|right].
    rewrite toInt16_small in Hi by lia. fold sl in Hi, Hs.
    exists pi, (palAt pal pi).
    split; [lia|]. split; [exact Hi|]. split; [apply palAt_lookup; assumption|].
    split; [exact Hs|].
    subst cost. cbv beta. rewrite Hi, Hs, Nat2Z.id. apply adjustedCost_stored. reflexivity.
  - destruct (perceptual_pixel_final img palette m x y (r, g, b, a)
                Hlen Hm Hbytes Hx Hy Hpx Ha) as (img' & Himg & Hout).
    assert (Hidx : y * width img + x < width img * height img) by nia.
    destruct (labArrays_lookup (data img) (width img) (height img) _ Hidx)
      as (EL & EA & EB).
    rewrite (pixelLab_opaque _ _ r g b a Hpx Ha) in EL, EA, EB.
    cbn [Lab.L Lab.a Lab.b] in EL, EA, EB.
    cbv zeta in Hout. unfold bestEntry in Hout. rewrite EL, EA, EB in Hout.
    fold lab in Hout. fold Lr ar br in Hout. fold pal hWeight sl in Hout.
    assert (H0 : (0 <= idxAt (topIdx sl) 0)%Z).
    { apply shortlisted_first; lia. }
    destruct (Hslot 0 ltac:(unfold K_SHORTLIST; lia) H0) as (pi0 & _ & _ & _ & Hc0).
    destruct (refine_inv pal Lr ar br (hypot ar br) hWeight sl _ H0 Hc0)
      as (kb & Hkb & Hidxb & Hbest & Hmin).
    rewrite Hbest in Hout. cbn [fst] in Hout.
    destruct (Hslot kb Hkb Hidxb) as (pib & _ & Eb & Hlb & Hcb).
    rewrite Eb in Hout.
    exists kb, (palAt pal pib), img'.
    repeat split; try assumption.
    + rewrite Eb. assumption.
    + intros k pcol Hk Hidxk Hlk.
      destruct (Hslot k Hk Hidxk) as (pik & _ & Ek & Hlk' & Hck).
      rewrite Ek, Hlk' in Hlk. inversion Hlk; subst pcol.
      specialize (Hmin k Hk Hidxk). unfold slotCost in Hmin.
      fold (cost k) in Hmin. fold (cost kb) in Hmin.
      rewrite Hck, Hcb in Hmin. apply xlt_Finite in Hmin. exact Hmin.
Qed.

End Float32Store.

#[local] Existing Instance exactFloat32.

Lemma transparent_pixels_unchanged_witness :
  pixelAt (data (Classic.mapImageDataToPaletteClassic
                   (mkImageData 2 1 [10; 10; 10; 255; 200; 100; 50; 0]%Z)
                   [0; 0; 0; 255; 255; 255; 255; 255]%Z)) 1
  = Some (200, 100, 50, 0)%Z
  /\ pixelAt (data (default (mkImageData 2 1 [10; 10; 10; 255; 200; 100; 50; 0]%Z)
                      (mapImageDataToPalette
                         (mkImageData 2 1 [10; 10; 10; 255; 200; 100; 50; 0]%Z)
                         [0; 0; 0; 255; 255; 255; 255; 255]%Z))) 1
     = Some (200, 100, 50, 0)%Z.
Proof.
  apply (transparent_pixels_unchanged
           (mkImageData 2 1 [10; 10; 10; 255; 200; 100; 50; 0]%Z)
           [0; 0; 0; 255; 255; 255; 255; 255]%Z 1 200 100 50).
  reflexivity.
Defined.

Lemma refinement_cost_and_choice_witness :
  let img := mkImageData 1 1 [10; 20; 30; 255]%Z in
  let palette := [0; 0; 0; 255; 255; 255; 255; 255]%Z in
  let pal := paletteLab palette in
  let lab := rgbToLab (IZR 10) (IZR 20) (IZR 30) in
  let Lr := fround (Lab.L lab) in
  let ar := fround (Lab.a lab) in
  let br := fround (Lab.b lab) in
  let hWeight := hueWeightAt (labArrays (data img) 1 1) 1 1 0%Z 0%Z in
  let sl := shortlist pal Lr ar br in
  let cost := fun k =>
    adjustedCost Lr ar br (hypot ar br) hWeight
      (palAt pal (Z.to_nat (idxAt (topIdx sl) k))) (scoreAt (topScore sl) k) in
  (forall k, k < K_SHORTLIST ->
     slotEmpty sl k
     \/ exists pi pcol,
          pi < 2 /\ idxAt (topIdx sl) k = Z.of_nat pi /\ pal !! pi = Some pcol
          /\ scoreAt (topScore sl) k
             = Finite (fround (deltaE00 Lr ar br
                                 (PaletteLab.L pcol) (PaletteLab.a pcol) (PaletteLab.b pcol)))
          /\ cost k = Finite (storedCost Lr ar br hWeight pcol))
  /\ exists kb best img',
       kb < K_SHORTLIST /\ (0 <= idxAt (topIdx sl) kb)%Z
       /\ pal !! Z.to_nat (idxAt (topIdx sl) kb) = Some best
       /\ (forall k pcol, k < K_SHORTLIST -> (0 <= idxAt (topIdx sl) k)%Z ->
             pal !! Z.to_nat (idxAt (topIdx sl) k) = Some pcol ->
             (storedCost Lr ar br hWeight best <= storedCost Lr ar br hWeight pcol)%R)
       /\ mapImageDataToPalette img palette = Some img'
       /\ pixelAt (data img') 0
          = Some (PaletteLab.r best, PaletteLab.g best, PaletteLab.b8 best,
                  PaletteLab.a8 best).
Proof.
  apply (refinement_cost_and_choice (mkImageData 1 1 [10; 20; 30; 255]%Z)
           [0; 0; 0; 255; 255; 255; 255; 255]%Z 2 0 0 10 20 30 255).
  - reflexivity.
  - lia.
  - lia.
  - repeat constructor; unfold isByte; lia.
  - cbn. lia.
  - cbn. lia.
  - reflexivity.
  - lia.
Defined.

End PerceptualProps.

(** ** A transparent neighbour changes the chosen colour *)

Module HueWeightExample.

Import Js Image Lab Perceptual Invariants Examples ImageProps LabProps PerceptualProps.
Local Open Scope R_scope.

Lemma sqrt_between (x lo hi : R) :
  0 <= lo -> 0 <= hi -> lo * lo <= x -> x <= hi * hi -> lo <= sqrt x <= hi.
Proof.
  intros Hlo Hhi H1 H2. split.
  - rewrite <- (sqrt_square lo Hlo). apply sqrt_le_1; nra.
  - rewrite <- (sqrt_square hi Hhi). apply sqrt_le_1; nra.
Qed.

Lemma srgbToLinearComponent_dark (c : R) :
  0 <= c <= 10 -> srgbToLinearComponent c = c / 255 / 12.92.
Proof.
  intros Hc. unfold srgbToLinearComponent. cbv zeta.
  destruct (Rle_dec (c / 255) 0.04045) as [_|Hn]; [reflexivity|]. exfalso. lra.
Qed.

Lemma rgbToLab_dark (r g b : R) :
  0 <= r <= 10 -> 0 <= g <= 10 -> 0 <= b <= 10 -> rgbToLab r g b = darkLab r g b.
Proof.
  intros Hr Hg Hb. unfold rgbToLab, rgbToXyz, xyzToLab. cbv zeta. cbn [x y z].
  rewrite !srgbToLinearComponent_dark by assumption.
  repeat match goal with
  | |- context [Rlt_dec ?p ?q] => destruct (Rlt_dec p q) as [Hlt|_]; [exfalso; lra|]
  end.
  unfold darkLab. f_equal; lra.
Qed.

Lemma srgbToLinearComponent_255 : srgbToLinearComponent 255 = 1.
Proof.
  unfold srgbToLinearComponent. cbv zeta.
  destruct (Rle_dec (255 / 255) 0.04045) as [Hle|_]; [exfalso; lra|].
  replace ((255 / 255 + 0.055) / 1.055) with 1 by lra.
  unfold Rpower. rewrite ln_1, Rmult_0_r. apply exp_0.
Qed.

Lemma cbrt_cube (u : R) : 0 < u -> cbrt (u * u * u) = u.
Proof.
  intros Hu. unfold cbrt.
  destruct (Rlt_dec 0 (u * u * u)) as [_|Hn].
  2: { exfalso. apply Hn. repeat apply Rmult_lt_0_compat; assumption. }
  replace (u * u * u) with (u ^ 3) by ring.
  rewrite <- (Rpower_pow 3 u Hu), Rpower_mult.
  replace (INR 3 * (1 / 3)) with 1 by (simpl; lra).
  apply Rpower_1. assumption.
Qed.

Lemma cbrt_le (s t : R) : 0 < s -> s <= t -> cbrt s <= cbrt t.
Proof.
  intros Hs Hst. unfold cbrt.
  destruct (Rlt_dec 0 s) as [_|Hn]; [|contradiction].
  destruct (Rlt_dec 0 t) as [_|Hn]; [|exfalso; lra].
  apply Rle_Rpower_l; lra.
Qed.

Lemma rgbToLab_red_a : 50 <= Lab.a (rgbToLab 255 0 0).
Proof.
  unfold rgbToLab, rgbToXyz, xyzToLab. cbv zeta. cbn [x y z Lab.a].
  rewrite srgbToLinearComponent_255, (srgbToLinearComponent_dark 0) by lra.
  repeat match goal with
  | |- context [Rlt_dec ?p ?q] => destruct (Rlt_dec p q) as [_|Hn]; [|exfalso; lra]
  end.
  assert (H1 : 0.7 <= cbrt ((0.4124564 * 1 + 0.3575761 * (0 / 255 / 12.92)
                             + 0.1804375 * (0 / 255 / 12.92)) / 0.95047)).
  { rewrite <- (cbrt_cube 0.7) at 1 by lra. apply cbrt_le; lra. }
  assert (H2 : cbrt ((0.2126729 * 1 + 0.7151522 * (0 / 255 / 12.92)
                      + 0.072175 * (0 / 255 / 12.92)) / 1.0) <= 0.6).
  { rewrite <- (cbrt_cube 0.6) at 1 by lra. apply cbrt_le; lra. }
  lra.
Qed.

Lemma hueWeightAt_pair (arrs : LabArrays) :
  hueWeightAt arrs 2 1 0 0 =
  1 - Rmin 1 (sqrt (((realAt (Aarr arrs) 0 - realAt (Aarr arrs) 1)
                     * (realAt (Aarr arrs) 0 - realAt (Aarr arrs) 1)
                     + (realAt (Barr arrs) 0 - realAt (Barr arrs) 1)
                       * (realAt (Barr arrs) 0 - realAt (Barr arrs) 1)) / 4) / 5).
Proof.
  unfold hueWeightAt. rewrite hueSums_neighbours.
  change (neighbours 2 1 0 0) with [0%nat; 1%nat].
  cbn [fold_left addSample sumA sumB sumAA sumBB count Nat.eqb].
  set (A0 := realAt (Aarr arrs) 0). set (A1 := realAt (Aarr arrs) 1).
  set (B0 := realAt (Barr arrs) 0). set (B1 := realAt (Barr arrs) 1).
  cbv zeta. unfold HUE_SIGMA_SCALE_LAB.
  replace (INR 2) with 2 by (simpl; lra).
  replace ((0 + A0 * A0 + A1 * A1) / 2 - (0 + A0 + A1) / 2 * ((0 + A0 + A1) / 2))
    with ((A0 - A1) * (A0 - A1) / 4) by field.
  replace ((0 + B0 * B0 + B1 * B1) / 2 - (0 + B0 + B1) / 2 * ((0 + B0 + B1) / 2))
    with ((B0 - B1) * (B0 - B1) / 4) by field.
  rewrite !Rmax_right by (pose proof (Rle_0_sqr (A0 - A1)); pose proof (Rle_0_sqr (B0 - B1));
                          unfold Rsqr in *; lra).
  replace 5.0 with 5 by lra.
  do 4 f_equal. lra.
Qed.

Lemma hypot_nonneg (x y : R) : 0 <= hypot x y.
Proof. apply sqrt_pos. Qed.

Lemma hypot_sqr (x y : R) : hypot x y * hypot x y = x * x + y * y.
Proof. unfold hypot. apply sqrt_sqrt. nra. Qed.

Lemma hypot_scale (a t : R) : 0 < a -> hypot a (t * a) = a * sqrt (1 + t²).
Proof.
  intros Ha. unfold hypot, Rsqr.
  replace (a * a + t * a * (t * a)) with ((a * a) * (1 + t * t)) by ring.
  rewrite sqrt_mult by nra. rewrite sqrt_square by lra. reflexivity.
Qed.

Lemma sqrt_1_sqr_pos (t : R) : 0 < sqrt (1 + t²).
Proof. apply sqrt_lt_R0. pose proof (Rle_0_sqr t). lra. Qed.

Lemma atan2_cos_sin (b a : R) :
  cos (atan2 b a) * hypot a b = a /\ sin (atan2 b a) * hypot a b = b.
Proof.
  unfold atan2.
  destruct (Rlt_dec 0 a) as [Hpos|Hnpos].
  - replace b with (b / a * a) at 2 4 by (field; lra).
    rewrite hypot_scale by assumption.
    rewrite cos_atan, sin_atan. pose proof (sqrt_1_sqr_pos (b / a)).
    split; field; lra.
  - destruct (Rlt_dec a 0) as [Hneg|Hnneg].
    + assert (Hh : hypot a b = - a * sqrt (1 + (b / a)²)).
      { replace (hypot a b) with (hypot (- a) (- (b / a) * - a)).
        - rewrite hypot_scale by lra. do 2 f_equal. unfold Rsqr. ring.
        - unfold hypot. f_equal. field. lra. }
      rewrite Hh. pose proof (sqrt_1_sqr_pos (b / a)).
      destruct (Rle_dec 0 b).
      * rewrite neg_cos, neg_sin, cos_atan, sin_atan. split; field; lra.
      * replace (atan (b / a) - PI) with (atan (b / a) + PI - 2 * INR 1 * PI)
          by (simpl; ring).
        replace (cos (atan (b / a) + PI - 2 * INR 1 * PI)) with (cos (atan (b / a) + PI)).
        2: { rewrite <- (cos_period (atan (b / a) + PI - 2 * INR 1 * PI) 1).
             f_equal. ring. }
        replace (sin (atan (b / a) + PI - 2 * INR 1 * PI)) with (sin (atan (b / a) + PI)).
        2: { rewrite <- (sin_period (atan (b / a) + PI - 2 * INR 1 * PI) 1).
             f_equal. ring. }
        rewrite neg_cos, neg_sin, cos_atan, sin_atan. split; field; lra.
    + assert (a = 0) as -> by lra.
      assert (Hh : forall v, 0 <= v -> hypot 0 v = v).
      { intros v Hv. unfold hypot. replace (0 * 0 + v * v) with (v * v) by ring.
        apply sqrt_square. assumption. }
      destruct (Rlt_dec 0 b).
      * rewrite cos_PI2, sin_PI2, Hh by lra. lra.
      * destruct (Rlt_dec b 0).
        -- rewrite cos_neg, sin_neg, cos_PI2, sin_PI2.
           replace (hypot 0 b) with (hypot 0 (- b)).
           ++ rewrite Hh by lra. lra.
           ++ unfold hypot. f_equal. ring.
        -- assert (b = 0) as -> by lra. rewrite cos_0, sin_0, Hh by lra. lra.
Qed.

Lemma cos_Rabs (x : R) : cos (Rabs x) = cos x.
Proof. unfold Rabs. destruct (Rcase_abs x); [apply cos_neg|reflexivity]. Qed.

Lemma cos_deltaHue (a1 b1 a2 b2 : R) :
  cos (deltaHue a1 b1 a2 b2) = cos (atan2 b1 a1 - atan2 b2 a2).
Proof.
  unfold deltaHue, hueAngle. cbv zeta. rewrite cos_Rabs.
  set (dh := atan2 b1 a1 - atan2 b2 a2).
  assert (Hm : cos (dh - 2 * PI) = cos dh).
  { rewrite <- (cos_period (dh - 2 * PI) 1). f_equal. simpl. ring. }
  assert (Hp : forall v, cos (v + 2 * PI) = cos v).
  { intros v. rewrite <- (cos_period v 1). f_equal. simpl. ring. }
  destruct (Rlt_dec PI dh); destruct (Rlt_dec _ (- PI)); rewrite ?Hp, ?Hm; reflexivity.
Qed.

(** The cosine of the hue difference, without angles. *)
Lemma cos_deltaHue_dot (a1 b1 a2 b2 : R) :
  cos (deltaHue a1 b1 a2 b2) * (hypot a1 b1 * hypot a2 b2) = a1 * a2 + b1 * b2.
Proof.
  rewrite cos_deltaHue, cos_minus.
  destruct (atan2_cos_sin b1 a1) as [C1 S1]. destruct (atan2_cos_sin b2 a2) as [C2 S2].
  replace (a1 * a2 + b1 * b2)
    with (cos (atan2 b1 a1) * hypot a1 b1 * (cos (atan2 b2 a2) * hypot a2 b2)
          + sin (atan2 b1 a1) * hypot a1 b1 * (sin (atan2 b2 a2) * hypot a2 b2))
    by (rewrite C1, C2, S1, S2; reflexivity).
  ring.
Qed.

Lemma cos_deltaHue_origin (a1 b1 : R) :
  cos (deltaHue a1 b1 0 0) * hypot a1 b1 = a1.
Proof.
  rewrite cos_deltaHue.
  assert (atan2 0 0 = 0) as ->.
  { unfold atan2. destruct (Rlt_dec 0 0); [lra|]. reflexivity. }
  rewrite Rminus_0_r. apply atan2_cos_sin.
Qed.

Lemma Rabs_le_1_mult (u v : R) : Rabs v <= 1 -> Rabs (u * v) <= Rabs u.
Proof.
  intros Hv. rewrite Rabs_mult. pose proof (Rabs_pos u). nra.
Qed.

(** The distance is the root of the three squared terms plus the rotation
    term; the hue term is at most [2 sqrt (C1p C2p)] and the rotation factor
    at most 2 in absolute value. *)
Lemma deltaE00Tail_form (L1 C1p h1p L2 C2p h2p : R) :
  0 <= C1p -> 0 <= C2p ->
  exists tH Rt,
    Rabs tH <= 2 * sqrt (C1p * C2p) /\ Rabs Rt <= 2
    /\ deltaE00Tail L1 C1p h1p L2 C2p h2p =
       sqrt (lightnessTerm L1 L2 * lightnessTerm L1 L2
             + chromaTerm C1p C2p * chromaTerm C1p C2p + tH * tH
             + Rt * chromaTerm C1p C2p * tH).
Proof.
  intros H1 H2. unfold deltaE00Tail. cbv zeta.
  fold (lightnessTerm L1 L2). fold (chromaTerm C1p C2p).
  set (dhp := if Rlt_dec PI (Rabs (h2p - h1p))
              then h2p - h1p - sign (h2p - h1p) * 2 * PI else h2p - h1p).
  set (avgHp := (if Rlt_dec PI (Rabs (h1p - h2p)) then h1p + h2p + 2 * PI else h1p + h2p) / 2).
  set (T := 1 - 0.17 * cos (avgHp - PI / 6) + 0.24 * cos (2 * avgHp)
            + 0.32 * cos (3 * avgHp + PI / 30) - 0.2 * cos (4 * avgHp - 63 * PI / 180)).
  set (q := ((C1p + C2p) / 2) ^ 7 / (((C1p + C2p) / 2) ^ 7 + 25 ^ 7)).
  set (dTheta := 30 * PI / 180 * exp (- ((180 / PI * avgHp - 275) / 25) ^ 2)).
  eexists. eexists. split; [|split; [|reflexivity]].
  - (* the hue term *)
    assert (HT : 0 <= T).
    { subst T.
      pose proof (COS_bound (avgHp - PI / 6)). pose proof (COS_bound (2 * avgHp)).
      pose proof (COS_bound (3 * avgHp + PI / 30)).
      pose proof (COS_bound (4 * avgHp - 63 * PI / 180)). lra. }
    assert (HSh : 1 <= 1 * (1 + 0.015 * ((C1p + C2p) / 2) * T)) by nra.
    set (Sh := 1 * (1 + 0.015 * ((C1p + C2p) / 2) * T)) in *.
    pose proof (sqrt_pos (C1p * C2p)) as Hs.
    pose proof (SIN_bound (dhp / 2)) as Hsin.
    unfold Rdiv at 1. rewrite Rabs_mult.
    assert (Hinv : Rabs (/ Sh) <= 1).
    { rewrite Rabs_pos_eq.
      - rewrite <- Rinv_1. apply Rinv_le_contravar; lra.
      - left. apply Rinv_0_lt_compat. lra. }
    assert (Hd : Rabs (2 * sqrt (C1p * C2p) * sin (dhp / 2)) <= 2 * sqrt (C1p * C2p)).
    { rewrite Rabs_mult, (Rabs_pos_eq (2 * sqrt (C1p * C2p))) by lra.
      assert (Rabs (sin (dhp / 2)) <= 1) by (apply Rabs_le; lra). nra. }
    pose proof (Rabs_pos (2 * sqrt (C1p * C2p) * sin (dhp / 2))). nra.
  - (* the rotation factor *)
    assert (Hp : 0 <= ((C1p + C2p) / 2) ^ 7) by (apply pow_le; lra).
    assert (Hq : 0 <= q <= 1).
    { subst q. split.
      - apply Rmult_le_pos; [assumption|]. left. apply Rinv_0_lt_compat.
        assert (0 < 25 ^ 7) by (apply pow_lt; lra). lra.
      - assert (0 < 25 ^ 7) by (apply pow_lt; lra).
        apply Rmult_le_reg_r with (((C1p + C2p) / 2) ^ 7 + 25 ^ 7); [lra|].
        unfold Rdiv. rewrite Rmult_assoc, Rinv_l by lra. lra. }
    assert (Hsq : 0 <= sqrt q <= 1).
    { split; [apply sqrt_pos|]. rewrite <- sqrt_1. apply sqrt_le_1; lra. }
    pose proof (SIN_bound (2 * dTheta)) as Hsin.
    rewrite Rabs_mult.
    assert (Rabs (- (2 * sqrt q)) <= 2) by (apply Rabs_le; lra).
    assert (Rabs (sin (2 * dTheta)) <= 1) by (apply Rabs_le; lra).
    pose proof (Rabs_pos (- (2 * sqrt q))). pose proof (Rabs_pos (sin (2 * dTheta))). nra.
Qed.

Lemma chromaG_bounds (a1 b1 a2 b2 : R) :
  hypot a1 b1 + hypot a2 b2 <= 3.2 -> 0.49995 <= chromaG a1 b1 a2 b2 <= 0.5.
Proof.
  intros Hc. unfold chromaG. cbv zeta.
  pose proof (hypot_nonneg a1 b1). pose proof (hypot_nonneg a2 b2).
  set (avgC := (hypot a1 b1 + hypot a2 b2) / 2).
  assert (Havg : 0 <= avgC <= 1.6) by (subst avgC; lra).
  assert (Hp : 0 <= avgC ^ 7 <= 27).
  { split; [apply pow_le; lra|].
    apply Rle_trans with (1.6 ^ 7); [apply pow_incr; lra|]. simpl. lra. }
  assert (Hc7 : 25 ^ 7 = 6103515625) by (simpl; lra).
  rewrite Hc7. set (p := avgC ^ 7) in *.
  assert (Hq : 0 <= p / (p + 6103515625) <= 0.0001 * 0.0001).
  { split.
    - apply Rmult_le_pos; [lra|]. left. apply Rinv_0_lt_compat. lra.
    - apply Rmult_le_reg_r with (p + 6103515625); [lra|].
      unfold Rdiv. rewrite Rmult_assoc, Rinv_l by lra. lra. }
  destruct (sqrt_between (p / (p + 6103515625)) 0 0.0001) as [Hs1 Hs2]; lra.
Qed.

Lemma labP_bounds :
  1.3494 <= Lab.L labP <= 1.3495 /\ 2.6648 <= Lab.a labP <= 2.6649
  /\ -1.6258 <= Lab.b labP <= -1.6257.
Proof. unfold labP, darkLab. cbn [Lab.L Lab.a Lab.b]. lra. Qed.

Lemma labGrey_bounds :
  1.3708 <= Lab.L labGrey <= 1.3709 /\ -0.000000591 <= Lab.a labGrey <= -0.000000590
  /\ 0.000000236 <= Lab.b labGrey <= 0.000000237.
Proof. unfold labGrey, darkLab. cbn [Lab.L Lab.a Lab.b]. lra. Qed.

Lemma labBlack_eq : labBlack = mkLab 0 0 0.
Proof. unfold labBlack, darkLab. f_equal; lra. Qed.

Lemma Rabs_le_inv (a b : R) : Rabs a <= b -> - b <= a <= b.
Proof. unfold Rabs. destruct (Rcase_abs a); lra. Qed.

Lemma hypot_between (x y lo hi : R) :
  0 <= lo -> 0 <= hi -> lo * lo <= x * x + y * y -> x * x + y * y <= hi * hi ->
  lo <= hypot x y <= hi.
Proof. intros. unfold hypot. apply sqrt_between; assumption. Qed.

Lemma hypot_0_0 : hypot 0 0 = 0.
Proof. unfold hypot. replace (0 * 0 + 0 * 0) with 0 by ring. apply sqrt_0. Qed.

Lemma div_between (n d nlo nhi dlo dhi : R) :
  0 < dlo -> dlo <= d <= dhi -> nlo <= n <= nhi -> nhi <= 0 ->
  nlo / dlo <= n / d <= nhi / dhi.
Proof.
  intros Hd0 Hd Hn Hneg.
  assert (Hi : / dhi <= / d <= / dlo).
  { split; apply Rinv_le_contravar; lra. }
  assert (0 < / dhi) by (apply Rinv_0_lt_compat; lra).
  unfold Rdiv. split; nra.
Qed.

Lemma chromaP (LP aP bP : R) : nearP LP aP bP -> 3.1215 <= hypot aP bP <= 3.1217.
Proof. intros (HLP & HaP & HbP). apply hypot_between; nra. Qed.

Lemma chromaPrimeP (LP aP bP G : R) :
  nearP LP aP bP -> 0.49995 <= G <= 0.5 -> 4.315 <= hypot ((1 + G) * aP) bP <= 4.3154.
Proof. intros (HLP & HaP & HbP) HG. apply hypot_between; nra. Qed.

Lemma chromaTerm_bounds (C1p C2p : R) :
  4.315 <= C1p <= 4.3154 -> 0 <= C2p <= 0.000001 ->
  -3.9336 <= chromaTerm C1p C2p <= -3.9331.
Proof.
  intros H1 H2. unfold chromaTerm.
  destruct (div_between (C2p - C1p) (1 * (1 + 0.045 * ((C1p + C2p) / 2)))
              (-4.3154) (-4.314999) 1.0970875 1.0970966) as [Hlo Hhi]; try lra.
Qed.

Lemma lightnessTerm_black (LP : R) :
  1.3494 <= LP <= 1.3495 -> -0.77698 <= lightnessTerm LP 0 <= -0.77691.
Proof.
  intros HLP. unfold lightnessTerm.
  assert (Hv : -49.3253 <= (LP + 0) / 2 - 50 <= -49.32525) by lra.
  set (v := (LP + 0) / 2 - 50) in *.
  assert (Hu2 : 2432.98028 <= v ^ 2 <= 2432.98523) by (simpl; nra).
  set (u2 := v ^ 2) in *.
  destruct (sqrt_between (20 + u2) 49.5275 49.5277) as [Hs1 Hs2]; try lra.
  set (S := sqrt (20 + u2)) in *.
  assert (Hq : 0.7368544 <= 0.015 * u2 / S <= 0.7368589).
  { assert (Hi : / 49.5277 <= / S <= / 49.5275).
    { split; apply Rinv_le_contravar; lra. }
    unfold Rdiv. assert (0 < / 49.5277) by (apply Rinv_0_lt_compat; lra). split; nra. }
  destruct (div_between (0 - LP) (1 * (1 + 0.015 * u2 / S))
              (-1.3495) (-1.3494) 1.7368544 1.7368589) as [Hlo Hhi]; lra.
Qed.

Lemma deltaE00_black_bounds (LP aP bP : R) :
  nearP LP aP bP -> 4.009 <= deltaE00 LP aP bP 0 0 0 <= 4.010.
Proof.
  intros HP. rewrite deltaE00_unfold. cbv zeta.
  pose proof (chromaP LP aP bP HP) as HC.
  assert (HG : 0.49995 <= chromaG aP bP 0 0 <= 0.5).
  { apply chromaG_bounds. rewrite hypot_0_0. lra. }
  set (G := chromaG aP bP 0 0) in *.
  pose proof (chromaPrimeP LP aP bP G HP HG) as HC1.
  replace ((1 + G) * 0) with 0 by ring. rewrite hypot_0_0.
  set (C1p := hypot ((1 + G) * aP) bP) in *.
  destruct (deltaE00Tail_form LP C1p (huePrime bP ((1 + G) * aP)) 0 0 (huePrime 0 0))
    as (tH & Rt & HtH & HRt & ->); try lra.
  replace (C1p * 0) with 0 in HtH by ring. rewrite sqrt_0 in HtH.
  assert (tH = 0) as -> by (apply Rabs_le_inv in HtH; lra).
  pose proof (lightnessTerm_black LP (proj1 HP)) as HtL.
  pose proof (chromaTerm_bounds C1p 0 HC1 ltac:(lra)) as HtC.
  set (tL := lightnessTerm LP 0) in *. set (tC := chromaTerm C1p 0) in *.
  assert (HtL2 : 0.6035 <= tL * tL <= 0.6038) by nra.
  assert (HtC2 : 15.46927 <= tC * tC <= 15.47321) by nra.
  apply sqrt_between; lra.
Qed.

Lemma chromaGrey (Lg ag bg : R) :
  nearGrey Lg ag bg -> 0.00000063 <= hypot ag bg <= 0.00000064.
Proof. intros (HLg & Hag & Hbg). apply hypot_between; nra. Qed.

Lemma lightnessTerm_grey (LP Lg : R) :
  1.3494 <= LP <= 1.3495 -> 1.3708 <= Lg <= 1.3709 ->
  0 <= lightnessTerm LP Lg <= 0.0215.
Proof.
  intros HLP HLg. unfold lightnessTerm.
  set (v := (LP + Lg) / 2 - 50).
  assert (Hu2 : 0 <= v ^ 2) by (simpl; nra).
  set (u2 := v ^ 2) in *.
  assert (HS : 0 < sqrt (20 + u2)) by (apply sqrt_lt_R0; lra).
  set (S := sqrt (20 + u2)) in *.
  assert (Hq : 0 <= 0.015 * u2 / S).
  { unfold Rdiv. assert (0 < / S) by (apply Rinv_0_lt_compat; lra). nra. }
  assert (Hi : 0 < / (1 * (1 + 0.015 * u2 / S)) <= 1).
  { split; [apply Rinv_0_lt_compat; lra|].
    rewrite <- Rinv_1 at 3. apply Rinv_le_contravar; lra. }
  unfold Rdiv at 1 3. nra.
Qed.

Lemma deltaE00_grey_bounds (LP aP bP Lg ag bg : R) :
  nearP LP aP bP -> nearGrey Lg ag bg ->
  3.9288 <= deltaE00 LP aP bP Lg ag bg <= 3.938.
Proof.
  intros HP HGr. rewrite deltaE00_unfold. cbv zeta.
  pose proof (chromaP LP aP bP HP) as HC. pose proof (chromaGrey Lg ag bg HGr) as HCg.
  assert (HG : 0.49995 <= chromaG aP bP ag bg <= 0.5).
  { apply chromaG_bounds. lra. }
  set (G := chromaG aP bP ag bg) in *.
  pose proof (chromaPrimeP LP aP bP G HP HG) as HC1.
  assert (HC2 : 0 <= hypot ((1 + G) * ag) bg <= 0.000001).
  { destruct HGr as (HLg & Hag & Hbg). apply hypot_between; nra. }
  set (C1p := hypot ((1 + G) * aP) bP) in *.
  set (C2p := hypot ((1 + G) * ag) bg) in *.
  destruct (deltaE00Tail_form LP C1p (huePrime bP ((1 + G) * aP)) Lg C2p
              (huePrime bg ((1 + G) * ag)))
    as (tH & Rt & HtH & HRt & ->); try lra.
  assert (Hs : sqrt (C1p * C2p) <= 0.0021).
  { apply sqrt_between with (lo := 0); nra. }
  assert (HtH' : -0.0042 <= tH <= 0.0042).
  { pose proof (Rabs_le_inv _ _ HtH). lra. }
  assert (HRt' : -2 <= Rt <= 2).
  { pose proof (Rabs_le_inv _ _ HRt). lra. }
  pose proof (lightnessTerm_grey LP Lg (proj1 HP) (proj1 HGr)) as HtL.
  pose proof (chromaTerm_bounds C1p C2p HC1 HC2) as HtC.
  set (tL := lightnessTerm LP Lg) in *. set (tC := chromaTerm C1p C2p) in *.
  assert (HtL2 : 0 <= tL * tL <= 0.00046225) by nra.
  assert (HtC2 : 15.46927 <= tC * tC <= 15.47321) by nra.
  assert (HtH2 : 0 <= tH * tH <= 0.00001764) by nra.
  assert (Hprod : -0.0165212 <= tC * tH <= 0.0165212) by nra.
  assert (Hcross : -0.03305 <= Rt * tC * tH <= 0.03305).
  { rewrite Rmult_assoc. set (m := tC * tH) in *. nra. }
  apply sqrt_between; lra.
Qed.

(** *** The stored values *)

Section Float32Store.

Context `{Float32}.
Hypothesis Hf : Float32Rounding.

Lemma float32Range_intro (x : R) : 0.000000001 <= x <= 1000 -> float32Range (Rabs x).
Proof.
  intros Hx. rewrite Rabs_pos_eq by lra. unfold float32Range.
  assert (/ 1267650600228229401496703205376 <= / 1000000000)
    by (apply Rinv_le_contravar; lra).
  lra.
Qed.

Lemma fround_error (x : R) :
  0.000000001 <= Rabs x <= 1000 ->
  x - 0.0000001 * Rabs x <= fround x <= x + 0.0000001 * Rabs x.
Proof.
  intros Hx. pose proof (fround_near Hf x) as Hn.
  rewrite <- (Rabs_Rabsolu x) in Hn at 1.
  specialize (Hn (float32Range_intro _ Hx)).
  assert (He : FLOAT32_EPSILON <= 0.0000001).
  { unfold FLOAT32_EPSILON. rewrite <- (Rinv_inv 0.0000001).
    apply Rinv_le_contravar; [lra|].
    apply Rmult_le_reg_r with 0.0000001; [lra|]. rewrite Rinv_l by lra. lra. }
  pose proof (Rabs_pos x) as Hp.
  assert (Hm : FLOAT32_EPSILON * Rabs x <= 0.0000001 * Rabs x)
    by (apply Rmult_le_compat_r; assumption).
  apply Rabs_le_inv in Hn. lra.
Qed.

(** The rounding of a number between two positive bounds, and between two
    negative ones. *)
Lemma fround_between_pos (lo hi x : R) :
  0.000000001 <= lo -> hi <= 1000 -> lo <= x <= hi ->
  lo - 0.0000001 * lo <= fround x <= hi + 0.0000001 * hi.
Proof.
  intros Hlo Hhi Hx.
  pose proof (fround_monotone Hf lo x ltac:(lra)) as M1.
  pose proof (fround_monotone Hf x hi ltac:(lra)) as M2.
  pose proof (fround_error lo) as E1. pose proof (fround_error hi) as E2.
  rewrite (Rabs_pos_eq lo) in E1 by lra. rewrite (Rabs_pos_eq hi) in E2 by lra.
  specialize (E1 ltac:(lra)). specialize (E2 ltac:(lra)). lra.
Qed.

Lemma fround_between_neg (lo hi x : R) :
  -1000 <= lo -> hi <= -0.000000001 -> lo <= x <= hi ->
  lo + 0.0000001 * lo <= fround x <= hi - 0.0000001 * hi.
Proof.
  intros Hlo Hhi Hx.
  pose proof (fround_monotone Hf lo x ltac:(lra)) as M1.
  pose proof (fround_monotone Hf x hi ltac:(lra)) as M2.
  pose proof (fround_error lo) as E1. pose proof (fround_error hi) as E2.
  rewrite (Rabs_left lo) in E1 by lra. rewrite (Rabs_left hi) in E2 by lra.
  specialize (E1 ltac:(lra)). specialize (E2 ltac:(lra)). lra.
Qed.

Lemma labP_tight :
  1.34942 <= Lab.L labP <= 1.34943 /\ 2.66484 <= Lab.a labP <= 2.66485
  /\ -1.62576 <= Lab.b labP <= -1.62575.
Proof. unfold labP, darkLab. cbn [Lab.L Lab.a Lab.b]. lra. Qed.

(** The stored CIELAB of the pixel (10, 3, 9) lies in the same intervals. *)
Lemma nearP_stored :
  nearP (fround (Lab.L labP)) (fround (Lab.a labP)) (fround (Lab.b labP)).
Proof.
  destruct labP_tight as (HL & Ha & Hb).
  pose proof (fround_between_pos 1.34942 1.34943 _ ltac:(lra) ltac:(lra) HL).
  pose proof (fround_between_pos 2.66484 2.66485 _ ltac:(lra) ltac:(lra) Ha).
  pose proof (fround_between_neg (-1.62576) (-1.62575) _ ltac:(lra) ltac:(lra) Hb).
  unfold nearP. lra.
Qed.

Section Costs.

Variables (LP aP bP Lg ag bg : R).
Hypothesis HP : nearP LP aP bP.
Hypothesis HGr : nearGrey Lg ag bg.

Variables (grey black : PaletteLab.t).
Hypothesis Hgrey :
  PaletteLab.L grey = Lg /\ PaletteLab.a grey = ag /\ PaletteLab.b grey = bg
  /\ PaletteLab.C grey = hypot ag bg.
Hypothesis Hblack :
  PaletteLab.L black = 0 /\ PaletteLab.a black = 0 /\ PaletteLab.b black = 0
  /\ PaletteLab.C black = 0.

Lemma storedCost_grey (hW : R) :
  storedCost LP aP bP hW grey =
  fround (deltaE00 LP aP bP Lg ag bg) + 0.7 * (hypot aP bP - hypot ag bg - 3)
  + 0.3 * hW * (1 - cos (deltaHue aP bP ag bg)) + 0.15 * hypot ag bg.
Proof.
  pose proof (chromaP LP aP bP HP) as HC.
  pose proof (chromaGrey Lg ag bg HGr) as HCg.
  destruct HP as (HLP & HaP & HbP), HGr as (HLg & Hag & Hbg), Hgrey as (EL & Ea & Eb & EC).
  unfold storedCost. cbv zeta. rewrite EL, Ea, Eb, EC.
  destruct (Rle_dec 3.0 (hypot aP bP)) as [_|Hn]; [|exfalso; lra].
  destruct (Rlt_dec (hypot aP bP) 6.0) as [_|Hn]; [|exfalso; lra].
  rewrite (Rmax_left 0 (Rabs (LP - Lg) - 3.0)).
  2: { assert (Rabs (LP - Lg) <= 1) by (apply Rabs_le; lra). lra. }
  rewrite (Rabs_pos_eq (hypot aP bP - hypot ag bg)) by lra.
  rewrite (Rmax_right 0 (hypot aP bP - hypot ag bg - 3.0)) by lra.
  lra.
Qed.

Lemma storedCost_black (hW : R) :
  storedCost LP aP bP hW black =
  fround (deltaE00 LP aP bP 0 0 0) + 0.7 * (hypot aP bP - 3)
  + 0.3 * hW * (1 - cos (deltaHue aP bP 0 0)).
Proof.
  pose proof (chromaP LP aP bP HP) as HC.
  destruct HP as (HLP & HaP & HbP), Hblack as (EL & Ea & Eb & EC).
  unfold storedCost. cbv zeta. rewrite EL, Ea, Eb, EC.
  destruct (Rle_dec 3.0 (hypot aP bP)) as [_|Hn]; [|exfalso; lra].
  destruct (Rlt_dec (hypot aP bP) 6.0) as [_|Hn]; [|exfalso; lra].
  rewrite (Rmax_left 0 (Rabs (LP - 0) - 3.0)).
  2: { assert (Rabs (LP - 0) <= 2) by (apply Rabs_le; lra). lra. }
  rewrite (Rabs_pos_eq (hypot aP bP - 0)) by lra.
  rewrite (Rmax_right 0 (hypot aP bP - 0 - 3.0)) by lra.
  lra.
Qed.

Lemma cos_hue_black : 0.85 <= cos (deltaHue aP bP 0 0) <= 1.
Proof.
  pose proof (chromaP LP aP bP HP) as HC.
  pose proof (cos_deltaHue_origin aP bP) as Hc.
  pose proof (COS_bound (deltaHue aP bP 0 0)).
  destruct HP as (HLP & HaP & HbP).
  set (c := cos (deltaHue aP bP 0 0)) in *. set (CP := hypot aP bP) in *. nra.
Qed.

Lemma cos_hue_grey : cos (deltaHue aP bP ag bg) <= -0.9.
Proof.
  pose proof (chromaP LP aP bP HP) as HC.
  pose proof (chromaGrey Lg ag bg HGr) as HCg.
  pose proof (cos_deltaHue_dot aP bP ag bg) as Hc.
  destruct HP as (HLP & HaP & HbP), HGr as (HLg & Hag & Hbg).
  set (c := cos (deltaHue aP bP ag bg)) in *.
  set (CP := hypot aP bP) in *. set (Cg := hypot ag bg) in *.
  assert (Hdot : aP * ag + bP * bg <= -0.0000019558) by nra.
  assert (Hprod : 0 < CP * Cg <= 0.000001998) by nra.
  set (m := CP * Cg) in *. nra.
Qed.

(** The stored distances. *)
Lemma stored_distances :
  3.9287 <= fround (deltaE00 LP aP bP Lg ag bg) <= 3.9381
  /\ 4.0089 <= fround (deltaE00 LP aP bP 0 0 0) <= 4.0101.
Proof.
  pose proof (fround_between_pos 3.9288 3.938 _ ltac:(lra) ltac:(lra)
                (deltaE00_grey_bounds LP aP bP Lg ag bg HP HGr)).
  pose proof (fround_between_pos 4.009 4.010 _ ltac:(lra) ltac:(lra)
                (deltaE00_black_bounds LP aP bP HP)).
  lra.
Qed.

(** With no hue weight the grey costs no more than black. *)
Lemma cost_without_hue : storedCost LP aP bP 0 grey <= storedCost LP aP bP 0 black.
Proof.
  rewrite storedCost_grey, storedCost_black.
  destruct stored_distances as [Hg Hb].
  pose proof (chromaGrey Lg ag bg HGr). lra.
Qed.

(** With a hue weight of at least 0.68 black costs less than the grey. *)
Lemma cost_with_hue (hW : R) :
  0.68 <= hW <= 1 -> storedCost LP aP bP hW black < storedCost LP aP bP hW grey.
Proof.
  intros HhW. rewrite storedCost_grey, storedCost_black.
  destruct stored_distances as [Hg Hb].
  set (dg := fround (deltaE00 LP aP bP Lg ag bg)) in *.
  set (db := fround (deltaE00 LP aP bP 0 0 0)) in *.
  pose proof (chromaGrey Lg ag bg HGr).
  pose proof cos_hue_black. pose proof cos_hue_grey.
  set (cb := cos (deltaHue aP bP 0 0)) in *. set (cg := cos (deltaHue aP bP ag bg)) in *.
  nra.
Qed.

End Costs.

(** *** The two passes on a palette of two entries *)

Section TwoEntries.

Variables (e0 e1 : PaletteLab.t) (Lr ar br hWeight : R).

Lemma worstSlot_one (b0 : R) :
  0 <= b0 ->
  worstSlot (<[0%nat := Finite b0]> (replicate K_SHORTLIST PosInf)) = (1%nat, PosInf).
Proof.
  intros Hb0. unfold worstSlot, K_SHORTLIST. cbn [seq fold_left replicate].
  assert (Hfirst : worstStep (<[0%nat := Finite b0]> (replicate 8 PosInf))
                     (0%nat, Finite (-1)) 0 = (0%nat, Finite b0)).
  { unfold worstStep, scoreAt. cbn. destruct (Rlt_dec (-1) b0); [reflexivity|lra]. }
  cbn [replicate] in Hfirst. rewrite Hfirst. reflexivity.
Qed.

Lemma shortlist_two :
  shortlist [e0; e1] Lr ar br =
  mkShortlist (0 :: 1 :: replicate 6 (-1))%Z
    (Finite (fround (baseOf [e0; e1] Lr ar br 0))
     :: Finite (fround (baseOf [e0; e1] Lr ar br 1)) :: replicate 6 PosInf).
Proof.
  unfold shortlist. cbn [length seq fold_left]. rewrite shortlist_first.
  unfold shortlistStep at 1. cbn [topScore topIdx].
  fold (baseOf [e0; e1] Lr ar br 0).
  rewrite worstSlot_one by (apply (fround_nonneg _ Hf); apply deltaE00_nonneg).
  fold (baseOf [e0; e1] Lr ar br 1).
  reflexivity.
Qed.

Lemma refine_two :
  fst (refine [e0; e1] Lr ar br (hypot ar br) hWeight (shortlist [e0; e1] Lr ar br)) =
  if Rlt_dec (storedCost Lr ar br hWeight e1) (storedCost Lr ar br hWeight e0) then 1%Z else 0%Z.
Proof.
  rewrite shortlist_two. unfold refine, K_SHORTLIST. cbn [seq fold_left].
  assert (H0 : refineStep [e0; e1] Lr ar br (hypot ar br) hWeight
                 (mkShortlist (0 :: 1 :: replicate 6 (-1))%Z
                    (Finite (fround (baseOf [e0; e1] Lr ar br 0))
                     :: Finite (fround (baseOf [e0; e1] Lr ar br 1)) :: replicate 6 PosInf))
                 (0%Z, PosInf) 0
               = (0%Z, Finite (storedCost Lr ar br hWeight e0))).
  { reflexivity. }
  change (idxAt (topIdx (mkShortlist (0 :: 1 :: replicate 6 (-1))%Z
                  (Finite (fround (baseOf [e0; e1] Lr ar br 0))
                   :: Finite (fround (baseOf [e0; e1] Lr ar br 1)) :: replicate 6 PosInf))) 0) with 0%Z.
  cbn [Z.geb Z.compare]. rewrite H0.
  assert (H1 : refineStep [e0; e1] Lr ar br (hypot ar br) hWeight
                 (mkShortlist (0 :: 1 :: replicate 6 (-1))%Z
                    (Finite (fround (baseOf [e0; e1] Lr ar br 0))
                     :: Finite (fround (baseOf [e0; e1] Lr ar br 1)) :: replicate 6 PosInf))
                 (0%Z, Finite (storedCost Lr ar br hWeight e0)) 1
               = if xlt (Finite (storedCost Lr ar br hWeight e1))
                        (Finite (storedCost Lr ar br hWeight e0))
                 then (1%Z, Finite (storedCost Lr ar br hWeight e1))
                 else (0%Z, Finite (storedCost Lr ar br hWeight e0))).
  { reflexivity. }
  rewrite H1. unfold xlt, xgt.
  destruct (Rlt_dec (storedCost Lr ar br hWeight e1) (storedCost Lr ar br hWeight e0));
    reflexivity.
Qed.

End TwoEntries.

(** *** The two images *)

Lemma paletteLab_palette2 : paletteLab palette2 = [entryGrey; entryBlack].
Proof. reflexivity. Qed.

Lemma entryGrey_lab :
  PaletteLab.L entryGrey = Lab.L labGrey /\ PaletteLab.a entryGrey = Lab.a labGrey
  /\ PaletteLab.b entryGrey = Lab.b labGrey
  /\ PaletteLab.C entryGrey = hypot (Lab.a labGrey) (Lab.b labGrey).
Proof.
  unfold entryGrey, paletteEntry. cbv zeta.
  change (byteAt palette2 (0 + CHANNEL_R)) with 5%Z.
  change (byteAt palette2 (0 + CHANNEL_G)) with 5%Z.
  change (byteAt palette2 (0 + CHANNEL_B)) with 5%Z.
  rewrite (rgbToLab_dark 5 5 5) by lra. fold labGrey. cbn [PaletteLab.L PaletteLab.a
    PaletteLab.b PaletteLab.C]. auto.
Qed.

Lemma entryBlack_lab :
  PaletteLab.L entryBlack = 0 /\ PaletteLab.a entryBlack = 0
  /\ PaletteLab.b entryBlack = 0 /\ PaletteLab.C entryBlack = 0.
Proof.
  unfold entryBlack, paletteEntry. cbv zeta.
  change (byteAt palette2 (4 + CHANNEL_R)) with 0%Z.
  change (byteAt palette2 (4 + CHANNEL_G)) with 0%Z.
  change (byteAt palette2 (4 + CHANNEL_B)) with 0%Z.
  rewrite (rgbToLab_dark 0 0 0) by lra. fold labBlack. rewrite labBlack_eq.
  cbn [PaletteLab.L PaletteLab.a PaletteLab.b PaletteLab.C Lab.L Lab.a Lab.b].
  rewrite hypot_0_0. auto.
Qed.

Lemma nearP_labP : nearP (Lab.L labP) (Lab.a labP) (Lab.b labP).
Proof. exact labP_bounds. Qed.

Lemma nearGrey_labGrey : nearGrey (Lab.L labGrey) (Lab.a labGrey) (Lab.b labGrey).
Proof. exact labGrey_bounds. Qed.

(** The stored CIELAB values of the two images. *)
Lemma lab_first_pixel (img : ImageData) (r g b : Z) :
  width img = 2%nat -> height img = 1%nat ->
  pixelAt (data img) 0 = Some (10, 3, 9, 255)%Z ->
  let arrs := labArrays (data img) (width img) (height img) in
  realAt (Larr arrs) 0 = fround (Lab.L labP) /\ realAt (Aarr arrs) 0 = fround (Lab.a labP)
  /\ realAt (Barr arrs) 0 = fround (Lab.b labP).
Proof.
  intros Hw Hh Hpx arrs. subst arrs. rewrite Hw, Hh.
  destruct (labArrays_lookup (data img) 2 1 0 ltac:(lia)) as (EL & EA & EB).
  rewrite (pixelLab_opaque _ _ 10 3 9 255 Hpx ltac:(lia)) in EL, EA, EB.
  rewrite (rgbToLab_dark 10 3 9) in EL, EA, EB by lra. auto.
Qed.

Lemma hueWeight_opaque :
  hueWeightAt (labArrays (data opaqueNeighbour) 2 1) 2 1 0 0 = 0.
Proof.
  rewrite hueWeightAt_pair.
  destruct (lab_first_pixel opaqueNeighbour 10 3 9 eq_refl eq_refl eq_refl) as (_ & EA & EB).
  cbn [width height opaqueNeighbour] in EA, EB. rewrite EA, EB.
  destruct (labArrays_lookup (data opaqueNeighbour) 2 1 1 ltac:(lia)) as (_ & EA1 & EB1).
  rewrite (pixelLab_opaque (data opaqueNeighbour) 1 255 0 0 255 eq_refl ltac:(lia))
    in EA1, EB1.
  cbn [Lab.a Lab.b] in EA1, EB1. rewrite EA1, EB1.
  assert (Hred : 49 <= fround (Lab.a (rgbToLab 255 0 0))).
  { pose proof (fround_monotone Hf 50 _ rgbToLab_red_a) as Hm.
    pose proof (fround_between_pos 50 50 50 ltac:(lra) ltac:(lra) ltac:(lra)). lra. }
  destruct nearP_stored as (_ & HaP & _).
  set (aR := fround (Lab.a (rgbToLab 255 0 0))) in *.
  set (bR := fround (Lab.b (rgbToLab 255 0 0))).
  set (aP := fround (Lab.a labP)) in *. set (bP := fround (Lab.b labP)).
  assert (HX : 5 * 5 <= ((aP - aR) * (aP - aR) + (bP - bR) * (bP - bR)) / 4).
  { assert (46 * 46 <= (aP - aR) * (aP - aR)) by nra.
    pose proof (Rle_0_sqr (bP - bR)) as Hb. unfold Rsqr in Hb. lra. }
  assert (Hs : 5 <= sqrt (((aP - aR) * (aP - aR) + (bP - bR) * (bP - bR)) / 4)).
  { rewrite <- (sqrt_square 5) at 1 by lra. apply sqrt_le_1; lra. }
  rewrite Rmin_left by lra. lra.
Qed.

Lemma hueWeight_transparent :
  0.68 <= hueWeightAt (labArrays (data transparentNeighbour) 2 1) 2 1 0 0 <= 0.69.
Proof.
  rewrite hueWeightAt_pair.
  destruct (lab_first_pixel transparentNeighbour 10 3 9 eq_refl eq_refl eq_refl)
    as (_ & EA & EB).
  cbn [width height transparentNeighbour] in EA, EB. rewrite EA, EB.
  destruct (labArrays_lookup (data transparentNeighbour) 2 1 1 ltac:(lia)) as (_ & EA1 & EB1).
  rewrite (pixelLab_transparent (data transparentNeighbour) 1 255 0 0 eq_refl) in EA1, EB1.
  cbn [Lab.a Lab.b] in EA1, EB1. rewrite EA1, EB1.
  destruct nearP_stored as (_ & HaP & HbP).
  set (aP := fround (Lab.a labP)) in *. set (bP := fround (Lab.b labP)) in *.
  destruct (sqrt_between (((aP - 0) * (aP - 0) + (bP - 0) * (bP - 0)) / 4) 1.56 1.561)
    as [Hs1 Hs2]; try nra.
  rewrite Rmin_right by lra. lra.
Qed.

(** The colour written to the first pixel, as a function of its hue weight. *)
Lemma first_pixel_mapped (img : ImageData) :
  width img = 2%nat -> height img = 1%nat ->
  pixelAt (data img) 0 = Some (10, 3, 9, 255)%Z ->
  let hWeight := hueWeightAt (labArrays (data img) 2 1) 2 1 0 0 in
  exists img',
    mapImageDataToPalette img palette2 = Some img'
    /\ pixelAt (data img') 0 =
       if Rlt_dec (storedCost (fround (Lab.L labP)) (fround (Lab.a labP))
                     (fround (Lab.b labP)) hWeight entryBlack)
                  (storedCost (fround (Lab.L labP)) (fround (Lab.a labP))
                     (fround (Lab.b labP)) hWeight entryGrey)
       then Some (0, 0, 0, 255)%Z else Some (5, 5, 5, 255)%Z.
Proof.
  intros Hw Hh Hpx hWeight.
  destruct (perceptual_pixel_final img palette2 2 0 0 (10, 3, 9, 255)%Z)
    as (img' & Himg & Hout).
  - reflexivity.
  - lia.
  - repeat constructor; unfold isByte; lia.
  - lia.
  - lia.
  - exact Hpx.
  - cbn. lia.
  - exists img'. split; [assumption|].
    change (0 * width img + 0)%nat with 0%nat in Hout. rewrite Hout. cbv zeta.
    unfold bestEntry. change (0 * width img + 0)%nat with 0%nat.
    destruct (lab_first_pixel img 10 3 9 Hw Hh Hpx) as (EL & EA & EB).
    rewrite EL, EA, EB, Hw, Hh, paletteLab_palette2, refine_two.
    change (Z.of_nat 0) with 0%Z. fold hWeight.
    destruct (Rlt_dec _ _); reflexivity.
Qed.

Lemma opaque_neighbour_mapped :
  exists img',
    mapImageDataToPalette opaqueNeighbour palette2 = Some img'
    /\ pixelAt (data img') 0 = Some (5, 5, 5, 255)%Z.
Proof.
  destruct (first_pixel_mapped opaqueNeighbour eq_refl eq_refl eq_refl) as (img' & Himg & Hout).
  exists img'. split; [assumption|]. rewrite Hout. clear Hout.
  change (data opaqueNeighbour) with [10; 3; 9; 255; 255; 0; 0; 255]%Z.
  pose proof hueWeight_opaque as HhW. cbn [data opaqueNeighbour] in HhW. rewrite HhW.
  pose proof (cost_without_hue _ _ _ _ _ _ nearP_stored nearGrey_labGrey entryGrey entryBlack
                entryGrey_lab entryBlack_lab) as Hcost.
  destruct (Rlt_dec _ _); [exfalso; lra|reflexivity].
Qed.

Lemma transparent_neighbour_mapped :
  exists img',
    mapImageDataToPalette transparentNeighbour palette2 = Some img'
    /\ pixelAt (data img') 0 = Some (0, 0, 0, 255)%Z.
Proof.
  destruct (first_pixel_mapped transparentNeighbour eq_refl eq_refl eq_refl)
    as (img' & Himg & Hout).
  exists img'. split; [assumption|]. rewrite Hout. clear Hout.
  pose proof hueWeight_transparent as HhW. cbn [data transparentNeighbour] in HhW.
  cbn [data transparentNeighbour].
  pose proof (cost_with_hue _ _ _ _ _ _ nearP_stored nearGrey_labGrey entryGrey entryBlack
                entryGrey_lab entryBlack_lab _ ltac:(split; [apply HhW|lra])) as Hcost.
  destruct (Rlt_dec _ _); [reflexivity|exfalso; lra].
Qed.

End Float32Store.

End HueWeightExample.

(** ** A palette longer than the shortlist's indices reach *)

Module LongPaletteExample.

Import Js Image Lab Perceptual Invariants Examples ImageProps LabProps PerceptualProps
  HueWeightExample.
Local Open Scope R_scope.

Ltac decide_Rlt :=
  repeat (cbn;
          match goal with
          | |- context [Rlt_dec ?p ?q] =>
              destruct (Rlt_dec p q); [try (exfalso; lra)|try (exfalso; lra)]
          end); cbn.

Section Float32Store.

Context `{Float32}.
Hypothesis Hf : Float32Rounding.

(** *** The first pass *)

Section LongPalette.

Variables (pal : list PaletteLab.t) (Lr ar br : R) (n : nat) (d : R).
Hypothesis Hn : (8 <= n)%nat.
Hypothesis Hd : 0 < fround d.
Hypothesis Hfirst : forall pi, (pi < n)%nat -> baseOf pal Lr ar br pi = d.
Hypothesis Hlast : baseOf pal Lr ar br n = 0.

Lemma worstSlot_filled (j : nat) :
  (j < K_SHORTLIST)%nat -> worstSlot (topScore (filled (fround d) j)) = (j, PosInf).
Proof.
  unfold K_SHORTLIST. intros Hj.
  do 8 (destruct j as [|j]; [unfold worstSlot, worstStep, scoreAt, xgt; decide_Rlt;
                             reflexivity|]).
  lia.
Qed.

Lemma worstSlot_headed (i0 : Z) :
  worstSlot (topScore (headed i0 (fround d))) = (0%nat, Finite (fround d)).
Proof.
  unfold worstSlot, worstStep, scoreAt, xgt. decide_Rlt. reflexivity.
Qed.

Lemma shortlistStep_fill (j : nat) :
  (j < K_SHORTLIST)%nat ->
  shortlistStep pal Lr ar br (filled (fround d) j) j = filled (fround d) (S j).
Proof.
  intros Hj. unfold shortlistStep. rewrite (worstSlot_filled j Hj).
  fold (baseOf pal Lr ar br j). rewrite Hfirst by (unfold K_SHORTLIST in Hj; lia).
  unfold K_SHORTLIST in Hj.
  do 8 (destruct j as [|j]; [reflexivity|]). lia.
Qed.

(** A later grey leaves the shortlist as it is, or takes slot 0 when its
    distance is below the float32 that the slot holds. *)
Lemma shortlistStep_headed (i0 : Z) (pi : nat) :
  (pi < n)%nat ->
  exists i1, shortlistStep pal Lr ar br (headed i0 (fround d)) pi = headed i1 (fround d).
Proof.
  intros Hpi. unfold shortlistStep. rewrite worstSlot_headed.
  fold (baseOf pal Lr ar br pi). rewrite Hfirst by assumption.
  destruct (xlt (Finite d) (Finite (fround d))).
  - exists (toInt16 (Z.of_nat pi)). reflexivity.
  - exists i0. reflexivity.
Qed.

Lemma shortlist_headed (m start : nat) (i0 : Z) :
  (start + m <= n)%nat ->
  exists i1,
    fold_left (shortlistStep pal Lr ar br) (seq start m) (headed i0 (fround d))
    = headed i1 (fround d).
Proof.
  revert start i0. induction m as [|m IH]; intros start i0 Hm; [exists i0; reflexivity|].
  cbn [seq fold_left].
  destruct (shortlistStep_headed i0 start ltac:(lia)) as [i1 ->]. apply IH. lia.
Qed.

Lemma shortlist_first_n :
  exists i1,
    fold_left (shortlistStep pal Lr ar br) (seq 0 n) emptyShortlist = headed i1 (fround d).
Proof.
  assert (E : seq 0 n = seq 0 8 ++ seq 8 (n - 8)).
  { rewrite <- seq_app. f_equal. lia. }
  rewrite E, fold_left_app. cbn [seq fold_left Nat.add].
  change emptyShortlist with (filled (fround d) 0).
  rewrite !shortlistStep_fill by (unfold K_SHORTLIST; lia).
  change (filled (fround d) 8) with (headed 0 (fround d)).
  apply shortlist_headed. lia.
Qed.

(** The last entry, nearer than the others, takes slot 0 under the index
    that an [Int16Array] makes of [n]. *)
Lemma shortlist_long :
  length pal = S n ->
  shortlist pal Lr ar br =
  mkShortlist (toInt16 (Z.of_nat n) :: map Z.of_nat (seq 1 7))
    (Finite 0 :: replicate 7 (Finite (fround d))).
Proof.
  intros Hlen. unfold shortlist. rewrite Hlen, seq_S, fold_left_app.
  destruct shortlist_first_n as [i1 ->].
  cbn [fold_left Nat.add]. unfold shortlistStep. rewrite worstSlot_headed.
  fold (baseOf pal Lr ar br n). rewrite Hlast, (fround_zero Hf).
  unfold xlt, xgt. destruct (Rlt_dec 0 (fround d)); [|exfalso; lra]. reflexivity.
Qed.

End LongPalette.

(** *** The refinement pass *)

Section LongRefine.

Variables (pal : list PaletteLab.t) (Lr ar br Cr hW : R) (n : nat) (d c : R)
  (grey : PaletteLab.t).
Hypothesis Hn : (8 <= n)%nat.
Hypothesis Hwrap : (toInt16 (Z.of_nat n) < 0)%Z.
Hypothesis Hgrey : forall pi, (pi < n)%nat -> palAt pal pi = grey.
Hypothesis Hcost : adjustedCost Lr ar br Cr hW grey (Finite d) = Finite c.

Lemma refine_long :
  refine pal Lr ar br Cr hW
    (mkShortlist (toInt16 (Z.of_nat n) :: map Z.of_nat (seq 1 7))
       (Finite 0 :: replicate 7 (Finite d)))
  = (1%Z, Finite c).
Proof.
  set (sl := mkShortlist _ _).
  assert (Hskip : forall best, refineStep pal Lr ar br Cr hW sl best 0 = best).
  { intros best. unfold refineStep.
    change (idxAt (topIdx sl) 0) with (toInt16 (Z.of_nat n)).
    destruct (Z.ltb_spec (toInt16 (Z.of_nat n)) 0); [reflexivity|lia]. }
  assert (Hstep : forall best k, (1 <= k < 8)%nat ->
            refineStep pal Lr ar br Cr hW sl best k =
            if xlt (Finite c) (snd best) then (Z.of_nat k, Finite c) else best).
  { intros best k Hk. unfold refineStep.
    assert (Hi : idxAt (topIdx sl) k = Z.of_nat k).
    { do 8 (destruct k as [|k]; [try lia; reflexivity|]). lia. }
    assert (Hs : scoreAt (topScore sl) k = Finite d).
    { do 8 (destruct k as [|k]; [try lia; reflexivity|]). lia. }
    rewrite Hi, Hs, Nat2Z.id, Hgrey, Hcost by lia.
    destruct (Z.ltb_spec (Z.of_nat k) 0); [lia|reflexivity]. }
  unfold refine, K_SHORTLIST. cbn [seq fold_left].
  change (idxAt (topIdx sl) 0) with (toInt16 (Z.of_nat n)).
  destruct (Z.geb_spec (toInt16 (Z.of_nat n)) 0) as [Hge|_]; [lia|].
  rewrite Hskip, (Hstep _ 1%nat) by lia.
  change (xlt (Finite c) (snd (0%Z, PosInf))) with true. cbv iota.
  assert (Hkeep : forall k, (1 <= k < 8)%nat ->
            refineStep pal Lr ar br Cr hW sl (Z.of_nat 1, Finite c) k
            = (Z.of_nat 1, Finite c)).
  { intros k Hk. rewrite Hstep by assumption. cbn [snd]. rewrite xlt_irrefl. reflexivity. }
  rewrite !Hkeep by lia. reflexivity.
Qed.

End LongRefine.

(** *** The palette: [n] times the grey (5, 5, 5), then black *)

Lemma length_concat_replicate (l : list Z) (n : nat) :
  length (concat (replicate n l)) = (n * length l)%nat.
Proof.
  induction n as [|n IH]; [reflexivity|].
  cbn [replicate concat]. rewrite length_app, IH. lia.
Qed.

Lemma length_greys (n : nat) : length (greys n) = (4 * S n)%nat.
Proof.
  unfold greys. rewrite length_app, length_concat_replicate. cbn [length]. lia.
Qed.

Lemma lookup_concat_replicate (l t : list Z) (n i c : nat) :
  (i < n)%nat -> (c < length l)%nat ->
  (concat (replicate n l) ++ t) !! (i * length l + c)%nat = l !! c.
Proof.
  revert i. induction n as [|n IH]; intros i Hi Hc; [lia|].
  cbn [replicate concat]. rewrite <- app_assoc.
  destruct i as [|i].
  - rewrite lookup_app_l by lia. reflexivity.
  - rewrite lookup_app_r by lia.
    replace (S i * length l + c - length l)%nat with (i * length l + c)%nat by lia.
    apply IH; lia.
Qed.

Lemma byteAt_greys_grey (n i c : nat) :
  (i < n)%nat -> (c < 4)%nat ->
  byteAt (greys n) (i * 4 + c) = byteAt palette2 (0 + c).
Proof.
  intros Hi Hc. unfold byteAt, greys.
  rewrite (lookup_concat_replicate [5; 5; 5; 255]%Z _ n i c Hi) by exact Hc.
  do 4 (destruct c as [|c]; [reflexivity|]). lia.
Qed.

Lemma byteAt_greys_black (n c : nat) :
  (c < 4)%nat -> byteAt (greys n) (n * 4 + c) = byteAt palette2 (4 + c).
Proof.
  intros Hc. unfold byteAt, greys.
  rewrite lookup_app_r by (rewrite length_concat_replicate; cbn [length]; lia).
  rewrite length_concat_replicate. cbn [length].
  replace (n * 4 + c - n * 4)%nat with c by lia.
  do 4 (destruct c as [|c]; [reflexivity|]). lia.
Qed.

Lemma palAt_greys (n i : nat) :
  (i <= n)%nat -> palAt (paletteLab (greys n)) i = paletteEntry (greys n) (i * 4).
Proof.
  intros Hi. unfold palAt, paletteLab.
  rewrite length_greys, strideIndices_mul4, !list_lookup_fmap.
  rewrite lookup_seq_lt by lia. reflexivity.
Qed.

Lemma palAt_greys_grey (n i : nat) :
  (i < n)%nat -> palAt (paletteLab (greys n)) i = entryGrey.
Proof.
  intros Hi. rewrite palAt_greys by lia. unfold entryGrey, paletteEntry.
  unfold CHANNEL_R, CHANNEL_G, CHANNEL_B, CHANNEL_A.
  rewrite !byteAt_greys_grey by lia. reflexivity.
Qed.

Lemma palAt_greys_black (n : nat) : palAt (paletteLab (greys n)) n = entryBlack.
Proof.
  rewrite palAt_greys by lia. unfold entryBlack, paletteEntry.
  unfold CHANNEL_R, CHANNEL_G, CHANNEL_B, CHANNEL_A.
  rewrite !byteAt_greys_black by lia. reflexivity.
Qed.

Lemma isByte_greys (n : nat) : Forall isByte (greys n).
Proof.
  unfold greys. apply Forall_app. split.
  - induction n as [|n IH]; [constructor|].
    cbn [replicate concat]. apply Forall_app. split; [|exact IH].
    repeat constructor; unfold isByte; lia.
  - repeat constructor; unfold isByte; lia.
Qed.

(** *** Distances and costs from a black pixel *)

Lemma greyDistance_bounds : 0.1 <= greyDistance <= 2.
Proof.
  unfold greyDistance. destruct entryGrey_lab as (-> & -> & -> & _).
  destruct labGrey_bounds as (HL & Hag & Hbg).
  set (Lg := Lab.L labGrey) in *. set (ag := Lab.a labGrey) in *.
  set (bg := Lab.b labGrey) in *.
  rewrite deltaE00_unfold. cbv zeta. set (G := chromaG 0 0 ag bg).
  assert (HG : 0.49995 <= G <= 0.5).
  { apply chromaG_bounds. rewrite hypot_0_0.
    pose proof (chromaGrey Lg ag bg (conj HL (conj Hag Hbg))). lra. }
  replace ((1 + G) * 0) with 0 by ring. rewrite hypot_0_0.
  assert (HC2 : 0 <= hypot ((1 + G) * ag) bg <= 0.000001).
  { apply hypot_between; nra. }
  set (C2p := hypot ((1 + G) * ag) bg) in *.
  destruct (deltaE00Tail_form 0 0 (huePrime 0 0) Lg C2p (huePrime bg ((1 + G) * ag)))
    as (tH & Rt & HtH & _ & ->); [lra|lra|].
  rewrite Rmult_0_l, sqrt_0 in HtH.
  assert (tH = 0) as -> by (pose proof (Rabs_le_inv _ _ HtH); lra).
  assert (HtL : 0.13 <= lightnessTerm 0 Lg <= 1.3709).
  { unfold lightnessTerm. set (v := (0 + Lg) / 2 - 50).
    assert (Hv : -50 <= v <= -49) by (subst v; lra).
    assert (Hu2 : 0 <= v ^ 2 <= 2500) by (simpl; nra).
    set (u2 := v ^ 2) in *.
    destruct (sqrt_between (20 + u2) 4 60) as [Hs1 Hs2]; try lra.
    set (S := sqrt (20 + u2)) in *.
    assert (Hq : 0 <= 0.015 * u2 / S <= 9.375).
    { assert (Hi : 0 < / S <= / 4).
      { split; [apply Rinv_0_lt_compat; lra|apply Rinv_le_contravar; lra]. }
      unfold Rdiv. split; [nra|].
      apply Rle_trans with (0.015 * 2500 * / 4); [|lra].
      apply Rmult_le_compat; lra. }
    set (q := 0.015 * u2 / S) in *.
    assert (Hi : / 10.375 <= / (1 * (1 + q)) <= 1).
    { split; [apply Rinv_le_contravar; lra|].
      rewrite <- Rinv_1 at 3. apply Rinv_le_contravar; lra. }
    assert (Hten : 0.096 <= / 10.375).
    { apply Rmult_le_reg_r with 10.375; [lra|]. rewrite Rinv_l by lra. lra. }
    replace (Lg - 0) with Lg by ring. unfold Rdiv.
    set (w := / (1 * (1 + q))) in *. split.
    - apply Rle_trans with (1.3708 * 0.096); [lra|apply Rmult_le_compat; lra].
    - apply Rle_trans with (Lg * 1); [apply Rmult_le_compat_l; lra|lra]. }
  assert (HtC : 0 <= chromaTerm 0 C2p <= 0.000001).
  { unfold chromaTerm. replace (C2p - 0) with C2p by ring.
    assert (Hi : 0 < / (1 * (1 + 0.045 * ((0 + C2p) / 2))) <= 1).
    { split; [apply Rinv_0_lt_compat; lra|].
      rewrite <- Rinv_1 at 3. apply Rinv_le_contravar; lra. }
    set (w := / (1 * (1 + 0.045 * ((0 + C2p) / 2)))) in *.
    change (0 <= C2p * w <= 0.000001). split.
    - apply Rmult_le_pos; lra.
    - apply Rle_trans with (C2p * 1); [apply Rmult_le_compat_l; lra|lra]. }
  set (tL := lightnessTerm 0 Lg) in *. set (tC := chromaTerm 0 C2p) in *.
  apply sqrt_between; nra.
Qed.

Lemma greyDistance_stored : 0 < fround greyDistance.
Proof.
  pose proof greyDistance_bounds as Hd.
  pose proof (fround_between_pos Hf 0.1 2 greyDistance ltac:(lra) ltac:(lra) Hd). lra.
Qed.

Lemma baseOf_grey (pal : list PaletteLab.t) (pi : nat) :
  palAt pal pi = entryGrey -> baseOf pal 0 0 0 pi = greyDistance.
Proof. intros E. unfold baseOf. rewrite E. reflexivity. Qed.

Lemma baseOf_black (pal : list PaletteLab.t) (pi : nat) :
  palAt pal pi = entryBlack -> baseOf pal 0 0 0 pi = 0.
Proof.
  intros E. unfold baseOf. rewrite E. destruct entryBlack_lab as (-> & -> & -> & _).
  apply deltaE00_same.
Qed.

Lemma specCost_black_black (hW : R) : specCost 0 0 0 hW entryBlack = 0.
Proof.
  unfold specCost. cbv zeta. destruct entryBlack_lab as (-> & -> & -> & ->).
  rewrite deltaE00_same, hypot_0_0, Rminus_0_r, Rabs_R0.
  rewrite Rmax_left by lra.
  destruct (Rle_dec 3.0 0) as [H'|_]; [exfalso; lra|].
  destruct (Rlt_dec 0 6.0) as [_|H']; [|exfalso; lra]. lra.
Qed.

Lemma storedCost_black_black (hW : R) : storedCost 0 0 0 hW entryBlack = 0.
Proof.
  unfold storedCost. cbv zeta. destruct entryBlack_lab as (-> & -> & -> & ->).
  rewrite deltaE00_same, (fround_zero Hf), hypot_0_0, Rminus_0_r, Rabs_R0.
  rewrite Rmax_left by lra.
  destruct (Rle_dec 3.0 0) as [H'|_]; [exfalso; lra|].
  destruct (Rlt_dec 0 6.0) as [_|H']; [|exfalso; lra]. lra.
Qed.

Lemma penalties_black_grey (base : R) :
  base
  <= base + 0.7 * Rmax 0 (Rabs (0 - PaletteLab.L entryGrey) - 3.0)
     + 0.7 * Rmax 0 (Rabs (hypot 0 0 - PaletteLab.C entryGrey) - 3.0)
     + (if Rle_dec 3.0 (hypot 0 0) then 0 else 0)
     + (if Rlt_dec (hypot 0 0) 6.0 then 0.15 * PaletteLab.C entryGrey else 0).
Proof.
  rewrite hypot_0_0.
  destruct entryGrey_lab as (_ & _ & _ & EC).
  pose proof (hypot_nonneg (Lab.a labGrey) (Lab.b labGrey)) as HC. rewrite <- EC in HC.
  pose proof (Rmax_l 0 (Rabs (0 - PaletteLab.L entryGrey) - 3.0)).
  pose proof (Rmax_l 0 (Rabs (0 - PaletteLab.C entryGrey) - 3.0)).
  destruct (Rle_dec 3.0 0) as [H'|_]; [exfalso; lra|].
  destruct (Rlt_dec 0 6.0) as [_|H']; [|exfalso; lra]. lra.
Qed.

Lemma specCost_black_grey (hW : R) : 0 < specCost 0 0 0 hW entryGrey.
Proof.
  pose proof (penalties_black_grey greyDistance) as Hp.
  pose proof greyDistance_bounds as Hd.
  unfold specCost. cbv zeta. fold greyDistance.
  destruct (Rle_dec 3.0 (hypot 0 0)) as [H'|_];
    [exfalso; rewrite hypot_0_0 in H'; lra|].
  destruct (Rle_dec 3.0 (hypot 0 0)) as [H'|_] in Hp;
    [exfalso; rewrite hypot_0_0 in H'; lra|].
  lra.
Qed.

Lemma storedCost_black_grey (hW : R) : 0 < storedCost 0 0 0 hW entryGrey.
Proof.
  pose proof (penalties_black_grey (fround greyDistance)) as Hp.
  pose proof greyDistance_stored as Hd.
  unfold storedCost. cbv zeta. fold greyDistance.
  destruct (Rle_dec 3.0 (hypot 0 0)) as [H'|_];
    [exfalso; rewrite hypot_0_0 in H'; lra|].
  destruct (Rle_dec 3.0 (hypot 0 0)) as [H'|_] in Hp;
    [exfalso; rewrite hypot_0_0 in H'; lra|].
  lra.
Qed.

Lemma lab_blackPixel :
  let arrs := labArrays (data blackPixel) 1 1 in
  realAt (Larr arrs) 0 = 0 /\ realAt (Aarr arrs) 0 = 0 /\ realAt (Barr arrs) 0 = 0.
Proof.
  cbv zeta.
  destruct (labArrays_lookup (data blackPixel) 1 1 0 ltac:(lia)) as (EL & EA & EB).
  rewrite (pixelLab_opaque (data blackPixel) 0 0 0 0 255 eq_refl ltac:(lia)) in EL, EA, EB.
  rewrite (rgbToLab_dark 0 0 0) in EL, EA, EB by lra.
  fold labBlack in EL, EA, EB. rewrite labBlack_eq in EL, EA, EB.
  cbn [Lab.L Lab.a Lab.b] in EL, EA, EB. rewrite (fround_zero Hf) in EL, EA, EB. auto.
Qed.

(** C6 fails on a palette of 32769 entries: the last one, black, is the
    nearest to a black pixel and enters the shortlist, but under the index
    -32768, which the refinement pass skips; the pixel becomes grey although
    black, at an adjusted cost of 0, is the cheapest shortlisted entry, in
    the words of the specification ([specCost]) and as the program computes
    the cost ([storedCost]). *)
Theorem long_palette_drops_cheapest_candidate :
  let pal := paletteLab longPalette in
  let hWeight := hueWeightAt (labArrays (data blackPixel) 1 1) 1 1 0%Z 0%Z in
  let sl := shortlist pal 0 0 0 in
  pixelLab (data blackPixel) 0 = mkLab 0 0 0
  /\ exists black grey img',
    pal !! Z.to_nat 32768 = Some black
    /\ idxAt (topIdx sl) 0 = (-32768)%Z
    /\ scoreAt (topScore sl) 0
       = Finite (fround (deltaE00 0 0 0
                           (PaletteLab.L black) (PaletteLab.a black) (PaletteLab.b black)))
    /\ specCost 0 0 0 hWeight black < specCost 0 0 0 hWeight grey
    /\ storedCost 0 0 0 hWeight black < storedCost 0 0 0 hWeight grey
    /\ (PaletteLab.r black, PaletteLab.g black, PaletteLab.b8 black, PaletteLab.a8 black)
       = (0, 0, 0, 255)%Z
    /\ (PaletteLab.r grey, PaletteLab.g grey, PaletteLab.b8 grey, PaletteLab.a8 grey)
       = (5, 5, 5, 255)%Z
    /\ mapImageDataToPalette blackPixel longPalette = Some img'
    /\ pixelAt (data img') 0
       = Some (PaletteLab.r grey, PaletteLab.g grey, PaletteLab.b8 grey, PaletteLab.a8 grey).
Proof.
  intros pal hWeight sl. subst sl.
  split.
  { rewrite (pixelLab_opaque (data blackPixel) 0 0 0 0 255 eq_refl ltac:(lia)).
    rewrite (rgbToLab_dark 0 0 0) by lra. fold labBlack. rewrite labBlack_eq.
    cbn [Lab.L Lab.a Lab.b]. rewrite (fround_zero Hf). reflexivity. }
  set (n := Z.to_nat 32768).
  assert (Hn : (8 <= n)%nat) by (subst n; lia).
  assert (HnZ : Z.of_nat n = 32768%Z) by (subst n; lia).
  assert (Hlen : length pal = S n).
  { apply length_paletteLab. apply length_greys. }
  assert (Hgrey : forall pi, (pi < n)%nat -> palAt pal pi = entryGrey).
  { intros pi Hpi. apply palAt_greys_grey. exact Hpi. }
  assert (Hblack : palAt pal n = entryBlack) by apply palAt_greys_black.
  assert (Hsl : shortlist pal 0 0 0 =
                mkShortlist (toInt16 (Z.of_nat n) :: map Z.of_nat (seq 1 7))
                  (Finite 0 :: replicate 7 (Finite (fround greyDistance)))).
  { apply shortlist_long; try assumption.
    - apply greyDistance_stored.
    - intros pi Hpi. apply baseOf_grey. apply Hgrey. exact Hpi.
    - apply baseOf_black. exact Hblack. }
  destruct (perceptual_pixel_final blackPixel longPalette (S n) 0 0 (0, 0, 0, 255)%Z)
    as (img' & Himg & Hout).
  { apply length_greys. }
  { lia. }
  { apply isByte_greys. }
  { cbn. lia. }
  { cbn. lia. }
  { reflexivity. }
  { cbn. lia. }
  exists entryBlack, entryGrey, img'.
  split; [rewrite <- Hblack; apply palAt_lookup; lia|].
  rewrite Hsl, HnZ.
  split; [reflexivity|].
  split.
  { destruct entryBlack_lab as (-> & -> & -> & _).
    rewrite deltaE00_same, (fround_zero Hf). reflexivity. }
  split.
  { rewrite specCost_black_black. apply specCost_black_grey. }
  split.
  { rewrite storedCost_black_black. apply storedCost_black_grey. }
  split; [reflexivity|]. split; [reflexivity|]. split; [exact Himg|].
  change (0 * width blackPixel + 0)%nat with 0%nat in Hout. rewrite Hout. cbv zeta.
  unfold bestEntry. change (0 * width blackPixel + 0)%nat with 0%nat.
  change (width blackPixel) with 1%nat. change (height blackPixel) with 1%nat.
  destruct lab_blackPixel as (EL & EA & EB). rewrite EL, EA, EB.
  fold pal. rewrite Hsl.
  set (hW := hueWeightAt _ _ _ _ _).
  assert (Href : refine pal 0 0 0 (hypot 0 0) hW
                   (mkShortlist (toInt16 (Z.of_nat n) :: map Z.of_nat (seq 1 7))
                      (Finite 0 :: replicate 7 (Finite (fround greyDistance))))
                 = (1%Z, Finite (storedCost 0 0 0 hW entryGrey))).
  { apply (refine_long pal 0 0 0 (hypot 0 0) hW n (fround greyDistance)
             (storedCost 0 0 0 hW entryGrey) entryGrey Hn).
    - rewrite HnZ. reflexivity.
    - exact Hgrey.
    - apply adjustedCost_stored. reflexivity. }
  rewrite Href. cbn [fst]. change (Z.to_nat 1) with 1%nat.
  rewrite Hgrey by lia. reflexivity.
Qed.

End Float32Store.

#[local] Existing Instance exactFloat32.

Lemma long_palette_drops_cheapest_candidate_witness :
  let pal := paletteLab longPalette in
  let hWeight := hueWeightAt (labArrays (data blackPixel) 1 1) 1 1 0%Z 0%Z in
  let sl := shortlist pal 0 0 0 in
  pixelLab (data blackPixel) 0 = mkLab 0 0 0
  /\ exists black grey img',
    pal !! Z.to_nat 32768 = Some black
    /\ idxAt (topIdx sl) 0 = (-32768)%Z
    /\ scoreAt (topScore sl) 0
       = Finite (fround (deltaE00 0 0 0
                           (PaletteLab.L black) (PaletteLab.a black) (PaletteLab.b black)))
    /\ specCost 0 0 0 hWeight black < specCost 0 0 0 hWeight grey
    /\ storedCost 0 0 0 hWeight black < storedCost 0 0 0 hWeight grey
    /\ (PaletteLab.r black, PaletteLab.g black, PaletteLab.b8 black, PaletteLab.a8 black)
       = (0, 0, 0, 255)%Z
    /\ (PaletteLab.r grey, PaletteLab.g grey, PaletteLab.b8 grey, PaletteLab.a8 grey)
       = (5, 5, 5, 255)%Z
    /\ mapImageDataToPalette blackPixel longPalette = Some img'
    /\ pixelAt (data img') 0
       = Some (PaletteLab.r grey, PaletteLab.g grey, PaletteLab.b8 grey, PaletteLab.a8 grey).
Proof. apply (long_palette_drops_cheapest_candidate exactFloat32_rounding). Defined.

End LongPaletteExample.

(** ** Transparent pixels in the perceptual mapper *)

Module TransparencyProps.

Import Js Image Lab Perceptual Examples ImageProps LabProps PerceptualProps
  HueWeightExample.
Local Open Scope R_scope.

Section Float32Store.

Context `{Float32}.

(** C10: the precomputation stores (0, 0, 0) for a fully transparent pixel;
    the sums of the hue weight run over every neighbour inside the image,
    whatever its alpha; and making one neighbour transparent, its colour
    channels unchanged, changes the hue weight of the pixel beside it (from 0
    to about 0.69 here) and the palette colour chosen for that pixel (from
    the grey to black here), whatever the rounding of the stored Lab values,
    as long as it is a rounding to float32. *)
Theorem transparent_neighbours_enter_hue_weight :
  (forall (img : ImageData) (x y : nat) (r g b : Z),
     (x < width img)%nat -> (y < height img)%nat ->
     pixelAt (data img) (y * width img + x) = Some (r, g, b, 0%Z) ->
     let arrs := labArrays (data img) (width img) (height img) in
     Larr arrs !! (y * width img + x)%nat = Some 0
     /\ Aarr arrs !! (y * width img + x)%nat = Some 0
     /\ Barr arrs !! (y * width img + x)%nat = Some 0)
  /\ (forall (arrs : LabArrays) (w h : nat) (x y : Z),
        hueSums arrs w h x y =
        fold_left (addSample arrs) (neighbours w h x y) (mkSums 0 0 0 0 0)
        /\ count (hueSums arrs w h x y) = length (neighbours w h x y))
  /\ (Float32Rounding ->
      hueWeightAt (labArrays (data opaqueNeighbour) 2 1) 2 1 0 0 = 0
      /\ 0.68 <= hueWeightAt (labArrays (data transparentNeighbour) 2 1) 2 1 0 0 <= 0.69
      /\ (exists img',
            mapImageDataToPalette opaqueNeighbour palette2 = Some img'
            /\ pixelAt (data img') 0 = Some (5, 5, 5, 255)%Z)
      /\ (exists img',
            mapImageDataToPalette transparentNeighbour palette2 = Some img'
            /\ pixelAt (data img') 0 = Some (0, 0, 0, 255)%Z)).
Proof.
  split; [|split; [|intros Hf; split; [|split; [|split]]]].
  - intros img x y r g b Hx Hy Hpx arrs.
    destruct (labArrays_at (data img) (width img) (height img) x y Hx Hy) as (VL & VA & VB).
    rewrite (pixelLab_transparent _ _ r g b Hpx) in VL, VA, VB. auto.
  - intros arrs w h x y. split; [apply hueSums_neighbours|].
    rewrite hueSums_neighbours, addSample_count. cbn [count]. lia.
  - apply hueWeight_opaque, Hf.
  - apply hueWeight_transparent, Hf.
  - apply opaque_neighbour_mapped, Hf.
  - apply transparent_neighbour_mapped, Hf.
Qed.

End Float32Store.

#[local] Existing Instance exactFloat32.

Lemma transparent_neighbours_enter_hue_weight_witness :
  hueWeightAt (labArrays (data opaqueNeighbour) 2 1) 2 1 0 0 = 0
  /\ 0.68 <= hueWeightAt (labArrays (data transparentNeighbour) 2 1) 2 1 0 0 <= 0.69
  /\ (exists img',
        mapImageDataToPalette opaqueNeighbour palette2 = Some img'
        /\ pixelAt (data img') 0 = Some (5, 5, 5, 255)%Z)
  /\ (exists img',
        mapImageDataToPalette transparentNeighbour palette2 = Some img'
        /\ pixelAt (data img') 0 = Some (0, 0, 0, 255)%Z).
Proof.
  apply (proj2 (proj2 transparent_neighbours_enter_hue_weight)), exactFloat32_rounding.
Defined.

End TransparencyProps.

(** ** The worker's handlers *)

Module WorkerProps.

Import Js Image Tiles Worker TilesProps.
Local Open Scope Z_scope.

Section WithCanvas.

Context `{Canvas} `{Float32}.

Lemma finishProcess_cases (st : State) (msg : PixelateProcessMessage) (tx ty : Z)
    (pixels : list Z) :
  (activeJobId st <> Some (jobId msg) /\ finishProcess st msg tx ty pixels = (st, []))
  \/ (activeJobId st = Some (jobId msg)
      /\ finishProcess st msg tx ty pixels =
         (mkState (activeJobId st) (Some (jobId msg)) (lastSourceBitmap st)
            (lastBlockSize st) (lastPalette st) (lastColorizeEnabled st)
            (lastAdvancedColorize st),
          [result (jobId msg) (transferToImageBitmap tx ty pixels)
             (mkMeta tx ty tx ty (tx * ty) (blockSize msg))])).
Proof.
  unfold finishProcess. destruct (decide _) as [Hne|Heq].
  - left. split; [assumption|reflexivity].
  - right. split; [|reflexivity].
    destruct (decide (activeJobId st = Some (jobId msg))); [assumption|contradiction].
Qed.

Lemma handleProcessMessage_outcome (octx : bool) (st : State) (msg : PixelateProcessMessage) :
  ProcessOutcome octx st msg (handleProcessMessage octx st msg).
Proof.
  unfold handleProcessMessage.
  destruct (lastSourceBitmap (storeRequest st msg)) as [source|] eqn:Hsrc.
  2: { apply AbortedNoSource; assumption. }
  destruct (Z.eqb_spec (blockSize msg) 0) as [Hzero|Hnz].
  { eapply AbortedNoCanvas; eauto. }
  destruct (computeTilesDimension _ _ _) as [tx ty] eqn:Hdim.
  destruct octx; simpl.
  2: { eapply AbortedNoContext; eauto. }
  destruct (colorize _ _ _ _) as [pixels|] eqn:Hcol.
  2: { eapply AbortedByThrow; eauto. }
  destruct (finishProcess_cases (storeRequest st msg) msg tx ty pixels) as [[Hne _]|[_ ->]].
  - exfalso. apply Hne. reflexivity.
  - exact (Emitted _ st msg source tx ty pixels Hsrc Hnz eq_refl Hdim Hcol).
Qed.

Lemma handleGenerateBlobMessage_state (octx : bool) (st : State) (j : Z) :
  fst (handleGenerateBlobMessage octx st j) = st.
Proof.
  unfold handleGenerateBlobMessage.
  destruct (lastSourceBitmap st), (lastBlockSize st); try reflexivity.
  destruct (decide _); [reflexivity|].
  destruct (_ =? 0); [reflexivity|].
  destruct (computeTilesDimension _ _ _). destruct octx; simpl; [|reflexivity].
  destruct (colorize _ _ _ _); reflexivity.
Qed.

Lemma handleGenerateBlobMessage_out (octx : bool) (st : State) (j : Z) :
  snd (handleGenerateBlobMessage octx st j) = []
  \/ exists b, snd (handleGenerateBlobMessage octx st j) = [blob j b].
Proof.
  unfold handleGenerateBlobMessage.
  destruct (lastSourceBitmap st), (lastBlockSize st); try (left; reflexivity).
  destruct (decide _); [left; reflexivity|].
  destruct (_ =? 0); [left; reflexivity|].
  destruct (computeTilesDimension _ _ _). destruct octx; [|left; reflexivity].
  cbn [negb]. destruct (colorize _ _ _ _); [right; eexists|left]; reflexivity.
Qed.

Lemma process_emits_at_most_once (octx : bool) (st : State) (msg : PixelateProcessMessage) :
  snd (handleProcessMessage octx st msg) = []
  \/ exists bmp meta, snd (handleProcessMessage octx st msg) = [result (jobId msg) bmp meta].
Proof.
  destruct (handleProcessMessage_outcome octx st msg); simpl; eauto.
Qed.

Lemma run_app (st : State) (ev1 ev2 : list (bool * PixelateIncomingMessage)) :
  run st (ev1 ++ ev2) =
  (fst (run (fst (run st ev1)) ev2), snd (run st ev1) ++ snd (run (fst (run st ev1)) ev2)).
Proof.
  revert st. induction ev1 as [|[octx data] ev1 IH]; intros st; simpl.
  - destruct (run st ev2); reflexivity.
  - destruct (onmessage octx st data) as [st1 out1]. rewrite IH.
    destruct (run st1 ev1) as [st2 out2]. simpl.
    destruct (run st2 ev2) as [st3 out3]. simpl. rewrite app_assoc. reflexivity.
Qed.

Lemma onmessage_results (octx : bool) (st : State) (data : PixelateIncomingMessage) (j : Z) :
  (length (List.filter (isResultFor j) (snd (onmessage octx st data)))
   <= (if isProcessFor j (octx, data) then 1 else 0))%nat.
Proof.
  destruct data as [msg|j'|j']; simpl.
  - unfold isProcessFor; simpl.
    destruct (process_emits_at_most_once octx st msg) as [->|(bmp & meta & ->)]; simpl.
    + lia.
    + destruct (bool_decide (jobId msg = j)); simpl; lia.
  - destruct (decide _); simpl; lia.
  - destruct (handleGenerateBlobMessage_out octx st j') as [->|[b ->]]; simpl; lia.
Qed.

Lemma run_results (events : list (bool * PixelateIncomingMessage)) (st : State) (j : Z) :
  (length (List.filter (isResultFor j) (snd (run st events)))
   <= length (List.filter (isProcessFor j) events))%nat.
Proof.
  revert st. induction events as [|[octx data] events IH]; intros st; simpl; [lia|].
  pose proof (onmessage_results octx st data j) as Hone.
  destruct (onmessage octx st data) as [st1 out1]. specialize (IH st1).
  destruct (run st1 events) as [st2 out2]. simpl in *.
  rewrite List.filter_app, length_app.
  destruct (isProcessFor j (octx, data)); simpl; lia.
Qed.

(** C1, as amended: of the session fields only the last completed job id is
    reserved to a job that reaches Emitted.  The block size, the palette and
    the colorize flag are overwritten from the request, and the source image
    when the request carries one, on every path through the handler; a job
    that posts no result leaves the last completed job id as it was, one that
    posts a result sets it to its own id.  Cancel and export requests change
    no session field. *)
Theorem session_fields_after_message (octx : bool) (st : State) :
  (forall msg,
     let st' := fst (handleProcessMessage octx st msg) in
     let out := snd (handleProcessMessage octx st msg) in
     lastSourceBitmap st' = match bitmap msg with
                            | Some b => Some b
                            | None => lastSourceBitmap st
                            end
     /\ lastBlockSize st' = Some (blockSize msg)
     /\ lastPalette st' = match palette msg with
                          | Some p => if (4 <=? length p)%nat
                                      then Some (Uint8ClampedArray_from p) else None
                          | None => None
                          end
     /\ lastColorizeEnabled st' = default true (colorizeEnabled msg)
     /\ (out = [] -> lastRenderedJobId st' = lastRenderedJobId st)
     /\ (out <> [] -> lastRenderedJobId st' = Some (jobId msg)))
  /\ (forall j, sessionFields (fst (onmessage octx st (cancel j))) = sessionFields st)
  /\ (forall j, sessionFields (fst (onmessage octx st (generateBlob j))) = sessionFields st).
Proof.
  split; [|split].
  - intros msg st' out. subst st' out.
    destruct (handleProcessMessage_outcome octx st msg); simpl;
      repeat split; try reflexivity; try congruence.
  - intros j. simpl. destruct (decide _); reflexivity.
  - intros j. simpl. rewrite handleGenerateBlobMessage_state. reflexivity.
Qed.

(** C5: a process request makes its id the active id on every path; the
    completion step of a job whose id is not the active id posts nothing and
    changes nothing; a process request posts at most one result, carrying its
    own id, and over any sequence of messages the results for an id are no
    more than the requests for it; cancelling the active id clears it, after
    which the completion of that job posts nothing; cancelling another id
    changes nothing. *)
Theorem job_supersession_and_cancellation :
  (forall octx st msg,
     activeJobId (fst (onmessage octx st (process msg))) = Some (jobId msg))
  /\ (forall st msg tx ty pixels,
        activeJobId st <> Some (jobId msg) ->
        finishProcess st msg tx ty pixels = (st, []))
  /\ (forall octx st msg,
        snd (onmessage octx st (process msg)) = []
        \/ exists bmp meta,
             snd (onmessage octx st (process msg)) = [result (jobId msg) bmp meta])
  /\ (forall events st j,
        (length (List.filter (isResultFor j) (snd (run st events)))
         <= length (List.filter (isProcessFor j) events))%nat)
  /\ (forall octx st j,
        activeJobId st = Some j ->
        activeJobId (fst (onmessage octx st (cancel j))) = None
        /\ snd (onmessage octx st (cancel j)) = []
        /\ forall msg tx ty pixels,
             jobId msg = j ->
             snd (finishProcess (fst (onmessage octx st (cancel j))) msg tx ty pixels) = [])
  /\ (forall octx st j,
        activeJobId st <> Some j -> onmessage octx st (cancel j) = (st, [])).
Proof.
  repeat apply conj.
  - intros octx st msg. simpl.
    destruct (handleProcessMessage_outcome octx st msg); reflexivity.
  - intros st msg tx ty pixels Hne.
    destruct (finishProcess_cases st msg tx ty pixels) as [[_ E]|[E _]];
      [exact E|contradiction].
  - intros octx st msg. apply process_emits_at_most_once.
  - intros events st j. apply run_results.
  - intros octx st j Hact. simpl.
    destruct (decide (activeJobId st = Some j)) as [_|Hne]; [|contradiction].
    simpl. split; [reflexivity|]. split; [reflexivity|].
    intros msg tx ty pixels Hj. reflexivity.
  - intros octx st j Hne. simpl.
    destruct (decide (activeJobId st = Some j)); [contradiction|reflexivity].
Qed.

(** C8: for positive sizes the grid is [max 1 (ceil (W / b))] by
    [max 1 (ceil (H / b))], at least 1 x 1, and a posted result carries these
    two numbers as its output size and tile counts and their product as its
    pixel count.  Such a result is posted: with a 2d context, and the colour
    mapper returning [pixels], the handler posts exactly one message, the
    result of the request's job with this metadata and the bitmap of
    [pixels]. *)
Theorem tile_grid_and_meta (W Ht b : Z) :
  0 < W -> 0 < Ht -> 0 < b ->
  exists cx cy,
    isCeiling cx W b /\ isCeiling cy Ht b
    /\ computeTilesDimension W Ht b = (Z.max 1 cx, Z.max 1 cy)
    /\ 1 <= Z.max 1 cx /\ 1 <= Z.max 1 cy
    /\ (forall octx st msg source j bmp meta,
         lastSourceBitmap (storeRequest st msg) = Some source ->
         bitmapWidth source = W -> bitmapHeight source = Ht -> blockSize msg = b ->
         In (result j bmp meta) (snd (handleProcessMessage octx st msg)) ->
         outWidth meta = Z.max 1 cx /\ outHeight meta = Z.max 1 cy
         /\ tilesX meta = Z.max 1 cx /\ tilesY meta = Z.max 1 cy
         /\ totalPixels meta = Z.max 1 cx * Z.max 1 cy
         /\ metaBlockSize meta = b)
    /\ (forall st msg source pixels,
          lastSourceBitmap (storeRequest st msg) = Some source ->
          bitmapWidth source = W -> bitmapHeight source = Ht -> blockSize msg = b ->
          colorize (storeRequest st msg) (Z.max 1 cx) (Z.max 1 cy)
            (drawImage source (Z.max 1 cx) (Z.max 1 cy)) = Some pixels ->
          snd (handleProcessMessage true st msg)
          = [result (jobId msg) (transferToImageBitmap (Z.max 1 cx) (Z.max 1 cy) pixels)
               (mkMeta (Z.max 1 cx) (Z.max 1 cy) (Z.max 1 cx) (Z.max 1 cy)
                  (Z.max 1 cx * Z.max 1 cy) b)]).
Proof.
  intros HW HH Hb. exists (ceilDiv W b), (ceilDiv Ht b).
  split; [apply ceilDiv_isCeiling; assumption|].
  split; [apply ceilDiv_isCeiling; assumption|].
  split; [reflexivity|]. split; [lia|]. split; [lia|]. split.
  - intros octx st msg source j bmp meta Hsrc Hw Hh Hbs Hin.
    destruct (handleProcessMessage_outcome octx st msg)
      as [| | | |source' tx ty pixels Hs _ _ Hdim _];
      simpl in Hin; try contradiction.
    destruct Hin as [Heq|[]]. inversion Heq; subst. clear Heq.
    rewrite Hsrc in Hs. inversion Hs; subst source'.
    unfold computeTilesDimension in Hdim. inversion Hdim; subst.
    simpl. repeat split; reflexivity.
  - intros st msg source pixels Hsrc Hw Hh Hbs Hcol.
    unfold handleProcessMessage. rewrite Hsrc, Hw, Hh, Hbs.
    destruct (Z.eqb_spec b 0) as [Hz|_]; [lia|].
    change (computeTilesDimension W Ht b)
      with (Z.max 1 (ceilDiv W b), Z.max 1 (ceilDiv Ht b)).
    cbn [negb]. rewrite Hcol.
    destruct (finishProcess_cases (storeRequest st msg) msg (Z.max 1 (ceilDiv W b))
                (Z.max 1 (ceilDiv Ht b)) pixels) as [[Hne _]|[_ ->]].
    + exfalso. apply Hne. reflexivity.
    + rewrite Hbs. reflexivity.
Qed.

(** C9: an export request posts an artifact only when its job id is the last
    completed job id and a source image and a block size are stored; when one
    of these fails nothing is posted; no path of the handler changes the
    state.  When they hold, the block size is not 0, a drawing context is
    available and the colour mapper does not throw, exactly one artifact is
    posted, for that id. *)
Theorem export_requires_last_completed_job (octx : bool) (st : State) (j : Z) :
  fst (handleGenerateBlobMessage octx st j) = st
  /\ (forall m, In m (snd (handleGenerateBlobMessage octx st j)) ->
        lastRenderedJobId st = Some j
        /\ lastSourceBitmap st <> None /\ lastBlockSize st <> None
        /\ exists b, m = blob j b)
  /\ (lastRenderedJobId st <> Some j \/ lastSourceBitmap st = None \/ lastBlockSize st = None ->
      handleGenerateBlobMessage octx st j = (st, []))
  /\ (forall src bs pixels,
        lastRenderedJobId st = Some j -> lastSourceBitmap st = Some src ->
        lastBlockSize st = Some bs -> bs <> 0 -> octx = true ->
        colorize st (fst (computeTilesDimension (bitmapWidth src) (bitmapHeight src) bs))
          (snd (computeTilesDimension (bitmapWidth src) (bitmapHeight src) bs))
          (drawImage src
             (fst (computeTilesDimension (bitmapWidth src) (bitmapHeight src) bs))
             (snd (computeTilesDimension (bitmapWidth src) (bitmapHeight src) bs)))
        = Some pixels ->
        exists b, snd (handleGenerateBlobMessage octx st j) = [blob j b]).
Proof.
  split; [apply handleGenerateBlobMessage_state|].
  unfold handleGenerateBlobMessage.
  destruct (lastSourceBitmap st) as [src|] eqn:Hsrc;
    destruct (lastBlockSize st) as [bs|] eqn:Hbs.
  2-4: (split; [intros m []|]; split; [reflexivity|]; intros; discriminate).
  destruct (decide (lastRenderedJobId st <> Some j)) as [Hne|Heq].
  { split; [intros m []|]. split; [reflexivity|]. intros. contradiction. }
  assert (Hlast : lastRenderedJobId st = Some j).
  { destruct (decide (lastRenderedJobId st = Some j)); [assumption|contradiction]. }
  destruct (Z.eqb_spec bs 0) as [Hzero|Hnz].
  { split; [intros m []|]. split.
    - intros [Hn|[Hn|Hn]]; [contradiction|discriminate|discriminate].
    - intros src' bs' pixels _ _ Hb Hbs'. inversion Hb; subst. contradiction. }
  destruct (computeTilesDimension (bitmapWidth src) (bitmapHeight src) bs)
    as [tx ty] eqn:Hdim.
  split; [|split].
  - intros m Hin. split; [assumption|]. split; [discriminate|]. split; [discriminate|].
    destruct octx; cbn [negb] in Hin; [|destruct Hin].
    destruct (colorize st tx ty (drawImage src tx ty)); cbn [snd] in Hin; [|destruct Hin].
    destruct Hin as [<-|[]]. eauto.
  - intros [Hn|[Hn|Hn]]; [contradiction|discriminate|discriminate].
  - intros src' bs' pixels _ Hs Hb _ Hctx Hcol. inversion Hs; inversion Hb; subst.
    rewrite Hdim in Hcol. cbn [fst snd] in Hcol. rewrite Hcol. cbn. eauto.
Qed.

End WithCanvas.

#[local] Existing Instance exactFloat32.

(** C1, as the specification states it, fails: the first request of a session,
    sent without a bitmap, posts no result, yet the stored block size has
    changed. *)
Lemma aborted_job_changes_session_state :
  let msg := mkProcess 1 8 None None None None in
  snd (handleProcessMessage true initialState msg) = []
  /\ sessionFields (fst (handleProcessMessage true initialState msg))
     <> sessionFields initialState.
Proof. simpl. split; [reflexivity|]. unfold sessionFields. simpl. congruence. Qed.

Lemma tile_grid_and_meta_witness :
  computeTilesDimension 32 32 16 = (2, 2)
  /\ snd (handleProcessMessage true initialState firstRequest)
     = [result 1 (mkSolid 2 2 (solidFill 2 2 [255; 0; 0; 255])) (mkMeta 2 2 2 2 4 16)].
Proof.
  destruct (tile_grid_and_meta (H := solidCanvas) 32 32 16 ltac:(lia) ltac:(lia) ltac:(lia))
    as (cx & cy & _ & _ & Hdim & _ & _ & _ & Hpost).
  change (computeTilesDimension 32 32 16) with (2, 2) in Hdim.
  injection Hdim as E1 E2. rewrite <- E1, <- E2 in Hpost. split; [reflexivity|].
  apply (Hpost initialState firstRequest red32 (solidFill 2 2 [255; 0; 0; 255]));
    reflexivity.
Defined.

Lemma session_fields_after_message_witness :
  snd (handleProcessMessage true initialState firstRequest) <> []
  /\ lastRenderedJobId afterFirst = Some 1
  /\ lastBlockSize afterFirst = Some 16
  /\ lastSourceBitmap afterFirst = Some red32.
Proof.
  destruct (session_fields_after_message true initialState) as [Hproc _].
  destruct (Hproc firstRequest) as (Hsrc & Hbs & _ & _ & _ & Hdone).
  assert (Hout : snd (handleProcessMessage true initialState firstRequest) <> [])
    by (vm_compute; discriminate).
  split; [exact Hout|]. split; [exact (Hdone Hout)|]. split; [exact Hbs|exact Hsrc].
Defined.

Lemma job_supersession_and_cancellation_witness :
  activeJobId afterFirst = Some 1
  /\ activeJobId (fst (onmessage true afterFirst (cancel 1))) = None
  /\ snd (finishProcess (fst (onmessage true afterFirst (cancel 1))) firstRequest 2 2 []) = []
  /\ onmessage true afterFirst (cancel 7) = (afterFirst, []).
Proof.
  destruct job_supersession_and_cancellation as (Hact & _ & _ & _ & Hcancel & Hother).
  pose proof (Hact true initialState firstRequest) as H1.
  change (activeJobId afterFirst = Some 1) in H1.
  destruct (Hcancel true afterFirst 1 H1) as (Hnone & _ & Hlate).
  split; [exact H1|]. split; [exact Hnone|]. split; [exact (Hlate firstRequest 2 2 [] eq_refl)|].
  apply Hother. rewrite H1. intros E. discriminate E.
Defined.

Lemma export_requires_last_completed_job_witness :
  (exists b, snd (handleGenerateBlobMessage true afterFirst 1) = [blob 1 b])
  /\ handleGenerateBlobMessage true afterFirst 2 = (afterFirst, []).
Proof.
  split.
  - destruct (export_requires_last_completed_job true afterFirst 1) as (_ & _ & _ & Hpost).
    eapply (Hpost red32 16); try reflexivity. lia.
  - destruct (export_requires_last_completed_job true afterFirst 2) as (_ & _ & Hnone & _).
    apply Hnone. left. vm_compute. discriminate.
Defined.

End WorkerProps.

(** * Further properties *)

(** ** The components of a parsed colour *)

Module ParserProps.

Import Js Route RouteProps.
Local Open Scope Z_scope.

(** Every pair of code units, by enumeration. *)
Lemma parseInt16_pairs_checked :
  forallb
    (fun n1 =>
       forallb
         (fun n2 =>
            match parseInt16 [ascii_of_nat n1; ascii_of_nat n2] with
            | NaN => true
            | Int v => (-15 <=? v) && (v <=? 255)
            end)
         (seq 0 256))
    (seq 0 256) = true.
Proof. vm_compute. reflexivity. Qed.

Lemma parseInt16_pair_range (c1 c2 : ascii) (v : Z) :
  parseInt16 [c1; c2] = Int v -> -15 <= v <= 255.
Proof.
  intros E. pose proof parseInt16_pairs_checked as Hall.
  rewrite forallb_forall in Hall.
  specialize (Hall (nat_of_ascii c1)).
  rewrite forallb_forall in Hall.
  assert (H1 : In (nat_of_ascii c1) (seq 0 256)).
  { apply in_seq. pose proof (nat_ascii_bounded c1). lia. }
  assert (H2 : In (nat_of_ascii c2) (seq 0 256)).
  { apply in_seq. pose proof (nat_ascii_bounded c2). lia. }
  specialize (Hall H1 (nat_of_ascii c2) H2).
  rewrite !ascii_nat_embedding, E in Hall.
  apply andb_true_iff in Hall as [Hlo Hhi]. lia.
Qed.

(** X1: whatever the string, a parsed colour has alpha 0 or 255, and each
    of its other components is [NaN] or an integer between -15 and 255:
    nothing above a byte is ever produced. *)
Theorem hex_components_range (hex : string) (r g b a : num) :
  hexToRgbaComponents hex = Some (r, g, b, a) ->
  (a = Int 0 \/ a = Int 255)
  /\ (forall c v, In c [r; g; b] -> c = Int v -> -15 <= v <= 255).
Proof.
  intros E. unfold hexToRgbaComponents in E. cbv zeta in E.
  destruct (List.list_eq_dec _ _ _) as [_|_].
  { injection E as <- <- <- <-. split; [left; reflexivity|].
    intros c v Hc ->. cbn in Hc. destruct Hc as [Hc|[Hc|[Hc|[]]]]; injection Hc as <-; lia. }
  set (h := if startsWithHash _ then _ else _) in E.
  destruct (decide (length h = HEX_TRIPLET_LEN)) as [H3|_].
  { destruct h as [|c1 [|c2 [|c3 [|c4 h]]]]; try discriminate H3.
    cbn [charAt lookup list_lookup app] in E. injection E as <- <- <- <-.
    split; [right; reflexivity|].
    intros c v Hc Ev. cbn in Hc. destruct Hc as [<-|[<-|[<-|[]]]];
      apply parseInt16_pair_range in Ev; exact Ev. }
  destruct (decide (length h = HEX_SIX_LEN)) as [H6|_]; [|discriminate E].
  destruct h as [|c1 [|c2 [|c3 [|c4 [|c5 [|c6 [|c7 h]]]]]]]; try discriminate H6.
  cbn [slice skipn firstn Nat.sub] in E. injection E as <- <- <- <-.
  split; [right; reflexivity|].
  intros c v Hc Ev. cbn in Hc. destruct Hc as [<-|[<-|[<-|[]]]];
    apply parseInt16_pair_range in Ev; exact Ev.
Qed.

Lemma hex_components_range_witness :
  (Int 255 = Int 0 \/ Int 255 = Int 255)
  /\ (forall c v, In c [Int (-15); NaN; Int 171] -> c = Int v -> -15 <= v <= 255).
Proof.
  apply (hex_components_range "-fzzab" (Int (-15)) NaN (Int 171) (Int 255)).
  reflexivity.
Defined.

End ParserProps.

(** ** The selection of palette entries *)

Module SelectionProps.

Import Js Route.
Local Open Scope Z_scope.

Lemma pushEntry_app (keys : list string) (out : list num) (e : PaletteEntry) :
  pushEntry keys out e = out ++ (if isSelected keys e then entryQuad e else []).
Proof.
  unfold pushEntry, isSelected, entryQuad.
  destruct (existsb _ _); [|rewrite app_nil_r; reflexivity].
  destruct (hexToRgbaComponents (hex e)) as [[[[r g] b] a]|];
    [reflexivity|rewrite app_nil_r; reflexivity].
Qed.

Lemma fold_pushEntry (keys : list string) (entries : list PaletteEntry) (out : list num) :
  fold_left (pushEntry keys) entries out =
  out ++ flat_map entryQuad (List.filter (isSelected keys) entries).
Proof.
  revert out. induction entries as [|e entries IH]; intros out; cbn [fold_left List.filter].
  - cbn. rewrite app_nil_r. reflexivity.
  - rewrite IH, pushEntry_app. destruct (isSelected keys e); cbn [flat_map].
    + rewrite <- app_assoc. reflexivity.
    + rewrite app_nil_r. reflexivity.
Qed.

Lemma length_entryQuad (e : PaletteEntry) :
  length (entryQuad e) = 0%nat \/ length (entryQuad e) = 4%nat.
Proof.
  unfold entryQuad. destruct (hexToRgbaComponents (hex e)) as [[[[r g] b] a]|]; auto.
Qed.

Lemma length_flat_entryQuad (l : list PaletteEntry) :
  (length (flat_map entryQuad l) mod 4 = 0)%nat.
Proof.
  induction l as [|e l IH]; [reflexivity|].
  cbn [flat_map]. rewrite length_app.
  destruct (length_entryQuad e) as [-> | ->]; [exact IH|].
  rewrite <- Nat.Div0.add_mod_idemp_l. exact IH.
Qed.

Lemma flat_entryQuad_nonempty (l : list PaletteEntry) :
  (4 <= length (flat_map entryQuad l))%nat
  <-> exists e, In e l /\ hexToRgbaComponents (hex e) <> None.
Proof.
  induction l as [|e l IH]; cbn [flat_map length].
  - split; [lia|intros (e & [] & _)].
  - rewrite length_app. unfold entryQuad at 1.
    destruct (hexToRgbaComponents (hex e)) as [[[[r g] b] a]|] eqn:E; cbn [length].
    + split; [|lia]. intros _. exists e. split; [left; reflexivity|]. rewrite E. discriminate.
    + rewrite Nat.add_0_l, IH. split.
      * intros (e' & Hin & Hp). exists e'. split; [right; exact Hin|exact Hp].
      * intros (e' & [<-|Hin] & Hp); [rewrite E in Hp; contradiction|].
        exists e'. split; [exact Hin|exact Hp].
Qed.

Lemma selectedPaletteArray_eq (entries : list PaletteEntry) (keys : list string) :
  selectedPaletteArray entries keys
  = flat_map entryQuad (List.filter (isSelected keys) entries).
Proof.
  unfold selectedPaletteArray. rewrite fold_pushEntry. cbn [app].
  unfold RGBA_STRIDE. rewrite length_flat_entryQuad.
  destruct (decide _) as [Hn|_]; [exfalso; apply Hn; reflexivity|reflexivity].
Qed.

Lemma length_selectedPaletteArray (entries : list PaletteEntry) (keys : list string) :
  (length (selectedPaletteArray entries keys) mod 4 = 0)%nat.
Proof. rewrite selectedPaletteArray_eq. apply length_flat_entryQuad. Qed.

(** X2: the flattened palette lists, in the order of the palette and not of the
    selection, the four numbers of every selected entry whose colour string
    parses; its length is a multiple of four, so that the final [slice] never
    removes anything. *)
Theorem selectedPaletteArray_flat (entries : list PaletteEntry) (keys : list string) :
  selectedPaletteArray entries keys
  = flat_map entryQuad (List.filter (isSelected keys) entries)
  /\ (length (selectedPaletteArray entries keys) mod 4 = 0)%nat.
Proof. split; [apply selectedPaletteArray_eq|apply length_selectedPaletteArray]. Qed.

Lemma existsb_eqb_In (k : string) (l : list string) :
  existsb (String.eqb k) l = true <-> In k l.
Proof.
  rewrite existsb_exists. split.
  - intros (x & Hx & E). apply String.eqb_eq in E. subst. exact Hx.
  - intros Hk. exists k. split; [exact Hk|apply String.eqb_refl].
Qed.

(** X3: toggling a key flips its membership and leaves every other key as it
    was; a selection without repetition stays so; and toggling a key that
    was absent twice gives the selection back. *)
Theorem toggleKey_flips (k : string) (prev : list string) :
  (In k (toggleKey k prev) <-> ~ In k prev)
  /\ (forall x, x <> k -> (In x (toggleKey k prev) <-> In x prev))
  /\ (List.NoDup prev -> List.NoDup (toggleKey k prev))
  /\ (~ In k prev -> toggleKey k (toggleKey k prev) = prev).
Proof.
  unfold toggleKey at 1 2 3.
  destruct (existsb (String.eqb k) prev) eqn:E.
  - apply existsb_eqb_In in E.
    split; [|split; [|split]].
    + rewrite filter_In, String.eqb_refl. cbn. split; [intros [_ H]; discriminate|tauto].
    + intros x Hx. rewrite filter_In. apply String.eqb_neq in Hx. rewrite Hx. cbn. tauto.
    + intros Hnd. apply List.NoDup_filter. exact Hnd.
    + intros Hn. contradiction.
  - assert (Hk : ~ In k prev).
    { intros Hk. apply existsb_eqb_In in Hk. congruence. }
    split; [|split; [|split]].
    + rewrite in_app_iff. cbn. tauto.
    + intros x Hx. rewrite in_app_iff. cbn. split; [intros [H|[H|[]]]; congruence|tauto].
    + intros Hnd. apply List.NoDup_app; [exact Hnd|repeat constructor; intros []|].
      intros x Hx [<-|[]]. contradiction.
    + intros _. unfold toggleKey. rewrite E.
      assert (Ein : existsb (String.eqb k) (prev ++ [k]) = true).
      { apply existsb_eqb_In. rewrite in_app_iff. cbn. auto. }
      rewrite Ein, List.filter_app. cbn [List.filter]. rewrite String.eqb_refl. cbn [negb].
      rewrite app_nil_r. clear E Ein. induction prev as [|x prev IH]; [reflexivity|].
      cbn [List.filter]. destruct (String.eqb_spec x k) as [->|Hne].
      * exfalso. apply Hk. left. reflexivity.
      * cbn [negb]. f_equal. apply IH. intros H. apply Hk. right. exact H.
Qed.

Lemma toggleKey_flips_witness :
  toggleKey "b" (toggleKey "b" ["a"%string]) = ["a"%string].
Proof.
  apply (proj2 (proj2 (proj2 (toggleKey_flips "b" ["a"%string])))).
  intros [H|[]]. discriminate H.
Defined.

Lemma NoDup_map_inj {A B : Type} (f : A -> B) (l : list A) (x y : A) :
  List.NoDup (map f l) -> In x l -> In y l -> f x = f y -> x = y.
Proof.
  induction l as [|a l IH]; intros Hnd Hx Hy E; [destruct Hx|].
  cbn [map] in Hnd. inversion Hnd as [|? ? Hnotin Hnd']; subst.
  destruct Hx as [->|Hx], Hy as [->|Hy].
  - reflexivity.
  - exfalso. apply Hnotin. rewrite E. apply in_map. exact Hy.
  - exfalso. apply Hnotin. rewrite <- E. apply in_map. exact Hx.
  - apply IH; assumption.
Qed.

Lemma filter_ext_In' {A : Type} (f g : A -> bool) (l : list A) :
  (forall x, In x l -> f x = g x) -> List.filter f l = List.filter g l.
Proof.
  induction l as [|a l IH]; intros H; [reflexivity|].
  cbn [List.filter]. rewrite (H a) by (left; reflexivity).
  rewrite IH; [reflexivity|]. intros x Hx. apply H. right. exact Hx.
Qed.

Lemma filter_true {A : Type} (f : A -> bool) (l : list A) :
  (forall x, In x l -> f x = true) -> List.filter f l = l.
Proof.
  induction l as [|a l IH]; intros H; [reflexivity|].
  cbn [List.filter]. rewrite (H a) by (left; reflexivity).
  f_equal. apply IH. intros x Hx. apply H. right. exact Hx.
Qed.

(** X4: after "select all" the flattened palette holds every entry that parses;
    after selecting by the premium flag, in a palette whose keys are
    distinct, it holds the parsed entries with that flag and no other. *)
Theorem selectAll_palette (entries : list PaletteEntry) :
  selectedPaletteArray entries (selectAll entries None) = flat_map entryQuad entries
  /\ (List.NoDup (map key entries) ->
      forall p,
        selectedPaletteArray entries (selectAll entries (Some p))
        = flat_map entryQuad (List.filter (fun e => Bool.eqb (isPremium e) p) entries)).
Proof.
  split.
  - rewrite selectedPaletteArray_eq. f_equal. apply filter_true.
    intros e He. unfold isSelected, selectAll. apply existsb_eqb_In. apply in_map. exact He.
  - intros Hnd p. rewrite selectedPaletteArray_eq. f_equal. apply filter_ext_In'.
    intros e He. unfold isSelected, selectAll.
    destruct (Bool.eqb (isPremium e) p) eqn:Ep.
    + apply existsb_eqb_In. apply in_map. apply filter_In. auto.
    + destruct (existsb _ _) eqn:Ex; [|reflexivity].
      apply existsb_eqb_In in Ex. apply in_map_iff in Ex as (e' & Ek & He').
      apply filter_In in He' as [He' Ep'].
      assert (e' = e) by (apply (NoDup_map_inj key entries); assumption).
      subst e'. congruence.
Qed.

Lemma selectAll_palette_witness :
  let entries := [mkPaletteEntry "a" "#f00" true; mkPaletteEntry "b" "00ff00" false] in
  selectedPaletteArray entries (selectAll entries (Some true))
  = flat_map entryQuad (List.filter (fun e => Bool.eqb (isPremium e) true) entries).
Proof.
  intros entries.
  apply (proj2 (selectAll_palette entries)).
  repeat constructor; cbn; intuition discriminate.
Defined.

End SelectionProps.

(** ** The tile grid and the grid overlay *)

Module GridProps.

Import Js Tiles Viewer TilesProps.
Local Open Scope Z_scope.

Lemma ceilDiv_le (a b q : Z) : 0 < b -> (ceilDiv a b <= q <-> a <= q * b).
Proof.
  intros Hb. pose proof (ceilDiv_isCeiling a b Hb) as Hc. unfold isCeiling in Hc.
  split; intros H; nia.
Qed.

Lemma ceilDiv_mono_l (a a' b : Z) : 0 < b -> a <= a' -> ceilDiv a b <= ceilDiv a' b.
Proof.
  intros Hb Ha. apply ceilDiv_le; [assumption|].
  pose proof (ceilDiv_isCeiling a' b Hb) as Hc. unfold isCeiling in Hc. lia.
Qed.

Lemma ceilDiv_anti_r (a b b' : Z) :
  0 <= a -> 0 < b -> b <= b' -> ceilDiv a b' <= ceilDiv a b.
Proof.
  intros Ha Hb Hbb. apply ceilDiv_le; [lia|].
  pose proof (ceilDiv_isCeiling a b Hb) as Hc. unfold isCeiling in Hc.
  assert (0 <= ceilDiv a b) by nia. nia.
Qed.

(** X5: the grid is never larger than the source: for a source of at least one
    pixel and a block size of at least 1, each side of the grid is between 1
    and the side of the source, with equality to the source at block size 1
    and a single tile once the block covers the side. *)
Theorem grid_within_source (W Ht b : Z) :
  1 <= W -> 1 <= Ht -> 1 <= b ->
  let tx := fst (computeTilesDimension W Ht b) in
  let ty := snd (computeTilesDimension W Ht b) in
  1 <= tx <= W /\ 1 <= ty <= Ht /\ tx * ty <= W * Ht
  /\ (b = 1 -> tx = W /\ ty = Ht)
  /\ (W <= b -> tx = 1) /\ (Ht <= b -> ty = 1).
Proof.
  intros HW HH Hb. unfold computeTilesDimension. cbn [fst snd].
  pose proof (ceilDiv_isCeiling W b ltac:(lia)) as HcW.
  pose proof (ceilDiv_isCeiling Ht b ltac:(lia)) as HcH.
  unfold isCeiling in HcW, HcH.
  assert (HxW : 1 <= ceilDiv W b <= W) by nia.
  assert (HxH : 1 <= ceilDiv Ht b <= Ht) by nia.
  rewrite !Z.max_r by lia.
  split; [lia|]. split; [lia|]. split; [nia|].
  split; [intros ->; lia|]. split; intros Hle; nia.
Qed.

(** X6: a larger block never gives more tiles, and a larger source never gives
    fewer. *)
Theorem grid_monotone (W W' Ht Ht' b b' : Z) :
  0 <= W <= W' -> 0 <= Ht <= Ht' -> 0 < b' <= b ->
  fst (computeTilesDimension W Ht b) <= fst (computeTilesDimension W' Ht' b')
  /\ snd (computeTilesDimension W Ht b) <= snd (computeTilesDimension W' Ht' b').
Proof.
  intros HW HH Hb. unfold computeTilesDimension. cbn [fst snd].
  pose proof (ceilDiv_anti_r W b' b ltac:(lia) ltac:(lia) ltac:(lia)).
  pose proof (ceilDiv_mono_l W W' b' ltac:(lia) ltac:(lia)).
  pose proof (ceilDiv_anti_r Ht b' b ltac:(lia) ltac:(lia) ltac:(lia)).
  pose proof (ceilDiv_mono_l Ht Ht' b' ltac:(lia) ltac:(lia)).
  lia.
Qed.

Lemma grid_within_source_witness :
  let tx := fst (computeTilesDimension 100 60 16) in
  let ty := snd (computeTilesDimension 100 60 16) in
  1 <= tx <= 100 /\ 1 <= ty <= 60 /\ tx * ty <= 100 * 60
  /\ (16 = 1 -> tx = 100 /\ ty = 60)
  /\ (100 <= 16 -> tx = 1) /\ (60 <= 16 -> ty = 1).
Proof. apply (grid_within_source 100 60 16); lia. Defined.

Lemma grid_monotone_witness :
  fst (computeTilesDimension 100 60 16) <= fst (computeTilesDimension 120 60 8)
  /\ snd (computeTilesDimension 100 60 16) <= snd (computeTilesDimension 120 60 8).
Proof. apply (grid_monotone 100 120 60 60 16 8); lia. Defined.

(** *** The overlay *)

(** X7: the lines of the grid overlay are exactly the multiples of the block
    size that lie strictly inside the extent: none on the border, none
    outside, none missing. *)
Theorem gridLines_inside (gridExtent gridBlockSize x : Z) :
  0 < gridBlockSize ->
  (In x (gridLines gridExtent gridBlockSize)
   <-> 0 < x < gridExtent /\ exists c, x = c * gridBlockSize).
Proof.
  intros Hb. unfold gridLines. cbv zeta.
  pose proof (ceilDiv_isCeiling gridExtent gridBlockSize Hb) as Hc. unfold isCeiling in Hc.
  set (cols := ceilDiv gridExtent gridBlockSize) in *.
  rewrite in_map_iff. split.
  - intros (c & <- & Hin). apply in_seq in Hin. split; [nia|]. exists (Z.of_nat c). reflexivity.
  - intros (Hx & c & ->). exists (Z.to_nat c).
    assert (1 <= c) by nia. assert (c < cols) by nia.
    split; [rewrite Z2Nat.id by lia; reflexivity|]. apply in_seq. lia.
Qed.

Lemma gridLines_inside_witness :
  In 32 (gridLines 40 16) <-> 0 < 32 < 40 /\ exists c, 32 = c * 16.
Proof. apply (gridLines_inside 40 16 32). lia. Defined.

End GridProps.

(** ** The cap on the size of decoded images *)

Module ImageSizeProps.

Import ImageSize.
Local Open Scope R_scope.

Lemma floor_bounds (r : R) : IZR (floor r) <= r < IZR (floor r) + 1.
Proof. unfold floor. pose proof (base_Int_part r). lra. Qed.

Lemma floor_lt (r : R) (n : Z) : r < IZR n -> (floor r < n)%Z.
Proof. intros H. apply lt_IZR. pose proof (floor_bounds r). lra. Qed.

Lemma floor_ge (r : R) (n : Z) : IZR n <= r -> (n <= floor r)%Z.
Proof.
  intros H. pose proof (floor_bounds r) as Hb.
  assert (Hlt : IZR n < IZR (floor r + 1)) by (rewrite plus_IZR; lra).
  apply lt_IZR in Hlt. lia.
Qed.

Section Rounded.

Variable fl : R -> R.
Hypothesis fl_near : roundsToNearest fl.

Lemma doubleEps_small : 0 < doubleEps < 0.0000001.
Proof.
  unfold doubleEps. split; [apply Rinv_0_lt_compat; lra|].
  apply Rmult_lt_reg_r with 9007199254740992; [lra|].
  rewrite Rinv_l by lra. lra.
Qed.

Lemma fl_pos (x : R) :
  safeRange x -> x * (1 - doubleEps) <= fl x <= x * (1 + doubleEps).
Proof.
  intros Hr. pose proof (fl_near x Hr) as H.
  assert (Hx : 0 <= x).
  { destruct Hr as [Hr _]. assert (0 < / 1152921504606846976) by (apply Rinv_0_lt_compat; lra). lra. }
  rewrite (Rabs_right x) in H by lra.
  unfold Rabs in H. destruct (Rcase_abs (fl x - x)); lra.
Qed.

Lemma quotient_range (side : Z) :
  (1 <= side <= MAX_SAFE_INTEGER)%Z ->
  / 9007199254740992 <= 4096 / IZR side <= 4096.
Proof.
  intros [Hlo Hhi]. apply IZR_le in Hlo, Hhi. unfold MAX_SAFE_INTEGER in Hhi.
  assert (Hinv : / 9007199254740992 <= / IZR side) by (apply Rinv_le_contravar; lra).
  assert (Hinv1 : / IZR side <= / 1) by (apply Rinv_le_contravar; lra).
  rewrite Rinv_1 in Hinv1.
  assert (0 < / 9007199254740992) by (apply Rinv_0_lt_compat; lra).
  unfold Rdiv. lra.
Qed.

Lemma safeRange_intro (x : R) :
  / 18014398509481984 <= x <= 4097 -> safeRange x.
Proof.
  intros [Hlo Hhi]. unfold safeRange.
  assert (/ 1152921504606846976 <= / 18014398509481984)
    by (apply Rinv_le_contravar; lra).
  lra.
Qed.

Lemma eps_square (e : R) : 0 < e < 0.0000001 -> 0 <= e * e <= e.
Proof.
  intros [H0 H1]. split; [apply Rmult_le_pos; lra|].
  rewrite <- (Rmult_1_r e) at 3. apply Rmult_le_compat_l; lra.
Qed.

Lemma up_twice (e x b : R) :
  0 < e < 0.0000001 -> 0 <= x <= b -> x * (1 + e) * (1 + e) <= b * (1 + 3 * e).
Proof.
  intros He [Hx Hb]. pose proof (eps_square e He) as Hsq.
  replace (x * (1 + e) * (1 + e)) with (x * (1 + 2 * e + e * e)) by ring.
  apply Rmult_le_compat; lra.
Qed.

Lemma down_twice (e x b : R) :
  0 < e < 0.0000001 -> 0 <= b <= x -> b * (1 - 2 * e) <= x * (1 - e) * (1 - e).
Proof.
  intros He [Hb Hx]. pose proof (eps_square e He) as Hsq.
  replace (x * (1 - e) * (1 - e)) with (x * (1 - 2 * e + e * e)) by ring.
  apply Rmult_le_compat; lra.
Qed.

Lemma scaled_side (side other : Z) :
  (1 <= side <= MAX_SAFE_INTEGER)%Z -> (1 <= other <= MAX_SAFE_INTEGER)%Z ->
  let scale := Rmin (fl (IZR MAX_DIMENSION / IZR side)) (fl (IZR MAX_DIMENSION / IZR other)) in
  let r := fl (IZR side * scale) in
  0 <= r < 4097
  /\ ((MAX_DIMENSION < other)%Z -> r < IZR side + 1)
  /\ ((other <= side)%Z -> 4095 <= r).
Proof.
  intros Hs Ho scale r. pose proof doubleEps_small as He.
  assert (Hside : 1 <= IZR side) by (apply IZR_le; lia).
  assert (Hother : 1 <= IZR other) by (apply IZR_le; lia).
  pose proof (quotient_range side Hs) as Hqs.
  pose proof (quotient_range other Ho) as Hqo.
  change (IZR MAX_DIMENSION) with 4096 in *.
  assert (Hhalf : / 18014398509481984 = doubleEps * / 2).
  { unfold doubleEps. rewrite <- Rinv_mult. f_equal. lra. }
  fold doubleEps in Hqs, Hqo.
  pose proof (fl_pos (4096 / IZR side)
                ltac:(apply safeRange_intro; rewrite Hhalf; lra)) as Fs.
  pose proof (fl_pos (4096 / IZR other)
                ltac:(apply safeRange_intro; rewrite Hhalf; lra)) as Fo.
  assert (Hprod : IZR side * (4096 / IZR side) = 4096) by (field; lra).
  set (qs := 4096 / IZR side) in *. set (qo := 4096 / IZR other) in *.
  set (e := doubleEps) in *. set (s := IZR side) in *.
  assert (Hsq : 0 <= e * e <= e) by (apply eps_square; exact He).
  (* the scale lies between the rounded quotients' bounds *)
  assert (Hscale_s : scale <= qs * (1 + e)).
  { subst scale. pose proof (Rmin_l (fl qs) (fl qo)). lra. }
  assert (Hscale_o : scale <= qo * (1 + e)).
  { subst scale. pose proof (Rmin_r (fl qs) (fl qo)). lra. }
  assert (Hlow : forall q, e <= q -> e * / 2 <= q * (1 - e)).
  { intros q Hq. apply Rle_trans with (e * (1 - e)).
    - apply Rmult_le_compat_l; lra.
    - apply Rmult_le_compat_r; lra. }
  assert (Hscale_lo : e * / 2 <= scale).
  { subst scale. apply Rmin_glb.
    - apply Rle_trans with (qs * (1 - e)); [apply Hlow|]; lra.
    - apply Rle_trans with (qo * (1 - e)); [apply Hlow|]; lra. }
  (* the product before its rounding *)
  assert (Hp_lo0 : e * / 2 <= s * scale).
  { rewrite <- (Rmult_1_l (e * / 2)). apply Rmult_le_compat; lra. }
  assert (Hp_s : s * scale <= 4096 * (1 + e)).
  { rewrite <- Hprod, Rmult_assoc. apply Rmult_le_compat_l; lra. }
  pose proof (fl_pos (s * scale)
                ltac:(apply safeRange_intro; rewrite Hhalf; fold e; lra)) as Fp.
  fold r in Fp. fold e in Fp.
  assert (Hr_up : forall b, s * scale <= b * (1 + e) -> 0 <= b -> r <= b * (1 + 3 * e)).
  { intros b Hb Hb0. apply Rle_trans with (s * scale * (1 + e)); [lra|].
    apply Rle_trans with (b * (1 + e) * (1 + e)).
    - apply Rmult_le_compat_r; lra.
    - apply up_twice; [exact He|lra]. }
  assert (Hr0 : 0 <= r).
  { apply Rle_trans with (s * scale * (1 - e)); [|lra].
    apply Rmult_le_pos; lra. }
  split; [split; [exact Hr0|]|split].
  - pose proof (Hr_up 4096 Hp_s ltac:(lra)). lra.
  - intros Hbig. assert (Hob : 4097 <= IZR other).
    { apply IZR_le. unfold MAX_DIMENSION in Hbig. lia. }
    assert (Hq : s * qo <= s * (4096 / 4097)).
    { apply Rmult_le_compat_l; [lra|]. subst qo. unfold Rdiv.
      apply Rmult_le_compat_l; [lra|]. apply Rinv_le_contravar; lra. }
    assert (Hp : s * scale <= s * (4096 / 4097) * (1 + e)).
    { apply Rle_trans with (s * (qo * (1 + e))).
      - apply Rmult_le_compat_l; lra.
      - rewrite <- Rmult_assoc. apply Rmult_le_compat_r; lra. }
    pose proof (Hr_up (s * (4096 / 4097)) Hp ltac:(lra)) as Hr.
    apply Rle_lt_trans with (s * (4096 / 4097) * (1 + 3 * e)); [exact Hr|].
    apply Rle_lt_trans with (s * 1); [|lra].
    rewrite Rmult_assoc. apply Rmult_le_compat_l; lra.
  - intros Hle. assert (Hso : IZR other <= s) by (apply IZR_le; exact Hle).
    assert (Hq : qs <= qo).
    { subst qs qo. unfold Rdiv. apply Rmult_le_compat_l; [lra|].
      apply Rinv_le_contravar; lra. }
    assert (Hscale_lo' : qs * (1 - e) <= scale).
    { subst scale. apply Rmin_glb; [lra|].
      apply Rle_trans with (qo * (1 - e)); [|lra].
      apply Rmult_le_compat_r; lra. }
    assert (Hp_lo : 4096 * (1 - e) <= s * scale).
    { rewrite <- Hprod, Rmult_assoc. apply Rmult_le_compat_l; lra. }
    apply Rle_trans with (4096 * (1 - 2 * e)); [lra|].
    apply Rle_trans with (4096 * (1 - e) * (1 - e)).
    + apply down_twice; [exact He|lra].
    + apply Rle_trans with (s * scale * (1 - e)); [|lra].
      apply Rmult_le_compat_r; lra.
Qed.

(** X8: a decoded image is capped at 4096 pixels a side, whatever the rounding
    of the scale: sizes within the cap are returned as they are; otherwise
    both sides end between 1 and 4096, neither grows, and the longer side
    ends at 4095 or 4096. *)
Theorem constrainDimensions_caps (width height : Z) :
  (1 <= width <= MAX_SAFE_INTEGER)%Z -> (1 <= height <= MAX_SAFE_INTEGER)%Z ->
  let w' := fst (constrainDimensions fl width height) in
  let h' := snd (constrainDimensions fl width height) in
  (1 <= w' <= Z.min width MAX_DIMENSION)%Z
  /\ (1 <= h' <= Z.min height MAX_DIMENSION)%Z
  /\ ((width <= MAX_DIMENSION)%Z -> (height <= MAX_DIMENSION)%Z ->
      w' = width /\ h' = height)
  /\ ((MAX_DIMENSION < width)%Z \/ (MAX_DIMENSION < height)%Z ->
      (4095 <= Z.max w' h')%Z).
Proof.
  intros Hw Hh w' h'. subst w' h'. unfold constrainDimensions.
  destruct (Z.leb_spec width MAX_DIMENSION) as [Hwc|Hwc];
    destruct (Z.leb_spec height MAX_DIMENSION) as [Hhc|Hhc]; cbn [andb fst snd].
  1: { unfold MAX_DIMENSION in *. repeat split; lia. }
  all: destruct (scaled_side width height Hw Hh) as ((W0 & W1) & W2 & W3);
    destruct (scaled_side height width Hh Hw) as ((H0 & H1) & H2 & H3);
    rewrite (Rmin_comm (fl (IZR MAX_DIMENSION / IZR height))) in H0, H1, H2, H3;
    cbv zeta in *;
    set (scale := Rmin (fl (IZR MAX_DIMENSION / IZR width))
                       (fl (IZR MAX_DIMENSION / IZR height))) in *;
    set (rw := fl (IZR width * scale)) in *; set (rh := fl (IZR height * scale)) in *;
    pose proof (floor_lt rw 4097 W1) as FW; pose proof (floor_lt rh 4097 H1) as FH;
    unfold MAX_DIMENSION in *.
  - (* only the height is over the cap *)
    pose proof (floor_lt rw (width + 1) ltac:(rewrite plus_IZR; apply W2; lia)) as FW'.
    pose proof (floor_ge rh 4095 (H3 ltac:(lia))) as FH'.
    repeat split; try lia.
  - (* only the width is over the cap *)
    pose proof (floor_lt rh (height + 1) ltac:(rewrite plus_IZR; apply H2; lia)) as FH'.
    pose proof (floor_ge rw 4095 (W3 ltac:(lia))) as FW'.
    repeat split; try lia.
  - (* both are *)
    assert (Hmax : (4095 <= Z.max (Z.max 1 (floor rw)) (Z.max 1 (floor rh)))%Z).
    { destruct (Z.le_ge_cases height width) as [Hle|Hle].
      - pose proof (floor_ge rw 4095 (W3 Hle)). lia.
      - pose proof (floor_ge rh 4095 (H3 ltac:(lia))). lia. }
    repeat split; try lia.
Qed.

End Rounded.

Lemma constrainDimensions_caps_witness :
  let w' := fst (constrainDimensions (fun x : R => x) 8000 6000) in
  let h' := snd (constrainDimensions (fun x : R => x) 8000 6000) in
  (1 <= w' <= Z.min 8000 MAX_DIMENSION)%Z
  /\ (1 <= h' <= Z.min 6000 MAX_DIMENSION)%Z
  /\ ((8000 <= MAX_DIMENSION)%Z -> (6000 <= MAX_DIMENSION)%Z -> w' = 8000%Z /\ h' = 6000%Z)
  /\ ((MAX_DIMENSION < 8000)%Z \/ (MAX_DIMENSION < 6000)%Z -> (4095 <= Z.max w' h')%Z).
Proof.
  apply (constrainDimensions_caps (fun x : R => x)).
  - intros x _. replace (x - x) with 0 by ring. rewrite Rabs_R0.
    apply Rmult_le_pos; [|apply Rabs_pos]. unfold doubleEps.
    left. apply Rinv_0_lt_compat. lra.
  - unfold MAX_SAFE_INTEGER. lia.
  - unfold MAX_SAFE_INTEGER. lia.
Defined.

End ImageSizeProps.

(** ** The classic colour mapper, further *)

Module ClassicMapperProps.

Import Js Image Classic ImageProps ClassicProps.
Local Open Scope Z_scope.

Lemma length_pixelStep (palette d : list Z) (i : nat) :
  length (pixelStep palette d i) = length d.
Proof.
  destruct (pixelStep_cases palette d i) as [->|(v0 & v1 & v2 & v3 & ->)];
    [reflexivity|apply length_setPixel].
Qed.

Lemma length_classic (img : ImageData) (palette : list Z) :
  length (data (mapImageDataToPaletteClassic img palette)) = length (data img)
  /\ width (mapImageDataToPaletteClassic img palette) = width img
  /\ height (mapImageDataToPaletteClassic img palette) = height img.
Proof.
  unfold mapImageDataToPaletteClassic.
  destruct (length palette <? RGBA_STRIDE)%nat; [auto|]. cbn [data width height].
  split; [|auto].
  apply (fold_left_inv (pixelStep palette) (fun d => length d = length (data img)));
    [|reflexivity].
  intros d i _ Hd. rewrite length_pixelStep. exact Hd.
Qed.

(** What the classic mapper makes of one pixel. *)
Lemma classic_pixel_out (img : ImageData) (palette : list Z) (m k : nat)
    (px : Z * Z * Z * Z) :
  length palette = (4 * m)%nat -> (1 <= m)%nat -> Forall isByte palette ->
  pixelAt (data img) k = Some px ->
  exists px',
    pixelAt (data (mapImageDataToPaletteClassic img palette)) k = Some px'
    /\ ((px.2 = 0 /\ px' = px)
        \/ (px.2 <> 0 /\ exists j, firstNearest palette px m j px')).
Proof.
  intros Hlen Hm Hbytes Hpx.
  destruct (Z.eq_dec px.2 0) as [Hz|Hnz].
  - exists px. split; [|left; auto].
    destruct px as [[[r g] b] a]. cbn [snd] in Hz. subst a.
    apply classic_transparent_unchanged. exact Hpx.
  - unfold mapImageDataToPaletteClassic.
    destruct (Nat.ltb_spec (length palette) RGBA_STRIDE) as [Hs|_];
      [unfold RGBA_STRIDE in Hs; lia|]. cbn [data].
    destruct (classic_pixel_final palette (data img) k px Hpx) as (d' & Hpx' & ->).
    destruct (pixelStep_opaque palette d' m k px Hlen Hm Hbytes Hpx' Hnz)
      as (j & e & Hnear & Hout).
    exists e. split; [exact Hout|]. right. split; [exact Hnz|]. exists j. exact Hnear.
Qed.

Lemma dist2_zero (px e : Z * Z * Z * Z) :
  dist2 px e = 0 -> e.1.1.1 = px.1.1.1 /\ e.1.1.2 = px.1.1.2 /\ e.1.2 = px.1.2.
Proof.
  destruct px as [[[r g] b] a], e as [[[pr pg] pb] pa]. cbn. intros H.
  pose proof (Z.square_nonneg (pr - r)) as Hr.
  pose proof (Z.square_nonneg (pg - g)) as Hg.
  pose proof (Z.square_nonneg (pb - b)) as Hb.
  assert (Er : (pr - r) * (pr - r) = 0) by lia.
  assert (Eg : (pg - g) * (pg - g) = 0) by lia.
  assert (Eb : (pb - b) * (pb - b) = 0) by lia.
  apply Z.mul_eq_0 in Er, Eg, Eb. lia.
Qed.

Lemma dist2_same_rgb (px e e' : Z * Z * Z * Z) :
  e'.1.1.1 = e.1.1.1 -> e'.1.1.2 = e.1.1.2 -> e'.1.2 = e.1.2 -> dist2 px e' = dist2 px e.
Proof.
  destruct px as [[[r g] b] a], e as [[[pr pg] pb] pa], e' as [[[pr' pg'] pb'] pa'].
  cbn. intros -> -> ->. reflexivity.
Qed.

Lemma dist2_self (e : Z * Z * Z * Z) : dist2 e e = 0.
Proof. destruct e as [[[r g] b] a]. cbn. ring. Qed.

Lemma dist2_nonneg (px e : Z * Z * Z * Z) : 0 <= dist2 px e.
Proof.
  destruct px as [[[r g] b] a], e as [[[pr pg] pb] pa]. cbn.
  pose proof (Z.square_nonneg (pr - r)). pose proof (Z.square_nonneg (pg - g)).
  pose proof (Z.square_nonneg (pb - b)). lia.
Qed.

(** The entry nearest to a pixel is the entry nearest to itself. *)
Lemma firstNearest_fixed (palette : list Z) (px e e2 : Z * Z * Z * Z) (m j j2 : nat) :
  firstNearest palette px m j e -> firstNearest palette e m j2 e2 -> j2 = j /\ e2 = e.
Proof.
  intros (Hj & He & Hmin & Hfirst) (Hj2 & He2 & Hmin2 & Hfirst2).
  pose proof (Hmin2 j e Hj He) as H0. rewrite dist2_self in H0.
  pose proof (dist2_nonneg e e2) as Hnn.
  assert (Hz : dist2 e e2 = 0) by lia.
  destruct (dist2_zero e e2 Hz) as (E1 & E2 & E3).
  assert (Hj2j : j2 = j).
  { destruct (Nat.lt_trichotomy j2 j) as [Hlt|[Heq|Hgt]]; [|exact Heq|].
    - specialize (Hfirst j2 e2 Hlt He2).
      rewrite (dist2_same_rgb px e e2 E1 E2 E3) in Hfirst. lia.
    - specialize (Hfirst2 j e Hgt He). rewrite dist2_self in Hfirst2. lia. }
  subst j2. split; [reflexivity|]. rewrite He in He2. injection He2 as <-. reflexivity.
Qed.

Lemma pixelAt_ext (d1 d2 : list Z) (n : nat) :
  length d1 = (4 * n)%nat -> length d2 = (4 * n)%nat ->
  (forall k, (k < n)%nat -> pixelAt d1 k = pixelAt d2 k) -> d1 = d2.
Proof.
  intros H1 H2 Hpx. apply list_eq. intros i.
  destruct (Nat.lt_ge_cases i (4 * n)) as [Hi|Hi].
  - pose proof (Nat.div_mod i 4 ltac:(lia)) as Hdm.
    pose proof (Nat.mod_upper_bound i 4 ltac:(lia)) as Hmod.
    assert (Hk : (i / 4 < n)%nat) by (apply Nat.Div0.div_lt_upper_bound; lia).
    specialize (Hpx (i / 4)%nat Hk).
    destruct (pixelAt_is_Some d1 (i / 4) ltac:(lia)) as [[[[r g] b] a] E1].
    rewrite E1 in Hpx. symmetry in Hpx.
    apply pixelAt_lookups in E1 as (A0 & A1 & A2 & A3).
    apply pixelAt_lookups in Hpx as (B0 & B1 & B2 & B3).
    rewrite Hdm. set (q := (i / 4)%nat) in *.
    destruct (i mod 4)%nat as [|[|[|[|c]]]]; [| | |  |lia].
    + rewrite Nat.add_0_r. congruence.
    + congruence.
    + congruence.
    + congruence.
  - rewrite !lookup_ge_None_2 by lia. reflexivity.
Qed.

(** X9: mapping an image that is already mapped changes nothing: on a palette
    of whole byte entries the classic mapper is idempotent. *)
Theorem classic_idempotent (img : ImageData) (palette : list Z) (m n : nat) :
  length palette = (4 * m)%nat -> Forall isByte palette ->
  length (data img) = (4 * n)%nat ->
  mapImageDataToPaletteClassic (mapImageDataToPaletteClassic img palette) palette
  = mapImageDataToPaletteClassic img palette.
Proof.
  intros Hlen Hbytes Hdata.
  destruct m as [|m'].
  { unfold mapImageDataToPaletteClassic. rewrite Hlen. reflexivity. }
  set (m := S m') in *. assert (Hm : (1 <= m)%nat) by (subst m; lia).
  set (once := mapImageDataToPaletteClassic img palette).
  destruct (length_classic img palette) as (L1 & W1 & H1). fold once in L1, W1, H1.
  destruct (length_classic once palette) as (L2 & W2 & H2).
  set (twice := mapImageDataToPaletteClassic once palette) in *.
  assert (Hd : data twice = data once).
  { apply (pixelAt_ext _ _ n); [lia|lia|].
    intros k Hk.
    destruct (pixelAt_is_Some (data img) k ltac:(lia)) as [px Hpx].
    destruct (classic_pixel_out img palette m k px Hlen Hm Hbytes Hpx)
      as (px1 & Hout1 & Hcase1). fold once in Hout1.
    destruct (classic_pixel_out once palette m k px1 Hlen Hm Hbytes Hout1)
      as (px2 & Hout2 & Hcase2). fold twice in Hout2.
    rewrite Hout1, Hout2. f_equal.
    destruct Hcase2 as [[_ ->]|[Hnz2 [j2 Hnear2]]]; [reflexivity|].
    destruct Hcase1 as [[Hz1 ->]|[_ [j1 Hnear1]]].
    - contradiction.
    - destruct (firstNearest_fixed palette px px1 px2 m j1 j2 Hnear1 Hnear2) as [_ E].
      exact E. }
  destruct twice as [w2 h2 d2], once as [w1 h1 d1]. cbn in *. congruence.
Qed.

Lemma classic_idempotent_witness :
  let img := mkImageData 2 1 [10; 10; 10; 255; 200; 200; 200; 0] in
  let palette := [0; 0; 0; 255; 20; 20; 20; 255; 255; 255; 255; 255] in
  mapImageDataToPaletteClassic (mapImageDataToPaletteClassic img palette) palette
  = mapImageDataToPaletteClassic img palette.
Proof.
  apply (classic_idempotent (mkImageData 2 1 [10; 10; 10; 255; 200; 200; 200; 0])
           [0; 0; 0; 255; 20; 20; 20; 255; 255; 255; 255; 255] 3 2).
  - reflexivity.
  - repeat constructor; unfold isByte; lia.
  - reflexivity.
Defined.

(** X10: a colour that is in the palette is kept: an opaque pixel whose (R, G, B)
    is that of some palette entry keeps its (R, G, B); its alpha becomes that
    of the first entry with this colour. *)
Theorem classic_keeps_palette_colours (img : ImageData) (palette : list Z) (m k j0 : nat)
    (r g b a a0 : Z) :
  length palette = (4 * m)%nat -> Forall isByte palette ->
  pixelAt (data img) k = Some (r, g, b, a) -> a <> 0 ->
  pixelAt palette j0 = Some (r, g, b, a0) ->
  exists j a',
    (j <= j0)%nat /\ pixelAt palette j = Some (r, g, b, a')
    /\ (forall j' a'', (j' < j)%nat -> pixelAt palette j' <> Some (r, g, b, a''))
    /\ pixelAt (data (mapImageDataToPaletteClassic img palette)) k = Some (r, g, b, a').
Proof.
  intros Hlen Hbytes Hpx Ha He0.
  assert (Hj0 : (j0 < m)%nat).
  { apply pixelAt_length in He0. lia. }
  destruct (classic_pixel_out img palette m k (r, g, b, a) Hlen ltac:(lia) Hbytes Hpx)
    as (px' & Hout & [[Hz _]|[_ [j (Hj & He & Hmin & Hfirst)]]]); [contradiction|].
  pose proof (Hmin j0 (r, g, b, a0) Hj0 He0) as H0.
  rewrite (dist2_same_rgb (r, g, b, a) (r, g, b, a) (r, g, b, a0)) in H0 by reflexivity.
  rewrite dist2_self in H0. pose proof (dist2_nonneg (r, g, b, a) px') as Hnn.
  destruct (dist2_zero (r, g, b, a) px' ltac:(lia)) as (E1 & E2 & E3).
  destruct px' as [[[pr pg] pb] pa]. cbn in E1, E2, E3. subst pr pg pb.
  exists j, pa. split; [|split; [exact He|split; [|exact Hout]]].
  - destruct (Nat.le_gt_cases j j0) as [Hle|Hgt]; [exact Hle|].
    specialize (Hfirst j0 (r, g, b, a0) Hgt He0).
    rewrite (dist2_same_rgb (r, g, b, a) (r, g, b, pa) (r, g, b, a0)) in Hfirst by reflexivity.
    lia.
  - intros j' a'' Hj' He'. specialize (Hfirst j' (r, g, b, a'') Hj' He').
    rewrite (dist2_same_rgb (r, g, b, a) (r, g, b, pa) (r, g, b, a'')) in Hfirst by reflexivity.
    lia.
Qed.

Lemma classic_keeps_palette_colours_witness :
  exists j a',
    (j <= 1)%nat
    /\ pixelAt [0; 0; 0; 255; 20; 20; 20; 255] j = Some (20, 20, 20, a')
    /\ (forall j' a'', (j' < j)%nat ->
          pixelAt [0; 0; 0; 255; 20; 20; 20; 255] j' <> Some (20, 20, 20, a''))
    /\ pixelAt (data (mapImageDataToPaletteClassic (mkImageData 1 1 [20; 20; 20; 128])
                        [0; 0; 0; 255; 20; 20; 20; 255])) 0
       = Some (20, 20, 20, a').
Proof.
  apply (classic_keeps_palette_colours (mkImageData 1 1 [20; 20; 20; 128])
           [0; 0; 0; 255; 20; 20; 20; 255] 2 0 1 20 20 20 128 255).
  - reflexivity.
  - repeat constructor; unfold isByte; lia.
  - reflexivity.
  - lia.
  - reflexivity.
Defined.

End ClassicMapperProps.

(** ** Ranges of the CIELAB conversion *)

Module LabRangeProps.

Import Js Lab LabProps.
Local Open Scope R_scope.

Lemma atan_nonpos (t : R) : t <= 0 -> atan t <= 0.
Proof.
  intros Ht. destruct (Req_dec t 0) as [->|Hne]; [rewrite atan_0; lra|].
  left. rewrite <- atan_0. apply atan_increasing. lra.
Qed.

Lemma atan_pos (t : R) : 0 < t -> 0 < atan t.
Proof. intros Ht. rewrite <- atan_0. apply atan_increasing. exact Ht. Qed.

(** [Math.atan2] gives an angle in the half-open turn from [- PI] to [PI]. *)
Lemma atan2_range (y x : R) : - PI < atan2 y x <= PI.
Proof.
  pose proof PI_RGT_0 as Hpi. unfold atan2.
  destruct (Rlt_dec 0 x) as [Hx|Hx].
  - pose proof (atan_bound (y / x)). lra.
  - destruct (Rlt_dec x 0) as [Hx'|Hx'].
    + pose proof (atan_bound (y / x)) as Hb.
      destruct (Rle_dec 0 y) as [Hy|Hy].
      * assert (Hq : y / x <= 0).
        { unfold Rdiv. assert (/ x < 0) by (apply Rinv_lt_0_compat; exact Hx'). nra. }
        pose proof (atan_nonpos _ Hq). lra.
      * assert (Hq : 0 < y / x).
        { unfold Rdiv. assert (/ x < 0) by (apply Rinv_lt_0_compat; exact Hx'). nra. }
        pose proof (atan_pos _ Hq). lra.
    + destruct (Rlt_dec 0 y); [lra|]. destruct (Rlt_dec y 0); lra.
Qed.

Lemma deltaHue_bounds (a1 b1 a2 b2 : R) : 0 <= deltaHue a1 b1 a2 b2 <= PI.
Proof.
  unfold deltaHue, hueAngle. cbv zeta.
  pose proof (atan2_range b1 a1) as H1. pose proof (atan2_range b2 a2) as H2.
  set (h1 := atan2 b1 a1) in *. set (h2 := atan2 b2 a2) in *.
  pose proof PI_RGT_0 as Hpi.
  destruct (Rlt_dec PI (h1 - h2)) as [Hgt|Hle].
  - destruct (Rlt_dec (h1 - h2 - 2 * PI) (- PI)) as [Hlt|_]; [lra|].
    split; [apply Rabs_pos|]. unfold Rabs. destruct (Rcase_abs _); lra.
  - destruct (Rlt_dec (h1 - h2) (- PI)) as [Hlt|Hge];
      (split; [apply Rabs_pos|]); unfold Rabs; destruct (Rcase_abs _); lra.
Qed.

(** X11: the hue difference is an angle between 0 and [PI]; it is 0 between a
    colour and itself and does not depend on the order of the two colours. *)
Theorem deltaHue_is_an_angle :
  (forall a1 b1 a2 b2, 0 <= deltaHue a1 b1 a2 b2 <= PI)
  /\ (forall a b, deltaHue a b a b = 0)
  /\ (forall a1 b1 a2 b2, deltaHue a1 b1 a2 b2 = deltaHue a2 b2 a1 b1).
Proof.
  split; [exact deltaHue_bounds|]. pose proof PI_RGT_0 as Hpi. split.
  - intros a b. unfold deltaHue, hueAngle. cbv zeta.
    replace (atan2 b a - atan2 b a) with 0 by ring.
    destruct (Rlt_dec PI 0); [lra|]. destruct (Rlt_dec 0 (- PI)); [lra|]. apply Rabs_R0.
  - intros a1 b1 a2 b2. unfold deltaHue, hueAngle. cbv zeta.
    pose proof (atan2_range b1 a1) as H1. pose proof (atan2_range b2 a2) as H2.
    set (h1 := atan2 b1 a1) in *. set (h2 := atan2 b2 a2) in *.
    destruct (Rlt_dec PI (h1 - h2)), (Rlt_dec PI (h2 - h1));
      repeat match goal with
      | |- context [Rlt_dec ?p ?q] => destruct (Rlt_dec p q)
      end; unfold Rabs; repeat destruct (Rcase_abs _); lra.
Qed.

Lemma srgbToLinearComponent_range (c : R) :
  0 <= c <= 255 -> 0 <= srgbToLinearComponent c <= 1.
Proof.
  intros Hc. unfold srgbToLinearComponent. cbv zeta.
  destruct (Rle_dec (c / 255) 0.04045) as [Hle|Hgt]; [lra|].
  split.
  - left. unfold Rpower. apply exp_pos.
  - assert (H1 : Rpower 1 2.4 = 1).
    { unfold Rpower. rewrite ln_1, Rmult_0_r. apply exp_0. }
    rewrite <- H1. apply Rle_Rpower_l; lra.
Qed.

(** X12: the lightness of a colour with channels between 0 and 255 lies between
    0 and 100 (up to the rounding of the conversion matrix, whose second row
    sums to 1.0000001). *)
Theorem lightness_range (r g b : R) :
  0 <= r <= 255 -> 0 <= g <= 255 -> 0 <= b <= 255 ->
  0 <= Lab.L (rgbToLab r g b) <= 100.00002.
Proof.
  intros Hr Hg Hb.
  pose proof (srgbToLinearComponent_range r Hr) as Lr.
  pose proof (srgbToLinearComponent_range g Hg) as Lg.
  pose proof (srgbToLinearComponent_range b Hb) as Lb.
  unfold rgbToLab, rgbToXyz, xyzToLab. cbv zeta. cbn [x y z Lab.L].
  set (rl := srgbToLinearComponent r) in *. set (gl := srgbToLinearComponent g) in *.
  set (bl := srgbToLinearComponent b) in *.
  set (Y := 0.2126729 * rl + 0.7151522 * gl + 0.072175 * bl).
  assert (HY : 0 <= Y <= 1.0000001) by (subst Y; lra).
  replace (Y / 1.0) with Y by lra.
  destruct (Rlt_dec (6 / 29 * (6 / 29) * (6 / 29)) Y) as [Hbig|Hsmall].
  - assert (Hlo : 6 / 29 <= cbrt Y).
    { rewrite <- (HueWeightExample.cbrt_cube (6 / 29)) at 1 by lra. apply HueWeightExample.cbrt_le; lra. }
    assert (Hhi : cbrt Y <= 1.0000001).
    { rewrite <- (HueWeightExample.cbrt_cube 1.0000001) by lra. apply HueWeightExample.cbrt_le; lra. }
    lra.
  - lra.
Qed.

Lemma lightness_range_witness : 0 <= Lab.L (rgbToLab 255 128 0) <= 100.00002.
Proof. apply lightness_range; lra. Defined.

End LabRangeProps.

(** ** The perceptual colour mapper, further *)

Module MapperProps.

Import Js Image Lab Perceptual Invariants ImageProps LabProps PerceptualProps.
Local Open Scope nat_scope.

Section Float32Store.

Context `{Float32}.

(** *** The hue weight *)

Lemma hueWeightAt_bounds (arrs : LabArrays) (w h : nat) (x y : Z) :
  (0 <= hueWeightAt arrs w h x y <= 1)%R.
Proof.
  unfold hueWeightAt. cbv zeta. destruct (count _ =? 0); [lra|].
  set (sigma := sqrt _).
  assert (Hs : (0 <= sigma)%R) by apply sqrt_pos.
  unfold HUE_SIGMA_SCALE_LAB.
  assert (Hq : (0 <= sigma / 5.0)%R).
  { apply Rmult_le_pos; [exact Hs|]. left. apply Rinv_0_lt_compat. lra. }
  pose proof (Rmin_l 1 (sigma / 5.0)) as Hl.
  assert (Hmin : (0 <= Rmin 1 (sigma / 5.0))%R) by (apply Rmin_glb; lra).
  lra.
Qed.

(** The pixel itself is among its neighbours. *)
Lemma neighbours_self (w h x y : nat) :
  x < w -> y < h -> In (y * w + x) (neighbours w h (Z.of_nat x) (Z.of_nat y)).
Proof.
  intros Hx Hy. unfold neighbours.
  apply in_flat_map. exists 0%Z. split; [cbn; auto|].
  replace (Z.of_nat y + 0)%Z with (Z.of_nat y) by lia.
  destruct (Z.leb_spec 0 (Z.of_nat y)) as [_|Hn]; [|lia].
  destruct (Z.ltb_spec (Z.of_nat y) (Z.of_nat h)) as [_|Hn]; [|lia].
  cbn [andb]. apply in_flat_map. exists 0%Z. split; [cbn; auto|].
  replace (Z.of_nat x + 0)%Z with (Z.of_nat x) by lia.
  destruct (Z.leb_spec 0 (Z.of_nat x)) as [_|Hn]; [|lia].
  destruct (Z.ltb_spec (Z.of_nat x) (Z.of_nat w)) as [_|Hn]; [|lia].
  cbn [andb]. left. lia.
Qed.

Lemma flat_sums (arrs : LabArrays) (a0 b0 : R) (ns : list nat) (s : Sums) :
  (forall n, In n ns -> realAt (Aarr arrs) n = a0 /\ realAt (Barr arrs) n = b0) ->
  let s' := fold_left (addSample arrs) ns s in
  sumA s' = (sumA s + INR (length ns) * a0)%R
  /\ sumB s' = (sumB s + INR (length ns) * b0)%R
  /\ sumAA s' = (sumAA s + INR (length ns) * (a0 * a0))%R
  /\ sumBB s' = (sumBB s + INR (length ns) * (b0 * b0))%R.
Proof.
  revert s. induction ns as [|n ns IH]; intros s Hflat; cbn [fold_left length].
  - cbn. repeat split; lra.
  - destruct (Hflat n ltac:(left; reflexivity)) as [Ea Eb].
    destruct (IH (addSample arrs s n)) as (HA & HB & HAA & HBB).
    { intros n' Hn'. apply Hflat. right. exact Hn'. }
    cbv zeta in *. rewrite HA, HB, HAA, HBB. unfold addSample. cbn [sumA sumB sumAA sumBB].
    rewrite Ea, Eb, S_INR. repeat split; lra.
Qed.

(** X13: the hue weight is a proportion between 0 and 1, and it is 1 on a flat
    neighbourhood: for a pixel inside the image whose in-bounds neighbours
    all store the same (a, b), as in a single-pixel image or among fully
    transparent pixels, the weight is exactly 1. *)
Theorem hueWeight_range_and_flat (arrs : LabArrays) (w h : nat) :
  (forall x y, (0 <= hueWeightAt arrs w h x y <= 1)%R)
  /\ (forall (x y : nat) (a0 b0 : R),
        x < w -> y < h ->
        (forall n, In n (neighbours w h (Z.of_nat x) (Z.of_nat y)) ->
           realAt (Aarr arrs) n = a0 /\ realAt (Barr arrs) n = b0) ->
        hueWeightAt arrs w h (Z.of_nat x) (Z.of_nat y) = 1%R).
Proof.
  split; [intros x y; apply hueWeightAt_bounds|].
  intros x y a0 b0 Hx Hy Hflat. unfold hueWeightAt. cbv zeta.
  rewrite hueSums_neighbours.
  set (ns := neighbours w h (Z.of_nat x) (Z.of_nat y)) in *.
  assert (Hlen : 1 <= length ns).
  { pose proof (neighbours_self w h x y Hx Hy) as Hin. fold ns in Hin.
    destruct ns; [destruct Hin|cbn; lia]. }
  destruct (flat_sums arrs a0 b0 ns (mkSums 0 0 0 0 0) Hflat) as (HA & HB & HAA & HBB).
  cbv zeta in HA, HB, HAA, HBB. cbn [sumA sumB sumAA sumBB] in HA, HB, HAA, HBB.
  rewrite HA, HB, HAA, HBB, addSample_count. cbn [count]. rewrite Nat.add_0_r.
  destruct (Nat.eqb_spec (length ns) 0) as [E|_]; [lia|].
  assert (Hk : (1 <= INR (length ns))%R).
  { change 1%R with (INR 1). apply le_INR. exact Hlen. }
  set (k := INR (length ns)) in *.
  replace ((0 + k * (a0 * a0)) / k - (0 + k * a0) / k * ((0 + k * a0) / k))%R with 0%R
    by (field; lra).
  replace ((0 + k * (b0 * b0)) / k - (0 + k * b0) / k * ((0 + k * b0) / k))%R with 0%R
    by (field; lra).
  rewrite Rmax_left by lra. rewrite Rplus_0_r, sqrt_0.
  unfold HUE_SIGMA_SCALE_LAB. replace (0 / 5.0)%R with 0%R by lra.
  rewrite Rmin_right by lra. lra.
Qed.

(** *** The penalties *)

Lemma hypot_pos (x y : R) : (0 <= hypot x y)%R.
Proof. apply sqrt_pos. Qed.

Lemma cos_le_1 (x : R) : (0 <= 1 - cos x)%R.
Proof. pose proof (COS_bound x). lra. Qed.

Lemma palAt_chroma (palette : list Z) (pi : nat) :
  (0 <= PaletteLab.C (palAt (paletteLab palette) pi))%R.
Proof.
  unfold palAt, paletteLab. rewrite list_lookup_fmap.
  destruct (strideIndices (length palette) !! pi) as [p|]; cbn.
  - apply hypot_pos.
  - lra.
Qed.

(** X14: the refinement only adds to the raw distance: for every palette entry
    and every pixel of an image, the adjusted cost is at least the raw
    CIEDE2000 distance it starts from. *)
Theorem penalties_nonneg (palette d : list Z) (w h pi : nat) (x y : Z) (Lr ar br base : R) :
  exists c,
    adjustedCost Lr ar br (hypot ar br) (hueWeightAt (labArrays d w h) w h x y)
      (palAt (paletteLab palette) pi) (Finite base) = Finite c
    /\ (base <= c)%R.
Proof.
  eexists. split; [reflexivity|].
  pose proof (hueWeightAt_bounds (labArrays d w h) w h x y) as HhW.
  set (hW := hueWeightAt _ _ _ _ _) in *.
  pose proof (palAt_chroma palette pi) as HC.
  set (pcol := palAt (paletteLab palette) pi) in *.
  unfold LAMBDA_L, LAMBDA_C, LAMBDA_H, KAPPA_NEUTRAL, TAU_L_LAB, TAU_C_LAB.
  pose proof (Rmax_l 0 (Rabs (Lr - PaletteLab.L pcol) - 3.0)) as H1.
  pose proof (Rmax_l 0 (Rabs (hypot ar br - PaletteLab.C pcol) - 3.0)) as H2.
  pose proof (cos_le_1 (deltaHue ar br (PaletteLab.a pcol) (PaletteLab.b pcol))) as H3.
  assert (H4 : (0 <= 0.3 * hW * (1 - cos (deltaHue ar br (PaletteLab.a pcol)
                                            (PaletteLab.b pcol))))%R).
  { apply Rmult_le_pos; [|exact H3]. lra. }
  destruct (Rle_dec _ _), (Rlt_dec _ _); lra.
Qed.

(** *** The written colour belongs to the palette, whatever its size *)

Lemma toInt16_le (z : Z) : (0 <= z)%Z -> (toInt16 z <= z)%Z.
Proof.
  intros Hz. unfold toInt16.
  pose proof (Z.mod_le (z + 32768) 65536 ltac:(lia) ltac:(lia)). lia.
Qed.

Lemma shortlist_index_bound (pal : list PaletteLab.t) (Lr ar br : R) (k : nat) :
  1 <= length pal -> k < K_SHORTLIST ->
  (idxAt (topIdx (shortlist pal Lr ar br)) k < Z.of_nat (length pal))%Z.
Proof.
  intros Hlen Hk.
  destruct (shortlist_inv pal Lr ar br Hlen) as (_ & _ & Hslots & _).
  destruct (Hslots k Hk) as [[He _]|(pi & Hpi & Hi & _)].
  - rewrite He. lia.
  - rewrite Hi. pose proof (toInt16_le (Z.of_nat pi) ltac:(lia)). lia.
Qed.

Lemma refineStep_fst (pal : list PaletteLab.t) (Lr ar br Cr hWeight : R) (sl : Shortlist)
    (best : Z * ext R) (k : nat) :
  fst (refineStep pal Lr ar br Cr hWeight sl best k) = fst best
  \/ ((0 <= idxAt (topIdx sl) k)%Z
      /\ fst (refineStep pal Lr ar br Cr hWeight sl best k) = idxAt (topIdx sl) k).
Proof.
  unfold refineStep. destruct (Z.ltb_spec (idxAt (topIdx sl) k) 0) as [Hneg|Hpos];
    [left; reflexivity|].
  destruct (xlt _ _); [right; split; [exact Hpos|reflexivity]|left; reflexivity].
Qed.

Lemma refine_fst (pal : list PaletteLab.t) (Lr ar br Cr hWeight : R) (sl : Shortlist) :
  fst (refine pal Lr ar br Cr hWeight sl) = 0%Z
  \/ exists k, k < K_SHORTLIST /\ (0 <= idxAt (topIdx sl) k)%Z
       /\ fst (refine pal Lr ar br Cr hWeight sl) = idxAt (topIdx sl) k.
Proof.
  unfold refine.
  apply (fold_left_inv (refineStep pal Lr ar br Cr hWeight sl)
           (fun best => fst best = 0%Z
              \/ exists k, k < K_SHORTLIST /\ (0 <= idxAt (topIdx sl) k)%Z
                   /\ fst best = idxAt (topIdx sl) k)).
  - intros best k Hk Hbest. apply in_seq in Hk.
    destruct (refineStep_fst pal Lr ar br Cr hWeight sl best k) as [->|[Hpos ->]];
      [exact Hbest|].
    right. exists k. split; [lia|]. split; [exact Hpos|reflexivity].
  - cbn [fst]. destruct (Z.geb_spec (idxAt (topIdx sl) 0) 0) as [Hge|Hlt]; [|left; reflexivity].
    right. exists 0. split; [unfold K_SHORTLIST; lia|]. split; [lia|reflexivity].
Qed.

Lemma palAt_paletteLab_bytes (palette : list Z) (m j : nat) :
  length palette = 4 * m -> j < m ->
  pixelAt palette j
  = Some (PaletteLab.r (palAt (paletteLab palette) j),
          PaletteLab.g (palAt (paletteLab palette) j),
          PaletteLab.b8 (palAt (paletteLab palette) j),
          PaletteLab.a8 (palAt (paletteLab palette) j)).
Proof.
  intros Hlen Hj.
  assert (E : palAt (paletteLab palette) j = paletteEntry palette (j * 4)).
  { unfold palAt, paletteLab.
    rewrite Hlen, strideIndices_mul4, !list_lookup_fmap, lookup_seq_lt by lia.
    reflexivity. }
  rewrite E. clear E.
  destruct (pixelAt_is_Some palette j ltac:(lia)) as [[[[r g] b] a] E].
  rewrite E. apply pixelAt_lookups in E as (Er & Eg & Eb & Ea).
  unfold paletteEntry. cbv zeta.
  cbn [PaletteLab.r PaletteLab.g PaletteLab.b8 PaletteLab.a8].
  unfold byteAt, CHANNEL_R, CHANNEL_G, CHANNEL_B, CHANNEL_A.
  replace (j * 4 + 0) with (4 * j) by lia.
  replace (j * 4 + 1) with (4 * j + 1) by lia.
  replace (j * 4 + 2) with (4 * j + 2) by lia.
  replace (j * 4 + 3) with (4 * j + 3) by lia.
  rewrite Er, Eg, Eb, Ea. reflexivity.
Qed.

Lemma bestEntry_in_palette (arrs : LabArrays) (palette : list Z) (m w h x y : nat) :
  length palette = 4 * m -> 1 <= m ->
  exists j, j < m
    /\ bestEntry arrs (paletteLab palette) w h x y = palAt (paletteLab palette) j.
Proof.
  intros Hlen Hm. pose proof (length_paletteLab palette m Hlen) as Hpal.
  unfold bestEntry. cbv zeta.
  set (Lr := realAt (Larr arrs) _). set (ar := realAt (Aarr arrs) _).
  set (br := realAt (Barr arrs) _). set (hW := hueWeightAt _ _ _ _ _).
  set (sl := shortlist (paletteLab palette) Lr ar br).
  destruct (refine_fst (paletteLab palette) Lr ar br (hypot ar br) hW sl)
    as [->|(k & Hk & Hpos & ->)].
  - exists 0. split; [lia|reflexivity].
  - pose proof (shortlist_index_bound (paletteLab palette) Lr ar br k ltac:(lia) Hk) as Hb.
    fold sl in Hb. exists (Z.to_nat (idxAt (topIdx sl) k)). split; [lia|reflexivity].
Qed.

(** X15: whatever the size of the palette, also beyond the range of the
    shortlist's indices, every pixel that is not fully transparent receives
    the four bytes of one of the palette's entries. *)
Theorem perceptual_writes_palette_entry (img : ImageData) (palette : list Z) (m x y : nat)
    (px : Z * Z * Z * Z) :
  length palette = 4 * m -> 1 <= m -> Forall isByte palette ->
  x < width img -> y < height img ->
  pixelAt (data img) (y * width img + x) = Some px -> px.2 <> 0%Z ->
  exists j img',
    j < m
    /\ mapImageDataToPalette img palette = Some img'
    /\ pixelAt (data img') (y * width img + x) = pixelAt palette j
    /\ pixelAt palette j <> None.
Proof.
  intros Hlen Hm Hbytes Hx Hy Hpx Ha.
  destruct (perceptual_pixel_final img palette m x y px Hlen Hm Hbytes Hx Hy Hpx Ha)
    as (img' & Himg & Hout).
  destruct (bestEntry_in_palette (labArrays (data img) (width img) (height img)) palette m
              (width img) (height img) x y Hlen Hm) as (j & Hj & Hbest).
  exists j, img'. split; [exact Hj|]. split; [exact Himg|].
  cbv zeta in Hout. rewrite Hbest in Hout.
  rewrite (palAt_paletteLab_bytes palette m j Hlen Hj).
  split; [exact Hout|discriminate].
Qed.

(** *** Palettes that fit in the shortlist *)

Lemma worstSlot_first_empty (ts : list (ext R)) (n : nat) :
  n < K_SHORTLIST ->
  (forall k, k < n -> exists v, scoreAt ts k = Finite v) ->
  (forall k, n <= k -> scoreAt ts k = PosInf) ->
  worstSlot ts = (n, PosInf).
Proof.
  intros Hn Hfin Hinf. unfold worstSlot.
  rewrite (ClassicProps.seq_split K_SHORTLIST n Hn), fold_left_app. cbn [fold_left].
  set (w0 := fold_left (worstStep ts) (seq 0 n) (0, Finite (-1)%R)).
  assert (Hw0 : exists v, snd w0 = Finite v).
  { subst w0. apply (fold_left_inv (worstStep ts) (fun w => exists v, snd w = Finite v)).
    - intros w k Hk Hw. apply in_seq in Hk. unfold worstStep.
      destruct (xgt _ _); [|exact Hw]. cbn [snd]. apply Hfin. lia.
    - cbn [snd]. eauto. }
  destruct Hw0 as [v Hv].
  assert (Hstep : worstStep ts w0 n = (n, PosInf)).
  { unfold worstStep. rewrite (Hinf n) by lia. rewrite Hv. reflexivity. }
  rewrite Hstep.
  apply (fold_left_inv (worstStep ts) (fun w => w = (n, PosInf))); [|reflexivity].
  intros w k Hk ->. apply in_seq in Hk. unfold worstStep.
  rewrite (Hinf k) by lia. reflexivity.
Qed.

Section Small.

Variables (pal : list PaletteLab.t) (Lr ar br : R).

Local Abbreviation small := (smallInv pal Lr ar br).

Lemma smallInv_step (n : nat) (sl : Shortlist) :
  n < K_SHORTLIST -> small n sl -> small (S n) (shortlistStep pal Lr ar br sl n).
Proof.
  intros Hn (HlenI & HlenS & Hlow & Hhigh).
  unfold shortlistStep.
  rewrite (worstSlot_first_empty (topScore sl) n Hn).
  2: { intros k Hk. destruct (Hlow k Hk) as [_ Hs]. eauto. }
  2: { intros k Hk. apply Hhigh. exact Hk. }
  cbn [xlt xgt]. unfold smallInv. cbn [topIdx topScore].
  rewrite !length_insert. split; [exact HlenI|]. split; [exact HlenS|].
  unfold K_SHORTLIST in *. split.
  - intros k Hk. rewrite idxAt_insert, scoreAt_insert by lia.
    destruct (decide (k = n)) as [->|Hne].
    + split; [|reflexivity]. apply toInt16_small. lia.
    + apply Hlow. lia.
  - intros k Hk. rewrite idxAt_insert, scoreAt_insert by lia.
    destruct (decide (k = n)) as [->|Hne]; [lia|]. apply Hhigh. lia.
Qed.

Lemma smallInv_from (m start : nat) (sl : Shortlist) :
  start + m <= K_SHORTLIST -> small start sl ->
  small (start + m) (fold_left (shortlistStep pal Lr ar br) (seq start m) sl).
Proof.
  revert start sl. induction m as [|m IH]; intros start sl Hm Hinv; cbn [seq fold_left].
  - rewrite Nat.add_0_r. exact Hinv.
  - replace (start + S m) with (S start + m) by lia.
    apply IH; [lia|]. apply smallInv_step; [lia|exact Hinv].
Qed.

Lemma small_shortlist :
  length pal <= K_SHORTLIST -> small (length pal) (shortlist pal Lr ar br).
Proof.
  intros Hlen. unfold shortlist. apply (smallInv_from (length pal) 0); [lia|].
  unfold smallInv, emptyShortlist. cbn [topIdx topScore]. rewrite !length_replicate.
  split; [reflexivity|]. split; [reflexivity|]. split; [intros k Hk; lia|].
  intros k _. unfold idxAt, scoreAt.
  destruct (Nat.lt_ge_cases k K_SHORTLIST) as [Hk|Hk].
  - rewrite !lookup_replicate_2 by exact Hk. auto.
  - rewrite !lookup_ge_None_2 by (rewrite length_replicate; exact Hk). auto.
Qed.

End Small.

(** X16: with at most [K_SHORTLIST] (eight) palette entries every entry is
    shortlisted, so the colour written to a pixel that is not fully
    transparent minimises, over the whole palette, the adjusted cost as the
    program computes it: from the float32 values stored for the CIELAB of
    the pixel and for the raw distance ([storedCost]). *)
Theorem small_palette_global_optimum (img : ImageData) (palette : list Z) (m x y : nat)
    (r g b a : Z) :
  length palette = 4 * m -> 1 <= m <= K_SHORTLIST -> Forall isByte palette ->
  x < width img -> y < height img ->
  pixelAt (data img) (y * width img + x) = Some (r, g, b, a) -> a <> 0%Z ->
  let pal := paletteLab palette in
  let lab := rgbToLab (IZR r) (IZR g) (IZR b) in
  let Lr := fround (Lab.L lab) in
  let ar := fround (Lab.a lab) in
  let br := fround (Lab.b lab) in
  let hWeight :=
    hueWeightAt (labArrays (data img) (width img) (height img)) (width img) (height img)
      (Z.of_nat x) (Z.of_nat y) in
  exists jb img',
    jb < m
    /\ mapImageDataToPalette img palette = Some img'
    /\ pixelAt (data img') (y * width img + x) = pixelAt palette jb
    /\ forall j, j < m ->
         (storedCost Lr ar br hWeight (palAt pal jb)
          <= storedCost Lr ar br hWeight (palAt pal j))%R.
Proof.
  intros Hlen Hm Hbytes Hx Hy Hpx Ha pal lab Lr ar br hWeight.
  pose proof (length_paletteLab palette m Hlen) as Hpal. fold pal in Hpal.
  destruct (small_shortlist pal Lr ar br ltac:(lia)) as (_ & _ & Hlow & Hhigh).
  set (sl := shortlist pal Lr ar br) in *.
  rewrite Hpal in Hlow, Hhigh.
  assert (Hcost : forall k, k < m ->
            slotCost pal Lr ar br (hypot ar br) hWeight sl k
            = Finite (storedCost Lr ar br hWeight (palAt pal k))).
  { intros k Hk. destruct (Hlow k Hk) as [Hi Hs]. unfold slotCost.
    rewrite Hi, Hs, Nat2Z.id. apply adjustedCost_stored. reflexivity. }
  destruct (perceptual_pixel_final img palette m x y (r, g, b, a)
              Hlen ltac:(lia) Hbytes Hx Hy Hpx Ha) as (img' & Himg & Hout).
  assert (Hidx : y * width img + x < width img * height img) by nia.
  destruct (labArrays_lookup (data img) (width img) (height img) _ Hidx) as (EL & EA & EB).
  rewrite (pixelLab_opaque _ _ r g b a Hpx Ha) in EL, EA, EB.
  cbn [Lab.L Lab.a Lab.b] in EL, EA, EB.
  cbv zeta in Hout. unfold bestEntry in Hout. rewrite EL, EA, EB in Hout.
  fold lab in Hout. fold Lr ar br in Hout. fold pal hWeight sl in Hout.
  destruct (Hlow 0 ltac:(lia)) as [Hi0 _].
  destruct (refine_inv pal Lr ar br (hypot ar br) hWeight sl _ ltac:(lia)
              (Hcost 0 ltac:(lia)))
    as (kb & Hkb & Hidxb & Hbest & Hmin).
  assert (Hkbm : kb < m).
  { destruct (Nat.lt_ge_cases kb m) as [Hlt|Hge]; [exact Hlt|].
    destruct (Hhigh kb Hge) as [Hneg _]. lia. }
  destruct (Hlow kb Hkbm) as [Hib _].
  rewrite Hbest in Hout. cbn [fst] in Hout. rewrite Hib, Nat2Z.id in Hout.
  exists kb, img'. split; [exact Hkbm|]. split; [exact Himg|]. split.
  - rewrite Hout. symmetry. apply (palAt_paletteLab_bytes palette m kb Hlen Hkbm).
  - intros j Hj. destruct (Hlow j Hj) as [Hij _].
    specialize (Hmin j ltac:(unfold K_SHORTLIST in *; lia) ltac:(lia)).
    rewrite (Hcost j Hj), (Hcost kb Hkbm) in Hmin. apply xlt_Finite in Hmin. exact Hmin.
Qed.

(** *** The first pass keeps the nearest entries *)

Ltac cases_Rlt :=
  repeat match goal with
  | |- context [Rlt_dec ?p ?q] => destruct (Rlt_dec p q)
  | H : context [Rlt_dec ?p ?q] |- _ => destruct (Rlt_dec p q)
  end.

Lemma xgt_le_trans (s w u : ext R) :
  xgt s w = true -> xgt u w = false -> xgt u s = false.
Proof.
  unfold xgt. destruct s as [|s], w as [|w], u as [|u]; cases_Rlt;
    intros; try discriminate; try reflexivity; lra.
Qed.

Lemma xgt_irrefl (s : ext R) : xgt s s = false.
Proof. exact (xlt_irrefl s). Qed.

Lemma worstStep_first (ts : list (ext R)) :
  scoreOk (scoreAt ts 0) -> worstStep ts (0, Finite (-1)%R) 0 = (0, scoreAt ts 0).
Proof.
  intros Hok. unfold worstStep. cbn [snd]. destruct (scoreAt ts 0) as [|v]; [reflexivity|].
  cbn in Hok. unfold xgt. destruct (Rlt_dec (-1) v); [reflexivity|lra].
Qed.

(** The slot found by the search holds a greatest score. *)
Lemma worstSlot_greatest (ts : list (ext R)) :
  (forall k, scoreOk (scoreAt ts k)) ->
  fst (worstSlot ts) < K_SHORTLIST
  /\ snd (worstSlot ts) = scoreAt ts (fst (worstSlot ts))
  /\ forall k, k < K_SHORTLIST -> xgt (scoreAt ts k) (snd (worstSlot ts)) = false.
Proof.
  intros Hok. unfold worstSlot, K_SHORTLIST. cbn [seq fold_left].
  rewrite (worstStep_first ts (Hok 0)).
  assert (Hgen : forall m start w,
            fst w < start -> snd w = scoreAt ts (fst w) ->
            (forall k, k < start -> xgt (scoreAt ts k) (snd w) = false) ->
            let w' := fold_left (worstStep ts) (seq start m) w in
            fst w' < start + m /\ snd w' = scoreAt ts (fst w')
            /\ forall k, k < start + m -> xgt (scoreAt ts k) (snd w') = false).
  { induction m as [|m IH]; intros start w H1 H2 H3; cbn [seq fold_left].
    - rewrite Nat.add_0_r. auto.
    - replace (start + S m) with (S start + m) by lia. apply IH.
      + unfold worstStep. destruct (xgt _ _); cbn [fst]; lia.
      + unfold worstStep. destruct (xgt _ _); cbn [fst snd]; [reflexivity|exact H2].
      + intros k Hk. unfold worstStep. destruct (xgt (scoreAt ts start) (snd w)) eqn:E.
        * cbn [snd]. destruct (decide (k = start)) as [->|Hne]; [apply xgt_irrefl|].
          apply (xgt_le_trans _ (snd w)); [exact E|]. apply H3. lia.
        * destruct (decide (k = start)) as [->|Hne]; [exact E|]. apply H3. lia. }
  apply (Hgen 7 1 (0, scoreAt ts 0)); cbn [fst snd].
  - lia.
  - reflexivity.
  - intros k Hk. assert (k = 0) as -> by lia. apply xgt_irrefl.
Qed.

Section Nearest.

Variables (pal : list PaletteLab.t) (Lr ar br : R).
Hypothesis Hf : Float32Rounding.

Local Abbreviation base := (baseOf pal Lr ar br).
Local Abbreviation held := (inSlot pal Lr ar br).
Local Abbreviation nearer := (allNearer pal Lr ar br).
Local Abbreviation inv := (nearestInv pal Lr ar br).

Lemma base_nonneg (pi : nat) : (0 <= base pi)%R.
Proof. apply deltaE00_nonneg. Qed.

Lemma stored_ok (pi : nat) : scoreOk (Finite (fround (base pi))).
Proof.
  split; [apply fround_nonneg; [exact Hf|apply base_nonneg]|apply (fround_fixed Hf)].
Qed.

(** An entry enters when its distance, not yet rounded, is below the
    float32 of the worst slot; what is stored is its float32. *)
Lemma nearestInv_step (n : nat) (sl : Shortlist) :
  inv n sl -> inv (S n) (shortlistStep pal Lr ar br sl n).
Proof.
  intros (HlenI & HlenS & Hok & Hnear).
  destruct (worstSlot_greatest (topScore sl) Hok) as (Hwk & Hwv & Hmax).
  unfold shortlistStep. fold (base n).
  destruct (worstSlot (topScore sl)) as [wk wv]. cbn [fst snd] in Hwk, Hwv, Hmax.
  destruct (xlt (Finite (base n)) wv) eqn:Hlt.
  - (* entry [n] replaces the entry of slot [wk] *)
    unfold nearestInv. cbn [topIdx topScore]. rewrite !length_insert.
    split; [exact HlenI|]. split; [exact HlenS|]. split.
    { intros k. rewrite scoreAt_insert by lia.
      destruct (decide (k = wk)); [apply stored_ok|apply Hok]. }
    assert (Hall : forall pi,
              (forall k, k < K_SHORTLIST ->
                 exists s, scoreAt (topScore sl) k = Finite s
                           /\ (s <= fround (base pi))%R) ->
              nearer (mkShortlist (<[wk := toInt16 (Z.of_nat n)]> (topIdx sl))
                           (<[wk := Finite (fround (base n))]> (topScore sl))) pi).
    { intros pi Hpi k Hk. cbn [topScore]. rewrite scoreAt_insert by lia.
      destruct (decide (k = wk)) as [->|Hne]; [|apply Hpi; exact Hk].
      destruct (Hpi wk Hwk) as (s & Hs & Hle).
      exists (fround (base n)). split; [reflexivity|].
      pose proof (Hok wk) as Hokw. rewrite Hs in Hokw. destruct Hokw as [_ Hfix].
      rewrite Hs in Hwv. subst wv. unfold xlt, xgt in Hlt. cases_Rlt; try discriminate.
      pose proof (fround_monotone Hf (base n) s ltac:(lra)). lra. }
    intros pi Hpi. destruct (decide (pi = n)) as [->|Hne].
    { left. exists wk. unfold inSlot. cbn [topIdx topScore].
      rewrite idxAt_insert, scoreAt_insert by lia.
      destruct (decide (wk = wk)); [auto|contradiction]. }
    destruct (Hnear pi ltac:(lia)) as [(k & Hk & Hi & Hs)|Hfar].
    + destruct (decide (k = wk)) as [->|Hkw].
      * (* the evicted entry: every slot is now no farther *)
        right. rewrite Hs in Hwv. subst wv. apply Hall.
        intros k Hk'. specialize (Hmax k Hk').
        destruct (scoreAt (topScore sl) k) as [|s] eqn:Es; [discriminate Hmax|].
        exists s. split; [reflexivity|]. unfold xgt in Hmax. cases_Rlt; try discriminate. lra.
      * left. exists k. unfold inSlot. cbn [topIdx topScore].
        rewrite idxAt_insert, scoreAt_insert by lia.
        destruct (decide (k = wk)); [contradiction|auto].
    + right. apply Hall. exact Hfar.
  - (* entry [n] is left out: every slot is no farther *)
    unfold nearestInv. split; [exact HlenI|]. split; [exact HlenS|]. split; [exact Hok|].
    intros pi Hpi. destruct (decide (pi = n)) as [->|Hne]; [|apply Hnear; lia].
    right. intros k Hk. specialize (Hmax k Hk). pose proof (Hok k) as Hokk.
    destruct wv as [|v]; [discriminate Hlt|].
    destruct (scoreAt (topScore sl) k) as [|s]; [discriminate Hmax|].
    destruct Hokk as [_ Hfix].
    exists s. split; [reflexivity|]. unfold xlt, xgt in Hlt, Hmax.
    cases_Rlt; try discriminate.
    pose proof (fround_monotone Hf s (base n) ltac:(lra)). lra.
Qed.

Lemma nearestInv_from (m start : nat) (sl : Shortlist) :
  inv start sl ->
  inv (start + m) (fold_left (shortlistStep pal Lr ar br) (seq start m) sl).
Proof.
  revert start sl. induction m as [|m IH]; intros start sl Hinv; cbn [seq fold_left].
  - rewrite Nat.add_0_r. exact Hinv.
  - replace (start + S m) with (S start + m) by lia.
    apply IH. apply nearestInv_step. exact Hinv.
Qed.

Lemma shortlist_nearest : inv (length pal) (shortlist pal Lr ar br).
Proof.
  unfold shortlist. apply (nearestInv_from (length pal) 0).
  unfold nearestInv, emptyShortlist. cbn [topIdx topScore]. rewrite !length_replicate.
  split; [reflexivity|]. split; [reflexivity|]. split; [|intros pi Hpi; lia].
  intros k. unfold scoreAt.
  destruct (Nat.lt_ge_cases k K_SHORTLIST) as [Hk|Hk].
  - rewrite lookup_replicate_2 by exact Hk. exact I.
  - rewrite lookup_ge_None_2 by (rewrite length_replicate; exact Hk). exact I.
Qed.

End Nearest.

(** X17: the first pass keeps nearest entries, up to the rounding of the
    stored distances: whatever the palette, an entry that is not in the
    shortlist at the end of the pass has a raw CIEDE2000 distance whose
    float32 is at least the score of every slot, and then all
    [K_SHORTLIST] slots are taken; an entry in the shortlist is stored with
    the float32 of its distance. *)
Theorem shortlist_keeps_nearest (pal : list PaletteLab.t) (Lr ar br : R) (pi : nat) :
  Float32Rounding -> pi < length pal ->
  let sl := shortlist pal Lr ar br in
  let stored :=
    fround (deltaE00 Lr ar br (PaletteLab.L (palAt pal pi)) (PaletteLab.a (palAt pal pi))
              (PaletteLab.b (palAt pal pi))) in
  (exists k, k < K_SHORTLIST
     /\ idxAt (topIdx sl) k = toInt16 (Z.of_nat pi)
     /\ scoreAt (topScore sl) k = Finite stored)
  \/ (forall k, k < K_SHORTLIST ->
        exists s, scoreAt (topScore sl) k = Finite s /\ (s <= stored)%R).
Proof.
  intros Hf Hpi sl stored.
  destruct (shortlist_nearest pal Lr ar br Hf) as (_ & _ & _ & Hnear).
  destruct (Hnear pi Hpi) as [(k & Hk & Hi & Hs)|Hfar].
  - left. exists k. auto.
  - right. exact Hfar.
Qed.

End Float32Store.

#[local] Existing Instance exactFloat32.

Lemma hueWeight_range_and_flat_witness :
  hueWeightAt (labArrays [10; 20; 30; 255]%Z 1 1) 1 1 (Z.of_nat 0) (Z.of_nat 0) = 1%R.
Proof.
  apply (proj2 (hueWeight_range_and_flat (labArrays [10; 20; 30; 255]%Z 1 1) 1 1) 0 0
           (realAt (Aarr (labArrays [10; 20; 30; 255]%Z 1 1)) 0)
           (realAt (Barr (labArrays [10; 20; 30; 255]%Z 1 1)) 0)).
  - lia.
  - lia.
  - intros n Hn. cbn in Hn. destruct Hn as [<-|[]]. split; reflexivity.
Defined.

Lemma perceptual_writes_palette_entry_witness :
  exists j img',
    j < 2
    /\ mapImageDataToPalette (mkImageData 1 1 [10; 20; 30; 255]%Z)
         [0; 0; 0; 255; 255; 255; 255; 255]%Z = Some img'
    /\ pixelAt (data img') 0 = pixelAt [0; 0; 0; 255; 255; 255; 255; 255]%Z j
    /\ pixelAt [0; 0; 0; 255; 255; 255; 255; 255]%Z j <> None.
Proof.
  apply (perceptual_writes_palette_entry (mkImageData 1 1 [10; 20; 30; 255]%Z)
           [0; 0; 0; 255; 255; 255; 255; 255]%Z 2 0 0 (10, 20, 30, 255)%Z).
  - reflexivity.
  - lia.
  - repeat constructor; unfold isByte; lia.
  - cbn. lia.
  - cbn. lia.
  - reflexivity.
  - cbn. lia.
Defined.

Lemma small_palette_global_optimum_witness :
  let img := mkImageData 1 1 [10; 20; 30; 255]%Z in
  let palette := [0; 0; 0; 255; 255; 255; 255; 255]%Z in
  let pal := paletteLab palette in
  let lab := rgbToLab (IZR 10) (IZR 20) (IZR 30) in
  let Lr := fround (Lab.L lab) in
  let ar := fround (Lab.a lab) in
  let br := fround (Lab.b lab) in
  let hWeight := hueWeightAt (labArrays (data img) 1 1) 1 1 0%Z 0%Z in
  exists jb img',
    jb < 2
    /\ mapImageDataToPalette img palette = Some img'
    /\ pixelAt (data img') 0 = pixelAt palette jb
    /\ forall j, j < 2 ->
         (storedCost Lr ar br hWeight (palAt pal jb)
          <= storedCost Lr ar br hWeight (palAt pal j))%R.
Proof.
  apply (small_palette_global_optimum (mkImageData 1 1 [10; 20; 30; 255]%Z)
           [0; 0; 0; 255; 255; 255; 255; 255]%Z 2 0 0 10 20 30 255).
  - reflexivity.
  - unfold K_SHORTLIST. lia.
  - repeat constructor; unfold isByte; lia.
  - cbn. lia.
  - cbn. lia.
  - reflexivity.
  - lia.
Defined.

Lemma shortlist_keeps_nearest_witness :
  let pal := paletteLab [0; 0; 0; 255; 255; 255; 255; 255]%Z in
  let sl := shortlist pal 0 0 0 in
  let stored :=
    fround (deltaE00 0 0 0 (PaletteLab.L (palAt pal 1)) (PaletteLab.a (palAt pal 1))
              (PaletteLab.b (palAt pal 1))) in
  (exists k, k < K_SHORTLIST
     /\ idxAt (topIdx sl) k = toInt16 (Z.of_nat 1)
     /\ scoreAt (topScore sl) k = Finite stored)
  \/ (forall k, k < K_SHORTLIST ->
        exists s, scoreAt (topScore sl) k = Finite s /\ (s <= stored)%R).
Proof.
  apply (shortlist_keeps_nearest (paletteLab [0; 0; 0; 255; 255; 255; 255; 255]%Z) 0 0 0 1).
  - exact exactFloat32_rounding.
  - cbn. lia.
Defined.

End MapperProps.

(** ** The guards of the two mappers *)

Module MapperGuardProps.

Import Js Image Classic Perceptual Invariants ImageProps ClassicProps PerceptualProps
  ClassicMapperProps.
Local Open Scope nat_scope.

Section Float32Store.

Context `{Float32}.

Lemma length_mapStep (arrs : LabArrays) (pal : list PaletteLab.t) (w h y x : nat)
    (d : list Z) :
  length (mapStep arrs pal w h y d x) = length d.
Proof.
  destruct (mapStep_cases arrs pal w h y x d) as [[_ ->]|[_ ->]];
    [reflexivity|apply length_setPixel].
Qed.

(** X18: the guards and the shape.  On a palette of fewer than four bytes
    both mappers return the image as it is; the perceptual mapper throws
    exactly on a palette of four bytes or more whose length is not a
    multiple of four, and the classic one never; and a mapped image has the
    width, the height and the number of bytes of the original. *)
Theorem mapper_guards_and_shape (img : ImageData) (palette : list Z) :
  (length palette < 4 ->
   mapImageDataToPalette img palette = Some img
   /\ mapImageDataToPaletteClassic img palette = img)
  /\ (mapImageDataToPalette img palette = None
      <-> 4 <= length palette /\ length palette mod 4 <> 0)
  /\ (forall img', mapImageDataToPalette img palette = Some img' ->
        width img' = width img /\ height img' = height img
        /\ length (data img') = length (data img))
  /\ (width (mapImageDataToPaletteClassic img palette) = width img
      /\ height (mapImageDataToPaletteClassic img palette) = height img
      /\ length (data (mapImageDataToPaletteClassic img palette)) = length (data img)).
Proof.
  split; [|split; [|split]].
  - intros Hshort. unfold mapImageDataToPalette, mapImageDataToPaletteClassic, RGBA_STRIDE.
    destruct (Nat.ltb_spec (length palette) 4) as [_|Hge]; [auto|lia].
  - unfold mapImageDataToPalette, RGBA_STRIDE.
    destruct (Nat.ltb_spec (length palette) 4) as [Hlt|Hge].
    + split; [discriminate|lia].
    + destruct (Nat.eqb_spec (length palette mod 4) 0) as [E|Hne]; cbn [negb].
      * split; [discriminate|lia].
      * split; [auto|reflexivity].
  - intros img'. unfold mapImageDataToPalette.
    destruct (length palette <? RGBA_STRIDE); [intros E; injection E as <-; auto|].
    destruct (negb _); [discriminate|]. intros E. injection E as <-. cbn [width height data].
    split; [reflexivity|]. split; [reflexivity|].
    apply (rows_inv _ _ _ (fun d => length d = length (data img))); [|reflexivity].
    intros y x d _ _ Hd. rewrite length_mapStep. exact Hd.
  - destruct (length_classic img palette) as (HL & HW & HH). auto.
Qed.

(** *** The classic mapper on a palette with a partial last entry *)

Lemma readNum_take (l : list Z) (n i : nat) : i < n -> readNum (take n l) i = readNum l i.
Proof. intros Hi. unfold readNum. rewrite lookup_take_lt by exact Hi. reflexivity. Qed.

Lemma add_NaN_r (x : num) : add x NaN = NaN.
Proof. destruct x; reflexivity. Qed.

Lemma scanStep_take (palette : list Z) (r g b : num) (best : nat * ext Z) (n p : nat) :
  p + 3 <= n -> scanStep (take n palette) r g b best p = scanStep palette r g b best p.
Proof.
  intros Hp. unfold scanStep, CHANNEL_R, CHANNEL_G, CHANNEL_B.
  rewrite !readNum_take by lia. reflexivity.
Qed.

Lemma scanStep_partial (palette : list Z) (r g b : num) (best : nat * ext Z) (p : nat) :
  length palette <= p + 2 -> scanStep palette r g b best p = best.
Proof.
  intros Hlen. unfold scanStep, CHANNEL_R, CHANNEL_G, CHANNEL_B.
  assert (E : readNum palette (p + 2) = NaN).
  { unfold readNum. rewrite lookup_ge_None_2 by lia. reflexivity. }
  rewrite E. cbn [sub mul]. rewrite add_NaN_r. reflexivity.
Qed.

Lemma strideIndices_ragged (m k : nat) :
  1 <= k <= 3 -> strideIndices (4 * m + k) = strideIndices (4 * m) ++ [4 * m].
Proof.
  intros Hk. unfold strideIndices.
  replace ((4 * m + k + 3) / 4) with (S m)
    by (apply Nat.div_unique with (k - 1); lia).
  replace ((4 * m + 3) / 4) with m by (apply Nat.div_unique with 3; lia).
  rewrite seq_S, map_app. cbn [map]. rewrite Nat.add_0_l, (Nat.mul_comm m 4). reflexivity.
Qed.

Lemma scan_index_bound (palette : list Z) (r g b : num) (m : nat) :
  1 <= m ->
  fst (fold_left (scanStep palette r g b) (strideIndices (4 * m)) (0, PosInf)) + 4 <= 4 * m.
Proof.
  intros Hm.
  apply (fold_left_inv (scanStep palette r g b) (fun best => fst best + 4 <= 4 * m));
    [|cbn [fst]; lia].
  intros best p Hp Hbest. unfold strideIndices in Hp.
  apply in_map_iff in Hp as (j & <- & Hj). apply in_seq in Hj.
  assert (Hjm : j < m).
  { assert ((4 * m + 3) / 4 = m) as E by (symmetry; apply Nat.div_unique with 3; lia).
    lia. }
  unfold scanStep. destruct (distLt _ _); [|exact Hbest].
  destruct (add _ _); [exact Hbest|]. cbn [fst]. lia.
Qed.

Lemma fold_left_ext_in {A B : Type} (f g : A -> B -> A) (l : list B) (a : A) :
  (forall a b, In b l -> f a b = g a b) -> fold_left f l a = fold_left g l a.
Proof.
  revert a. induction l as [|b l IH]; intros a Hfg; cbn [fold_left]; [reflexivity|].
  rewrite Hfg by (left; reflexivity). apply IH. intros a' b' Hb'. apply Hfg. right. exact Hb'.
Qed.

Lemma stride_index (m p : nat) : In p (strideIndices (4 * m)) -> p + 4 <= 4 * m.
Proof.
  unfold strideIndices. intros Hp. apply in_map_iff in Hp as (j & <- & Hj).
  apply in_seq in Hj.
  assert ((4 * m + 3) / 4 = m) as E by (symmetry; apply Nat.div_unique with 3; lia).
  lia.
Qed.

Lemma scanPalette_ragged (palette : list Z) (r g b : num) (m k : nat) :
  length palette = 4 * m + k -> 1 <= m -> 1 <= k <= 2 ->
  scanPalette palette r g b = scanPalette (take (4 * m) palette) r g b
  /\ fst (scanPalette palette r g b) + 4 <= 4 * m.
Proof.
  intros Hlen Hm Hk.
  assert (Etake : scanPalette (take (4 * m) palette) r g b
                  = fold_left (scanStep (take (4 * m) palette) r g b)
                      (strideIndices (4 * m)) (0, PosInf)).
  { unfold scanPalette. rewrite length_take, Hlen, Nat.min_l by lia. reflexivity. }
  assert (E : scanPalette palette r g b = scanPalette (take (4 * m) palette) r g b).
  { rewrite Etake. unfold scanPalette.
    rewrite Hlen, strideIndices_ragged, fold_left_app by lia. cbn [fold_left].
    rewrite scanStep_partial by lia.
    apply fold_left_ext_in. intros best p Hp. apply stride_index in Hp.
    symmetry. apply scanStep_take. lia. }
  split; [exact E|]. rewrite E, Etake. apply scan_index_bound. exact Hm.
Qed.

Lemma pixelStep_ragged (palette d : list Z) (m k i : nat) :
  length palette = 4 * m + k -> 1 <= m -> 1 <= k <= 2 ->
  pixelStep palette d i = pixelStep (take (4 * m) palette) d i.
Proof.
  intros Hlen Hm Hk. unfold pixelStep. cbv zeta.
  destruct (decide _); [reflexivity|].
  destruct (scanPalette_ragged palette (readNum d (i + CHANNEL_R)) (readNum d (i + CHANNEL_G))
              (readNum d (i + CHANNEL_B)) m k Hlen Hm Hk) as [E Hb].
  rewrite <- E. set (bestIndex := fst (scanPalette palette _ _ _)) in *.
  unfold CHANNEL_R, CHANNEL_G, CHANNEL_B, CHANNEL_A.
  rewrite !lookup_take_lt by lia. reflexivity.
Qed.

(** X19: one or two bytes beyond the last whole entry of the palette do not
    count: the classic mapper gives the same image as on the palette without
    them, where the perceptual mapper throws. *)
Theorem classic_ignores_partial_entry (img : ImageData) (palette : list Z) (m k : nat) :
  length palette = 4 * m + k -> 1 <= m -> 1 <= k <= 2 ->
  mapImageDataToPaletteClassic img palette
  = mapImageDataToPaletteClassic img (take (4 * m) palette)
  /\ mapImageDataToPalette img palette = None.
Proof.
  intros Hlen Hm Hk. split.
  - unfold mapImageDataToPaletteClassic, RGBA_STRIDE.
    rewrite length_take, Hlen, Nat.min_l by lia.
    destruct (Nat.ltb_spec (4 * m + k) 4) as [Hlt|_]; [lia|].
    destruct (Nat.ltb_spec (4 * m) 4) as [Hlt|_]; [lia|].
    f_equal. apply fold_left_ext. intros d i.
    apply (pixelStep_ragged palette d m k i Hlen Hm Hk).
  - unfold mapImageDataToPalette, RGBA_STRIDE. rewrite Hlen.
    destruct (Nat.ltb_spec (4 * m + k) 4) as [Hlt|_]; [lia|].
    replace ((4 * m + k) mod 4) with k
      by (apply Nat.mod_unique with m; lia).
    destruct k as [|[|[|k]]]; try lia; reflexivity.
Qed.

End Float32Store.

#[local] Existing Instance exactFloat32.

Lemma mapper_guards_and_shape_witness :
  mapImageDataToPalette (mkImageData 1 1 [10; 20; 30; 255]%Z) [1; 2; 3]%Z
  = Some (mkImageData 1 1 [10; 20; 30; 255]%Z)
  /\ mapImageDataToPaletteClassic (mkImageData 1 1 [10; 20; 30; 255]%Z) [1; 2; 3]%Z
     = mkImageData 1 1 [10; 20; 30; 255]%Z.
Proof.
  apply (proj1 (mapper_guards_and_shape (mkImageData 1 1 [10; 20; 30; 255]%Z) [1; 2; 3]%Z)).
  cbn. lia.
Defined.

Lemma classic_ignores_partial_entry_witness :
  mapImageDataToPaletteClassic (mkImageData 1 1 [10; 20; 30; 255]%Z)
    [0; 0; 0; 255; 12; 20]%Z
  = mapImageDataToPaletteClassic (mkImageData 1 1 [10; 20; 30; 255]%Z)
      (take (4 * 1) [0; 0; 0; 255; 12; 20]%Z)
  /\ mapImageDataToPalette (mkImageData 1 1 [10; 20; 30; 255]%Z) [0; 0; 0; 255; 12; 20]%Z
     = None.
Proof.
  apply (classic_ignores_partial_entry (mkImageData 1 1 [10; 20; 30; 255]%Z)
           [0; 0; 0; 255; 12; 20]%Z 1 2).
  - reflexivity.
  - lia.
  - lia.
Defined.

End MapperGuardProps.

(** ** Sessions of the worker, further *)

Module SessionProps.

Import Js Image Tiles Worker TilesProps WorkerProps.
Local Open Scope Z_scope.

Lemma toUint8Clamp_isByte (v : num) : isByte (toUint8Clamp v).
Proof. unfold isByte, toUint8Clamp. destruct v; lia. Qed.

Lemma Uint8ClampedArray_from_bytes (numbers : list num) :
  Forall isByte (Uint8ClampedArray_from numbers)
  /\ length (Uint8ClampedArray_from numbers) = length numbers.
Proof.
  unfold Uint8ClampedArray_from. split; [|apply length_map].
  apply Forall_forall. intros v Hv. apply list_elem_of_fmap in Hv as (n & -> & _).
  apply toUint8Clamp_isByte.
Qed.

Section WithCanvas.

Context `{Canvas} `{Float32}.

Lemma colorize_fields (st st' : State) (tx ty : Z) (pixels : list Z) :
  lastPalette st' = lastPalette st ->
  lastColorizeEnabled st' = lastColorizeEnabled st ->
  lastAdvancedColorize st' = lastAdvancedColorize st ->
  colorize st' tx ty pixels = colorize st tx ty pixels.
Proof. intros E1 E2 E3. unfold colorize. rewrite E1, E2, E3. reflexivity. Qed.

Lemma process_result_form (octx : bool) (st st' : State) (msg : PixelateProcessMessage)
    (j : Z) (bmp : ImageBitmap) (meta : Meta) :
  handleProcessMessage octx st msg = (st', [result j bmp meta]) ->
  exists source tx ty pixels,
    lastSourceBitmap (storeRequest st msg) = Some source
    /\ blockSize msg <> 0 /\ octx = true
    /\ computeTilesDimension (bitmapWidth source) (bitmapHeight source) (blockSize msg)
       = (tx, ty)
    /\ colorize (storeRequest st msg) tx ty (drawImage source tx ty) = Some pixels
    /\ st' = mkState (Some (jobId msg)) (Some (jobId msg))
               (lastSourceBitmap (storeRequest st msg)) (Some (blockSize msg))
               (lastPalette (storeRequest st msg))
               (lastColorizeEnabled (storeRequest st msg))
               (lastAdvancedColorize (storeRequest st msg))
    /\ j = jobId msg /\ bmp = transferToImageBitmap tx ty pixels
    /\ meta = mkMeta tx ty tx ty (tx * ty) (blockSize msg).
Proof.
  intros E. pose proof (handleProcessMessage_outcome octx st msg) as Hout.
  remember (handleProcessMessage octx st msg) as r eqn:Er. clear Er.
  destruct Hout as [| | | |source tx ty pixels Hsrc Hnz Hctx Hdim Hcol];
    try discriminate E.
  injection E as E1 E2 E3 E4. subst.
  exists source, tx, ty, pixels. repeat split; try assumption; reflexivity.
Qed.

(** X20: what the download re-renders is what was shown: right after a process
    request has posted its result, an export request for that job posts one
    blob, made from the same tile grid and the same pixels as the result's
    bitmap. *)
Theorem export_matches_result (st st' : State) (msg : PixelateProcessMessage)
    (j : Z) (bmp : ImageBitmap) (meta : Meta) :
  handleProcessMessage true st msg = (st', [result j bmp meta]) ->
  exists pixels,
    j = jobId msg
    /\ bmp = transferToImageBitmap (tilesX meta) (tilesY meta) pixels
    /\ handleGenerateBlobMessage true st' j
       = (st', [blob j (convertToBlob (tilesX meta) (tilesY meta) pixels)]).
Proof.
  intros E.
  destruct (process_result_form true st st' msg j bmp meta E)
    as (source & tx & ty & pixels & Hsrc & Hnz & _ & Hdim & Hcol & -> & -> & -> & ->).
  exists pixels. cbn [tilesX tilesY].
  split; [reflexivity|]. split; [reflexivity|].
  set (sr := storeRequest st msg) in *. clearbody sr.
  unfold handleGenerateBlobMessage. cbn [lastSourceBitmap lastBlockSize lastRenderedJobId].
  rewrite Hsrc.
  destruct (decide (Some (jobId msg) <> Some (jobId msg))) as [Hne|_];
    [exfalso; apply Hne; reflexivity|].
  destruct (Z.eqb_spec (blockSize msg) 0) as [Hz|_]; [contradiction|].
  rewrite Hdim. cbn [negb].
  rewrite (colorize_fields sr) by reflexivity.
  rewrite Hcol. reflexivity.
Qed.

Lemma export_requires_guard (octx : bool) (st : State) (j : Z) :
  snd (handleGenerateBlobMessage octx st j) <> [] -> lastRenderedJobId st = Some j.
Proof.
  unfold handleGenerateBlobMessage.
  destruct (lastSourceBitmap st), (lastBlockSize st); cbn [snd]; try congruence.
  destruct (decide (lastRenderedJobId st <> Some j)) as [Hne|Heq]; cbn [snd]; [congruence|].
  intros _. destruct (decide (lastRenderedJobId st = Some j)); [assumption|contradiction].
Qed.

Lemma blobsFollowResults_snoc_result (out : list Outgoing) (j : Z) (bmp : ImageBitmap)
    (meta : Meta) :
  blobsFollowResults out -> blobsFollowResults (out ++ [result j bmp meta]).
Proof.
  intros Hout l1 j' b l2 E.
  destruct l2 as [|m l2 _] using rev_ind.
  - apply app_inj_tail in E as [_ E]. discriminate E.
  - change (l1 ++ blob j' b :: l2 ++ [m]) with (l1 ++ (blob j' b :: l2) ++ [m]) in E.
    rewrite app_assoc in E. apply app_inj_tail in E as [E _].
    exact (Hout l1 j' b l2 E).
Qed.

Lemma blobsFollowResults_snoc_blob (out : list Outgoing) (j : Z) (b : Blob) :
  blobsFollowResults out -> (exists bmp meta, In (result j bmp meta) out) ->
  blobsFollowResults (out ++ [blob j b]).
Proof.
  intros Hout Hres l1 j' b' l2 E.
  destruct l2 as [|m l2 _] using rev_ind.
  - apply app_inj_tail in E as [E1 E2]. injection E2 as <- <-. subst l1. exact Hres.
  - change (l1 ++ blob j' b' :: l2 ++ [m]) with (l1 ++ (blob j' b' :: l2) ++ [m]) in E.
    rewrite app_assoc in E. apply app_inj_tail in E as [E _].
    exact (Hout l1 j' b' l2 E).
Qed.

Lemma onmessage_blobs (octx : bool) (st : State) (data : PixelateIncomingMessage)
    (out : list Outgoing) :
  blobsFollowResults out -> renderedWasPosted st out ->
  blobsFollowResults (out ++ snd (onmessage octx st data))
  /\ renderedWasPosted (fst (onmessage octx st data)) (out ++ snd (onmessage octx st data)).
Proof.
  intros Hout Hst. destruct data as [msg|j|j]; cbn [onmessage].
  - pose proof (handleProcessMessage_outcome octx st msg) as Ho.
    remember (handleProcessMessage octx st msg) as r eqn:Er. clear Er.
    destruct Ho; cbn [fst snd]; rewrite ?app_nil_r.
    1-4: (split; [exact Hout|]; intros j Hj; apply Hst; exact Hj).
    split.
    + apply blobsFollowResults_snoc_result. exact Hout.
    + intros j Hj. cbn [lastRenderedJobId] in Hj. injection Hj as <-.
      eexists _, _. apply in_or_app. right. left. reflexivity.
  - destruct (decide _); cbn [fst snd]; rewrite app_nil_r; (split; [exact Hout|]);
      intros j' Hj'; apply Hst; exact Hj'.
  - pose proof (handleGenerateBlobMessage_state octx st j) as Es.
    pose proof (export_requires_guard octx st j) as Hg.
    destruct (handleGenerateBlobMessage_out octx st j) as [E|[b E]].
    + rewrite E, app_nil_r, Es. split; assumption.
    + rewrite E, Es. split.
      * apply blobsFollowResults_snoc_blob; [exact Hout|]. apply Hst. apply Hg.
        rewrite E. discriminate.
      * intros j' Hj'. destruct (Hst j' Hj') as (bmp & meta & Hin).
        exists bmp, meta. apply in_or_app. left. exact Hin.
Qed.

Lemma run_blobs (events : list (bool * PixelateIncomingMessage)) (st : State)
    (out : list Outgoing) :
  blobsFollowResults out -> renderedWasPosted st out ->
  blobsFollowResults (out ++ snd (run st events)).
Proof.
  revert st out. induction events as [|[octx data] events IH]; intros st out Hout Hst.
  - cbn. rewrite app_nil_r. exact Hout.
  - cbn [run]. destruct (onmessage_blobs octx st data out Hout Hst) as [H1 H2].
    destruct (onmessage octx st data) as [st1 out1]. cbn [fst snd] in H1, H2.
    specialize (IH st1 (out ++ out1) H1 H2).
    destruct (run st1 events) as [st2 out2]. cbn [snd] in *.
    rewrite app_assoc. exact IH.
Qed.

(** X21: whatever the messages a session receives, every blob the worker posts
    comes after a result it posted for the same job id: nothing is exported
    that was not delivered first. *)
Theorem blobs_follow_results (events : list (bool * PixelateIncomingMessage)) :
  forall l1 j b l2,
    snd (run initialState events) = l1 ++ blob j b :: l2 ->
    exists bmp meta, In (result j bmp meta) l1.
Proof.
  apply (run_blobs events initialState []).
  - intros l1 j b l2 E. destruct l1; discriminate E.
  - intros j Hj. discriminate Hj.
Qed.

(** *** The stored palette *)

Lemma storeRequest_paletteOk (st : State) (msg : PixelateProcessMessage) :
  paletteOk (storeRequest st msg).
Proof.
  intros p. unfold storeRequest. cbn [lastPalette].
  destruct (palette msg) as [q|]; [|discriminate].
  unfold RGBA_STRIDE. destruct (Nat.leb_spec 4 (length q)) as [Hq|_]; [|discriminate].
  intros E. injection E as <-.
  destruct (Uint8ClampedArray_from_bytes q) as [Hb Hl]. rewrite Hl. auto.
Qed.

Lemma onmessage_paletteOk (octx : bool) (st : State) (data : PixelateIncomingMessage) :
  paletteOk st -> paletteOk (fst (onmessage octx st data)).
Proof.
  intros Hst. destruct data as [msg|j|j]; cbn [onmessage].
  - pose proof (storeRequest_paletteOk st msg) as Hsr.
    pose proof (handleProcessMessage_outcome octx st msg) as Ho.
    remember (handleProcessMessage octx st msg) as r eqn:Er. clear Er.
    destruct Ho; cbn [fst]; exact Hsr.
  - destruct (decide _); cbn [fst]; [|exact Hst].
    intros p Hp. cbn [lastPalette] in Hp. apply Hst. exact Hp.
  - rewrite handleGenerateBlobMessage_state. exact Hst.
Qed.

(** X22: whatever the messages received, the palette the worker keeps is either
    absent or a byte array (every value between 0 and 255) of at least four
    bytes: numbers out of range, fractions aside, were clamped when stored. *)
Theorem stored_palette_is_bytes (events : list (bool * PixelateIncomingMessage)) :
  forall p, lastPalette (fst (run initialState events)) = Some p ->
    (4 <= length p)%nat /\ Forall isByte p.
Proof.
  assert (Hgen : forall st, paletteOk st -> paletteOk (fst (run st events))).
  { induction events as [|[octx data] events IH]; intros st Hst; cbn [run].
    - exact Hst.
    - pose proof (onmessage_paletteOk octx st data Hst) as H1.
      destruct (onmessage octx st data) as [st1 out1]. cbn [fst] in H1.
      specialize (IH st1 H1). destruct (run st1 events) as [st2 out2]. exact IH. }
  apply Hgen. intros p Hp. discriminate Hp.
Qed.

(** *** Requests of the route *)

Lemma mapImageDataToPalette_whole (img : ImageData) (palette : list Z) :
  (length palette mod 4 = 0)%nat ->
  exists d, Perceptual.mapImageDataToPalette img palette
            = Some (mkImageData (width img) (height img) d)
            /\ (length palette < 4 -> d = data img)%nat.
Proof.
  intros Hlen. unfold Perceptual.mapImageDataToPalette, RGBA_STRIDE.
  destruct (Nat.ltb_spec (length palette) 4) as [Hshort|Hlong].
  - exists (data img). destruct img; split; reflexivity.
  - rewrite Hlen. cbn [Nat.eqb negb]. eexists. split; [reflexivity|]. lia.
Qed.

(** X23: a request built by the route is always rendered: with a source, a
    non-zero block size and a 2d context the worker posts exactly one result
    for it; the colour mapper, which is then the perceptual one, cannot
    throw, since the flattened palette holds whole entries.  The posted
    pixels are those of the perceptual mapper when colorization is on and
    the flattened palette holds an entry, which is when some selected entry
    has a colour string that parses; otherwise (colorization off, nothing
    selected, or only entries selected whose colour string does not parse)
    they are those of the downscaled source. *)
Theorem route_request_is_rendered (st : State) (entries : list Route.PaletteEntry)
    (keys : list string) (nextJob newBlockSize : Z) (source src : ImageBitmap)
    (includeBitmap colorizeOn : bool) :
  let paletteArray := Route.selectedPaletteArray entries keys in
  let msg := startProcessMessage nextJob newBlockSize source includeBitmap colorizeOn
               paletteArray in
  let tx := fst (computeTilesDimension (bitmapWidth src) (bitmapHeight src) newBlockSize) in
  let ty := snd (computeTilesDimension (bitmapWidth src) (bitmapHeight src) newBlockSize) in
  lastSourceBitmap (storeRequest st msg) = Some src -> newBlockSize <> 0 ->
  ((4 <=? length paletteArray)%nat = true
   <-> exists e, In e entries /\ Route.isSelected keys e = true
                 /\ Route.hexToRgbaComponents (Route.hex e) <> None)
  /\ exists pixels,
    snd (handleProcessMessage true st msg)
    = [result nextJob (transferToImageBitmap tx ty pixels)
         (mkMeta tx ty tx ty (tx * ty) newBlockSize)]
    /\ (if (colorizeOn && (4 <=? length paletteArray)%nat)%bool
        then Perceptual.mapImageDataToPalette
               (mkImageData (Z.to_nat tx) (Z.to_nat ty) (drawImage src tx ty))
               (Uint8ClampedArray_from paletteArray)
             = Some (mkImageData (Z.to_nat tx) (Z.to_nat ty) pixels)
        else pixels = drawImage src tx ty).
Proof.
  intros paletteArray msg tx ty Hsrc Hnz. split.
  { rewrite Nat.leb_le. unfold paletteArray.
    rewrite SelectionProps.selectedPaletteArray_eq, SelectionProps.flat_entryQuad_nonempty.
    split.
    - intros (e & Hin & Hp). apply List.filter_In in Hin as [Hin Hsel]. eauto.
    - intros (e & Hin & Hsel & Hp). exists e. split; [|exact Hp].
      apply List.filter_In. split; assumption. }
  assert (Hlen : (length (Uint8ClampedArray_from paletteArray) mod 4 = 0)%nat).
  { unfold Uint8ClampedArray_from. rewrite length_map.
    apply SelectionProps.length_selectedPaletteArray. }
  destruct (mapImageDataToPalette_whole
              (mkImageData (Z.to_nat tx) (Z.to_nat ty) (drawImage src tx ty))
              (Uint8ClampedArray_from paletteArray) Hlen) as (d & Hmap & _).
  cbn [width height] in Hmap.
  set (enable := (colorizeOn && (4 <=? length paletteArray)%nat)%bool).
  assert (Hcol : colorize (storeRequest st msg) tx ty (drawImage src tx ty)
                 = Some (if enable then d else drawImage src tx ty)).
  { unfold colorize, storeRequest, msg, startProcessMessage.
    cbn [lastPalette lastColorizeEnabled lastAdvancedColorize palette colorizeEnabled
         advancedColorize default]. unfold Route.RGBA_STRIDE, RGBA_STRIDE. fold enable.
    destruct (4 <=? length paletteArray)%nat eqn:E4.
    - unfold Uint8ClampedArray_from at 1. rewrite length_map, E4, andb_true_r.
      destruct enable.
      + rewrite Hmap. reflexivity.
      + reflexivity.
    - subst enable. rewrite andb_false_r. reflexivity. }
  exists (if enable then d else drawImage src tx ty). split.
  - unfold handleProcessMessage. rewrite Hsrc.
    change (blockSize msg) with newBlockSize.
    destruct (Z.eqb_spec newBlockSize 0) as [Hz|_]; [contradiction|].
    rewrite (surjective_pairing (computeTilesDimension _ _ _)). fold tx ty.
    cbn [negb]. rewrite Hcol. unfold finishProcess.
    destruct (decide _) as [Hne|_]; [exfalso; apply Hne; reflexivity|]. reflexivity.
  - destruct enable; [exact Hmap|reflexivity].
Qed.

End WithCanvas.

#[local] Existing Instance exactFloat32.

Lemma export_matches_result_witness :
  exists pixels,
    1 = jobId firstRequest
    /\ mkSolid 2 2 (solidFill 2 2 [255; 0; 0; 255])
       = transferToImageBitmap 2 2 pixels
    /\ handleGenerateBlobMessage true afterFirst 1
       = (afterFirst, [blob 1 (convertToBlob 2 2 pixels)]).
Proof.
  apply (export_matches_result initialState afterFirst firstRequest 1
           (mkSolid 2 2 (solidFill 2 2 [255; 0; 0; 255])) (mkMeta 2 2 2 2 4 16)).
  reflexivity.
Defined.

Lemma blobs_follow_results_witness :
  exists bmp meta,
    In (result (H := solidCanvas) 1 bmp meta)
      [result (H := solidCanvas) 1 (mkSolid 2 2 (solidFill 2 2 [255; 0; 0; 255]))
         (mkMeta 2 2 2 2 4 16)].
Proof.
  apply (blobs_follow_results (H := solidCanvas) exportSession
           [result (H := solidCanvas) 1 (mkSolid 2 2 (solidFill 2 2 [255; 0; 0; 255]))
              (mkMeta 2 2 2 2 4 16)]
           1 (2, 2, solidFill 2 2 [255; 0; 0; 255]) []).
  reflexivity.
Defined.

Lemma stored_palette_is_bytes_witness :
  (4 <= length [255; 0; 0; 7])%nat /\ Forall isByte [255; 0; 0; 7].
Proof.
  apply (stored_palette_is_bytes (H := solidCanvas) wildPaletteSession [255; 0; 0; 7]).
  reflexivity.
Defined.

Lemma route_request_is_rendered_witness :
  exists pixels,
    snd (handleProcessMessage true initialState
           (startProcessMessage (H := solidCanvas) 1 16 red32 true true
              (Route.selectedPaletteArray [Route.mkPaletteEntry "a" "#f00" false] ["a"%string])))
    = [result 1 (transferToImageBitmap 2 2 pixels) (mkMeta 2 2 2 2 (2 * 2) 16)]
    /\ Perceptual.mapImageDataToPalette
         (mkImageData (Z.to_nat 2) (Z.to_nat 2) (drawImage (Canvas := solidCanvas) red32 2 2))
         (Uint8ClampedArray_from
            (Route.selectedPaletteArray [Route.mkPaletteEntry "a" "#f00" false] ["a"%string]))
       = Some (mkImageData (Z.to_nat 2) (Z.to_nat 2) pixels).
Proof.
  apply (route_request_is_rendered (H := solidCanvas) initialState
           [Route.mkPaletteEntry "a" "#f00" false] ["a"%string] 1 16 red32 red32 true true).
  - reflexivity.
  - lia.
Defined.

(** A selected entry whose colour string does not parse adds nothing to the
    palette: the request is rendered without colour mapping. *)
Lemma unreadable_colour_is_skipped :
  Route.isSelected ["a"%string] (Route.mkPaletteEntry "a" "nope" false) = true
  /\ Route.selectedPaletteArray [Route.mkPaletteEntry "a" "nope" false] ["a"%string] = []
  /\ snd (handleProcessMessage true initialState
            (startProcessMessage (H := solidCanvas) 1 16 red32 true true
               (Route.selectedPaletteArray [Route.mkPaletteEntry "a" "nope" false]
                  ["a"%string])))
     = [result 1 (mkSolid 2 2 (drawImage (Canvas := solidCanvas) red32 2 2))
          (mkMeta 2 2 2 2 4 16)].
Proof. repeat split. Qed.

End SessionProps.
